(** * The project index of the project-management plugin

    A shallow embedding of [ProjectCache] (services/cache.ts): the full
    vault scan [reindex], the lookup [getTask] and the mutation gateway
    [updateTask], together with the string and regular-expression
    primitives of the host language that they are written with; of
    [getTaskPriority] of the timeline view; and of the functions of
    the creation dialog (newActionItem.ts) that build and place a new
    task: [generateTaskId], [createTaskLine], [createTableRow] and
    [insertTaskIntoTable].

    Strings are sequences of UTF-16 code units, as in the source
    language.  Regular expressions are written with backtracking
    combinators that return every way of matching a prefix, in the
    priority order of the source language's matcher; the first element
    is the match the engine reports. *)

From Stdlib Require Import NArith List String Ascii Lia Bool QArith DecimalN.
From stdpp Require Import gmap list.
Import ListNotations.

#[local] Open Scope N_scope.

(** ** Strings *)

Module Str.

(** A string is a list of UTF-16 code units. *)
Abbreviation str := (list N).

(** Code units of a Basic Latin literal. *)
Fixpoint js (s : string) : str :=
  match s with
  | EmptyString => []
  | String a r => N_of_ascii a :: js r
  end.

(** The code unit of a Basic Latin character, and the test for it. *)
Definition ch (a : ascii) : N := N_of_ascii a.
Arguments ch a%_char.
Definition isc (d c : N) : bool := c =? d.
Definition between (lo hi c : N) : bool := (lo <=? c) && (c <=? hi).

Definition NBSP : N := 160.
Definition LF : N := 10.
Definition PIPE : N := 124.

(** [\s]: WhiteSpace and LineTerminator of the language definition. *)
Definition is_ws (c : N) : bool :=
  between 9 13 c || isc 32 c || isc 160 c || isc 5760 c
  || between 8192 8202 c || isc 8232 c || isc 8233 c || isc 8239 c
  || isc 8287 c || isc 12288 c || isc 65279 c.

(** [\d], [\w], [[A-Za-z0-9_-]], [.] *)
Definition is_digit (c : N) : bool := between 48 57 c.
Definition is_upper (c : N) : bool := between 65 90 c.
Definition is_alpha (c : N) : bool := is_upper c || between 97 122 c.
Definition is_word (c : N) : bool := is_alpha c || is_digit c || isc 95 c.
Definition is_key (c : N) : bool := is_word c || isc 45 c.
Definition is_dot (c : N) : bool :=
  negb (isc 10 c || isc 13 c || isc 8232 c || isc 8233 c).

Definition str_eqb (a b : str) : bool := bool_decide (a = b).

(** [String.prototype.trim] *)
Fixpoint trimStart (s : str) : str :=
  match s with
  | c :: t => if is_ws c then trimStart t else s
  | [] => []
  end.
Definition trimEnd (s : str) : str := rev (trimStart (rev s)).
Definition trim (s : str) : str := trimEnd (trimStart s).

(** [String.prototype.toLowerCase] on Basic Latin: the letters A-Z
    are mapped to a-z; code units outside that range are kept (the
    case mapping of the rest of Unicode is not part of the model). *)
Definition lower (c : N) : N := if is_upper c then c + 32 else c.
Definition toLowerCase (s : str) : str := map lower s.

(** [s.split(d)] for a one-character separator [d] *)
Fixpoint split (d : N) (s : str) : list str :=
  match s with
  | [] => [[]]
  | c :: t =>
      if c =? d then [] :: split d t
      else match split d t with
           | h :: r => (c :: h) :: r
           | [] => [[c]]
           end
  end.

(** [a.join(sep)] *)
Fixpoint join (sep : str) (l : list str) : str :=
  match l with
  | [] => []
  | [a] => a
  | a :: r => a ++ sep ++ join sep r
  end.

Definition includes (d : N) (s : str) : bool := existsb (isc d) s.

Definition startsWith (p s : str) : bool := str_eqb (take (length p) s) p.
Definition endsWith (p s : str) : bool :=
  str_eqb (drop (length s - length p) s) p && (length p <=? length s)%nat.

(** [a < b] on strings: code-unit lexicographic order *)
Fixpoint ltb (a b : str) : bool :=
  match a, b with
  | [], [] => false
  | [], _ :: _ => true
  | _ :: _, [] => false
  | x :: a', y :: b' => (x <? y) || ((x =? y) && ltb a' b')
  end.

(** Decimal rendering of a line number inside a template literal. *)
Fixpoint digits (d : Decimal.uint) : str :=
  match d with
  | Decimal.Nil => []
  | Decimal.D0 r => 48 :: digits r
  | Decimal.D1 r => 49 :: digits r
  | Decimal.D2 r => 50 :: digits r
  | Decimal.D3 r => 51 :: digits r
  | Decimal.D4 r => 52 :: digits r
  | Decimal.D5 r => 53 :: digits r
  | Decimal.D6 r => 54 :: digits r
  | Decimal.D7 r => 55 :: digits r
  | Decimal.D8 r => 56 :: digits r
  | Decimal.D9 r => 57 :: digits r
  end.
Definition ofNat (n : nat) : str := digits (Nat.to_uint n).

End Str.
Import Str.

(** ** Regular expressions *)

Module Regex.

(** A matcher maps the input to every (result, rest of input) it can
    produce, best first: greedy quantifiers list the longest
    repetition first, lazy ones the shortest, an optional part is
    tried before its omission. *)
Definition Re (A : Type) : Type := str -> list (A * str).

#[global] Instance re_ret : MRet Re := fun A a s => [(a, s)].
#[global] Instance re_bind : MBind Re :=
  fun A B f m s => flat_map (fun ar => f (fst ar) (snd ar)) (m s).

(** one character of a class *)
Definition chr (p : N -> bool) : Re N := fun s =>
  match s with
  | c :: t => if p c then [(c, t)] else []
  | [] => []
  end.

(** a literal *)
Fixpoint lit (w : str) : Re unit :=
  match w with
  | [] => mret tt
  | c :: w' => _ ← chr (isc c); lit w'
  end.

(** [p*], greedy; the result is the text consumed *)
Fixpoint star_from (p : N -> bool) (s : str) : list (str * str) :=
  match s with
  | c :: t =>
      if p c
      then map (fun ar => (c :: fst ar, snd ar)) (star_from p t) ++ [([], s)]
      else [([], s)]
  | [] => [([], [])]
  end.
Definition star (p : N -> bool) : Re str := star_from p.

(** [p+], greedy *)
Definition plus (p : N -> bool) : Re str :=
  c ← chr p; a ← star p; mret (c :: a).

(** [p*?], lazy *)
Fixpoint lazy_from (p : N -> bool) (s : str) : list (str * str) :=
  ([], s) ::
  match s with
  | c :: t =>
      if p c then map (fun ar => (c :: fst ar, snd ar)) (lazy_from p t) else []
  | [] => []
  end.
Definition lazy (p : N -> bool) : Re str := lazy_from p.

(** [p{n}] *)
Fixpoint times (n : nat) (p : N -> bool) : Re str :=
  match n with
  | O => mret []
  | S n' => c ← chr p; a ← times n' p; mret (c :: a)
  end.

(** [(m)?]: with the group first, then without *)
Definition opt {A} (m : Re A) : Re (option A) := fun s =>
  map (fun ar => (Some (fst ar), snd ar)) (m s) ++ [(None, s)].

(** [a|b] *)
Definition alt {A} (a b : Re A) : Re A := fun s => a s ++ b s.

(** [$] without the multiline flag *)
Definition eos : Re unit := fun s =>
  match s with
  | [] => [(tt, [])]
  | _ :: _ => []
  end.

(** The match at the current position. *)
Definition exec {A} (m : Re A) (s : str) : option (A * str) := head (m s).

(** An anchored test, [/^.../.test(s)]. *)
Definition test_at {A} (m : Re A) (s : str) : bool :=
  match exec m s with Some _ => true | None => false end.

(** An unanchored test, [/.../.test(s)]: the first position, from the
    left, at which the pattern matches. *)
Fixpoint test {A} (m : Re A) (s : str) : bool :=
  test_at m s ||
  match s with
  | [] => false
  | _ :: t => test m t
  end.

(** The first match of an unanchored pattern:
    (text before, result, text after). *)
Fixpoint search {A} (m : Re A) (s : str) : option (str * A * str) :=
  match exec m s with
  | Some (a, r) => Some ([], a, r)
  | None =>
      match s with
      | [] => None
      | c :: t =>
          match search m t with
          | Some (b, a, r) => Some (c :: b, a, r)
          | None => None
          end
      end
  end.

(** [s.matchAll(/.../g)]: all matches from left to right, each search
    resuming where the previous match ended (one character further
    after an empty match).  [skip] counts the characters still
    covered by the previous match. *)
Fixpoint matchAll {A} (m : Re A) (skip : nat) (s : str) : list A :=
  match s with
  | [] =>
      match exec m [] with
      | Some (a, _) => [a]
      | None => []
      end
  | c :: t =>
      match skip with
      | S n => matchAll m n t
      | O =>
          match exec m s with
          | Some (a, r) => a :: matchAll m (length s - length r - 1) t
          | None => matchAll m 0 t
          end
      end
  end.

(** [s.replace(re, f)] with the [g] flag, where [f] builds the
    replacement from the match result; unmatched characters are
    copied. *)
Fixpoint replaceAll {A} (m : Re A) (f : A -> str) (skip : nat) (s : str) : str :=
  match s with
  | [] =>
      match exec m [] with
      | Some (a, _) => f a
      | None => []
      end
  | c :: t =>
      match skip with
      | S n => replaceAll m f n t
      | O =>
          match exec m s with
          | Some (a, r) =>
              match (length s - length r)%nat with
              | O => f a ++ c :: replaceAll m f 0 t
              | S n => f a ++ replaceAll m f n t
              end
          | None => c :: replaceAll m f 0 t
          end
      end
  end.

(** The longest prefix of [s] in the class [p], and what follows it. *)
Fixpoint run (p : N -> bool) (s : str) : str :=
  match s with
  | c :: t => if p c then c :: run p t else []
  | [] => []
  end.
Fixpoint after (p : N -> bool) (s : str) : str :=
  match s with
  | c :: t => if p c then after p t else s
  | [] => []
  end.

(** The text a matcher consumed, given the input and the rest. *)
Definition consumed (s r : str) : str := take (length s - length r) s.

End Regex.
Import Regex.

(** ** The host: vault files, their metadata and the settings *)

Abbreviation Props := (gmap str str).

Module Host.

(** [item.task] of a list item.  The host supplies the checkbox
    character as a string; the scanner also reads [item.task.checked],
    so an object carrying that flag is the other shape. *)
Inductive TaskFlag :=
| Mark (s : str)
| Flag (checked : bool).

Definition truthy (t : option TaskFlag) : bool :=
  match t with
  | None => false
  | Some (Mark s) => negb (str_eqb s [])
  | Some (Flag _) => true
  end.

Definition flagChecked (t : option TaskFlag) : bool :=
  match t with
  | Some (Flag b) => b
  | _ => false
  end.

(** One entry of [meta.listItems]: [position.start.line],
    [position.end?.line], [task], [id], [attributes]. *)
Record ListItem := {
  startLine : nat;
  endLine : option nat;
  task : option TaskFlag;
  itemId : option str;
  attributes : option (list (str * str))
}.

(** A markdown file with what the vault and the metadata cache return
    for it.  [frontmatter] maps a key to the truthiness of its value;
    [None] stands for a missing cache entry or missing front matter. *)
Record TFile := {
  path : str;
  frontmatter : option (gmap str bool);
  listItems : option (list ListItem);
  content : str
}.

Record PmSettings := {
  statusProperty : str;
  dueProperty : str;
  projectFlagProperty : str
}.

Definition DEFAULT_SETTINGS : PmSettings :=
  {| statusProperty := js "status";
     dueProperty := js "due";
     projectFlagProperty := js "project" |}.

End Host.
Import Host.

(** ** The data model of the cache *)

Inductive Status := NotStarted | InProgress | OnHold | Done.

(** [TaskItem]; the [file] handle is identified by its vault path. *)
Record TaskItem := {
  t_id : str;
  t_file : str;
  t_line : nat;
  t_text : str;
  t_props : Props;
  t_checked : bool;
  t_depends : list str;
  t_status : Status
}.

Record Milestone := {
  ms_id : str;
  ms_title : str;
  ms_date : str;
  ms_desc : str;
  ms_file : str
}.

(** [ProjectEntry]; [percentComplete] is the exact quotient of the two
    counts the source divides. *)
Record ProjectEntry := {
  p_file : str;
  p_tasks : list TaskItem;
  p_percentComplete : Q;
  p_nextDue : option str
}.

(** The insertion-ordered [Map] of the source language. *)
Module JsMap.
Section Ops.
Context {V : Type}.

Fixpoint get (k : str) (m : list (str * V)) : option V :=
  match m with
  | [] => None
  | (k', v) :: r => if str_eqb k' k then Some v else get k r
  end.

Definition has (k : str) (m : list (str * V)) : bool :=
  match get k m with Some _ => true | None => false end.

(** [set] keeps the position of a key that is already present. *)
Fixpoint set (k : str) (v : V) (m : list (str * V)) : list (str * V) :=
  match m with
  | [] => [(k, v)]
  | (k', v') :: r =>
      if str_eqb k' k then (k, v) :: r else (k', v') :: set k v r
  end.
End Ops.
End JsMap.

(** The state of a [ProjectCache]: the vault it reads ([app]), the
    settings of the plugin, and the three public collections. *)
Record ProjectCache := {
  vault : list TFile;
  settings : PmSettings;
  projects : list (str * ProjectEntry);
  tasks : list (str * TaskItem);
  milestones : list Milestone
}.

Definition makeTaskKey (filePath id : str) : str :=
  toLowerCase filePath ++ js "::" ++ toLowerCase id.

(** ** The patterns of the scanner

    Each definition carries the regular expression of the source it
    transcribes. *)

Module Pat.

Definition SP := ch " ".
Definition DASH := ch "-".
Definition LBR := ch "[".
Definition RBR := ch "]".
Definition CARET := ch "^".

Definition oneOf (l : list N) (c : N) : bool := existsb (N.eqb c) l.

(** [/^\s*\|.*-\s*\[[ xX/\-]\]/] (list-item walk) *)
Definition tableTaskItem : Re unit :=
  _ ← star is_ws; _ ← chr (isc PIPE); _ ← star is_dot; _ ← chr (isc DASH);
  _ ← star is_ws; _ ← chr (isc LBR);
  _ ← chr (oneOf [SP; ch "x"; ch "X"; ch "/"; DASH]);
  _ ← chr (isc RBR); mret tt.

(** [/^\s*\|.*-\s*\[[ xX/\\-]\]/] (line walk; the class also holds
    the backslash) *)
Definition tableTaskRow : Re unit :=
  _ ← star is_ws; _ ← chr (isc PIPE); _ ← star is_dot; _ ← chr (isc DASH);
  _ ← star is_ws; _ ← chr (isc LBR);
  _ ← chr (oneOf [SP; ch "x"; ch "X"; ch "/"; 92; DASH]);
  _ ← chr (isc RBR); mret tt.

(** [/([A-Za-z0-9_-]+)::\s*([^|\n]+)/g] *)
Definition notPipeNl (c : N) : bool := negb (isc PIPE c || isc LF c).
Definition inlineProp : Re (str * str) :=
  k ← plus is_key; _ ← lit (js "::"); _ ← star is_ws;
  v ← plus notPipeNl; mret (k, v).

(** [/^[Ee]-\d+$/] and [/^[Ss]-\d+$/] *)
Definition epicRef : Re unit :=
  _ ← chr (oneOf [ch "E"; ch "e"]); _ ← chr (isc DASH);
  _ ← plus is_digit; eos.
Definition storyRef : Re unit :=
  _ ← chr (oneOf [ch "S"; ch "s"]); _ ← chr (isc DASH);
  _ ← plus is_digit; eos.

(** [\d{4}-\d{2}-\d{2}] and the anchored [dateRe] *)
Definition isoDate : Re str :=
  y ← times 4 is_digit; _ ← chr (isc DASH);
  m ← times 2 is_digit; _ ← chr (isc DASH);
  d ← times 2 is_digit; mret (y ++ DASH :: m ++ DASH :: d).
Definition dateRe : Re unit := _ ← isoDate; eos.

(** The five date emoji, as code units: U+1F51C, U+23F3, U+1F4C5,
    U+2705, U+1F6EB. *)
Definition SOON : str := [55357; 56604].
Definition HOURGLASS : str := [9203].
Definition CALENDAR : str := [55357; 56517].
Definition CHECKMARK : str := [9989].
Definition DEPARTURE : str := [55357; 57067].

Definition text (w : str) : Re str := _ ← lit w; mret w.

(** [/([🔜⏳📅✅🛫])\uFE0F?[\u00A0 \t\r\n]*([0-9]{4}-[0-9]{2}-[0-9]{2})/gu].
    Under the [u] flag the class ranges over code points; none of the
    five starts with a trailing surrogate and nothing after the class
    is a surrogate, so matching the surrogate pairs unit by unit
    finds the same matches. *)
Definition isGap (c : N) : bool := oneOf [NBSP; SP; 9; 13; LF] c.
Definition emojiDate : Re (str * str) :=
  icon ← alt (text SOON) (alt (text HOURGLASS) (alt (text CALENDAR)
            (alt (text CHECKMARK) (text DEPARTURE))));
  _ ← opt (chr (isc 65039));
  _ ← star isGap;
  date ← isoDate; mret (icon, date).

(** [/[, ]+/], the separator of [depAttr.split] *)
Definition isDepSep (c : N) : bool := oneOf [ch ","; SP] c.

(** [/^\s*\|?\s*/g] *)
Definition leadingPipe : Re unit :=
  _ ← star is_ws; _ ← opt (chr (isc PIPE)); _ ← star is_ws; mret tt.

(** [/^\s*-\s*\[[\sxX/\-]\]\s*/] *)
Definition glyphOrWs (c : N) : bool :=
  is_ws c || oneOf [ch "x"; ch "X"; ch "/"; DASH] c.
Definition leadingCheckbox : Re unit :=
  _ ← star is_ws; _ ← chr (isc DASH); _ ← star is_ws; _ ← chr (isc LBR);
  _ ← chr glyphOrWs; _ ← chr (isc RBR); _ ← star is_ws; mret tt.

(** [/(\w+)::\s*[^\s]+/g] *)
Definition inlinePropWord : Re unit :=
  _ ← plus is_word; _ ← lit (js "::"); _ ← star is_ws;
  _ ← plus (fun c => negb (is_ws c)); mret tt.

(** [/(\w+)::\s*[^|]+/g] *)
Definition inlinePropCell : Re unit :=
  _ ← plus is_word; _ ← lit (js "::"); _ ← star is_ws;
  _ ← plus (fun c => negb (isc PIPE c)); mret tt.

(** [/\-\s*\[[xX]\]/], [/\-\s*\[\/\]/], [/\-\s*\[\-\]/] *)
Definition glyph (cls : N -> bool) : Re unit :=
  _ ← chr (isc DASH); _ ← star is_ws; _ ← chr (isc LBR);
  _ ← chr cls; _ ← chr (isc RBR); mret tt.
Definition doneGlyph : Re unit := glyph (oneOf [ch "x"; ch "X"]).
Definition progressGlyph : Re unit := glyph (isc (ch "/")).
Definition holdGlyph : Re unit := glyph (isc DASH).

(** [/^\s*\|.*?-\s*\[[\sxX\/\-]\]\s*/] *)
Definition upToCheckbox : Re unit :=
  _ ← star is_ws; _ ← chr (isc PIPE); _ ← lazy is_dot; _ ← chr (isc DASH);
  _ ← star is_ws; _ ← chr (isc LBR); _ ← chr glyphOrWs; _ ← chr (isc RBR);
  _ ← star is_ws; mret tt.

(** [/\|.*/] *)
Definition pipeToEnd : Re unit :=
  _ ← chr (isc PIPE); _ ← star is_dot; mret tt.

(** [/\^([A-Za-z0-9_-]+)\s*$/] *)
Definition caretSuffix : Re str :=
  _ ← chr (isc CARET); i ← plus is_key; _ ← star is_ws; _ ← eos; mret i.

(** [/^\s*\|\s*([A-Za-z0-9_-]+)\s*\|/] *)
Definition idColumn : Re str :=
  _ ← star is_ws; _ ← chr (isc PIPE); _ ← star is_ws; i ← plus is_key;
  _ ← star is_ws; _ ← chr (isc PIPE); mret i.

(** [/^\s*\|/] *)
Definition startsWithPipe : Re unit :=
  _ ← star is_ws; _ ← chr (isc PIPE); mret tt.

(** [/\bW\b/i.test(s)] for a word [W] of Basic Latin letters.  With
    the [i] flag and without [u], a letter of the pattern matches
    exactly its two Basic Latin cases.  [prev] is the character in
    front of the position tried. *)
Definition isWordOpt (o : option N) : bool :=
  match o with Some c => is_word c | None => false end.
Definition wordBoundary (prev : option N) (s : str) : bool :=
  xorb (isWordOpt prev) (isWordOpt (head s)).
Definition litCi (w : str) : Re str :=
  fold_right (fun c m => x ← chr (fun d => lower d =? lower c); r ← m; mret (x :: r))
             (mret []) w.
Fixpoint testWordFrom (w : str) (prev : option N) (s : str) : bool :=
  (wordBoundary prev s &&
   match exec (litCi w) s with
   | Some (m, r) => wordBoundary (match last m with Some y => Some y | None => prev end) r
   | None => false
   end)
  || match s with
     | [] => false
     | c :: t => testWordFrom w (Some c) t
     end.
Definition testWord (w : str) (s : str) : bool := testWordFrom w None s.

(** [/^\s*-\s*\[[ xX]\]/] ([updateTask]) *)
Definition checkboxAtStart : Re unit :=
  _ ← star is_ws; _ ← chr (isc DASH); _ ← star is_ws; _ ← chr (isc LBR);
  _ ← chr (oneOf [SP; ch "x"; ch "X"]); _ ← chr (isc RBR); mret tt.

(** [/\](.*?)(\^\w+)?$/] ([updateTask]); the two groups *)
Definition textAndAnchor : Re (str * option str) :=
  _ ← chr (isc RBR); t ← lazy is_dot;
  a ← opt (_ ← chr (isc CARET); w ← plus is_word; mret (CARET :: w));
  _ ← eos; mret (t, a).

(** [new RegExp(`${k}::\\s*[^\\s]+`)] for a key [k] that holds no
    character with a meaning in pattern syntax *)
Definition attrOf (k : str) : Re unit :=
  _ ← lit k; _ ← lit (js "::"); _ ← star is_ws;
  _ ← plus (fun c => negb (is_ws c)); mret tt.

End Pat.

(** ** The scan of one project note *)

Module Scan.
Import Pat.

(** [fileLines[i] ?? ""] *)
Definition lineAt (fileLines : list str) (i : nat) : str :=
  default [] (fileLines !! i).

(** [s.replace(/\u00A0/g, " ")] *)
Definition replaceNbsp (s : str) : str :=
  replaceAll (chr (isc NBSP)) (fun _ => [SP]) 0 s.

(** [s.replace(/\s+\n/g, "\n")] *)
Definition dropSpaceBeforeNewline (s : str) : str :=
  replaceAll (_ ← plus is_ws; chr (isc LF)) (fun _ => [LF]) 0 s.

(** [fileLines.slice(startIdx, endIdx + 1).join("\n")], normalised *)
Definition rawBlockOf (fileLines : list str) (startIdx endIdx : nat) : str :=
  dropSpaceBeforeNewline
    (replaceNbsp
       (join [LF] (take (endIdx + 1 - startIdx) (drop startIdx fileLines)))).

(** 1) the attributes array of the host *)
Definition attrProps (attrs : option (list (str * str))) (props : Props) : Props :=
  fold_left (fun ps kv => <[toLowerCase (fst kv) := snd kv]> ps)
            (default [] attrs) props.

(** 2) inline [key:: value] annotations of the row *)
Definition inlineProps (rowText : str) (props : Props) : Props :=
  fold_left (fun ps kv => <[toLowerCase (fst kv) := trim (snd kv)]> ps)
            (matchAll inlineProp 0 rowText) props.

(** The cells of a pipe row, without the empty cell of a leading and
    of a trailing pipe. *)
Definition dropLeading (cells : list str) : list str :=
  match cells with
  | c :: r => if str_eqb c [] then r else cells
  | [] => []
  end.
Definition dropTrailing (cells : list str) : list str :=
  match last cells with
  | Some c => if str_eqb c [] then removelast cells else cells
  | None => cells
  end.
Definition tableCells (rowText : str) : list str :=
  dropTrailing
    (dropLeading (map (fun c => trim (replaceNbsp c)) (split PIPE rowText))).

(** [cells.length >= 2 && cells[1] && cells[1].trim().match(re)] *)
Definition secondCellMatches (re : Re unit) (cells : list str) : option str :=
  match cells !! 1%nat with
  | Some c =>
      if (2 <=? length cells)%nat && negb (str_eqb c []) && test_at re (trim c)
      then Some (trim c) else None
  | None => None
  end.

Definition priorityWords : list str :=
  map js ["critical"; "crit"; "c"; "p0"; "highest"; "high"; "h"; "1"; "p1";
          "medium"; "med"; "m"; "2"; "p2"; "low"; "l"; "3"; "p3"]%string.

(** the first cell, from the left, that is a priority word *)
Definition priorityCell (cells : list str) : option str :=
  trim <$> List.find (fun c => existsb (str_eqb (trim (toLowerCase c))) priorityWords)
                     cells.

(** the first cell, from the right and down to index 2, that is
    neither empty nor a date *)
Definition descriptionCell (cells : list str) : option str :=
  List.find (fun cand => negb (str_eqb cand []) && negb (test_at dateRe cand))
            (rev (drop 2 cells)).

Definition setIf (k : str) (v : option str) (props : Props) : Props :=
  match v with
  | Some x => <[k := x]> props
  | None => props
  end.

(** 2b) what the position of the cells says *)
Definition cellProps (rowText : str) (props : Props) : Props :=
  if includes PIPE rowText then
    let cells := tableCells rowText in
    let props := setIf (js "epic") (secondCellMatches epicRef cells) props in
    let props := setIf (js "story") (secondCellMatches storyRef cells) props in
    let props := setIf (js "priority") (priorityCell cells) props in
    setIf (js "description") (descriptionCell cells) props
  else props.

(** 3) the emoji dates of the block *)
Definition emojiKey (icon : str) : option str :=
  if str_eqb icon SOON || str_eqb icon HOURGLASS || str_eqb icon DEPARTURE
  then Some (js "start")
  else if str_eqb icon CALENDAR then Some (js "due")
  else if str_eqb icon CHECKMARK then Some (js "done")
  else None.
Definition setKey (k : option str) (v : str) (props : Props) : Props :=
  match k with
  | Some k' => <[k' := v]> props
  | None => props
  end.
Definition emojiStep (ps : Props) (m : str * str) : Props :=
  setKey (emojiKey (fst m)) (trim (snd m)) ps.
Definition emojiProps (rawBlock : str) (props : Props) : Props :=
  fold_left emojiStep (matchAll emojiDate 0 rawBlock) props.

(** [depAttr.split(/[, ]+/)]: the pieces between the maximal runs of
    separators, empty pieces at the two ends included.  [inSep] says
    that the previous character belonged to a separator. *)
Fixpoint splitDeps (inSep : bool) (cur : str) (s : str) : list str :=
  match s with
  | [] => [rev cur]
  | c :: t =>
      if isDepSep c then
        if inSep then splitDeps true cur t
        else rev cur :: splitDeps true [] t
      else splitDeps false (c :: cur) t
  end.

(** [d.replace(/^\^/, "").trim().toLowerCase()] *)
Definition depId (d : str) : str :=
  toLowerCase
    (trim (match d with c :: t => if isc CARET c then t else d | [] => [] end)).

Definition dependsOf (props : Props) : list str :=
  match props !! js "depends" with
  | Some depAttr =>
      if str_eqb depAttr [] then []
      else filter (fun i => i ≠ []) (map depId (splitDeps false [] depAttr))
  | None => []
  end.

(** The status ladder of both walks. *)
Definition statusOf (line : str) : Status :=
  if test doneGlyph line then Done
  else if test progressGlyph line then InProgress
  else if test holdGlyph line then OnHold
  else NotStarted.

(** [s.replace(re, "")] for a pattern anchored at the start *)
Definition stripAtStart (m : Re unit) (s : str) : str :=
  match exec m s with
  | Some (_, r) => r
  | None => s
  end.

(** [s.replace(re, "")], first match of an unanchored pattern *)
Definition stripFirst (m : Re unit) (s : str) : str :=
  match search m s with
  | Some (b, _, r) => b ++ r
  | None => s
  end.

Definition NO_TEXT : str := js "(no text)".
Definition orNoText (s : str) : str := if str_eqb s [] then NO_TEXT else s.

(** The display text of a list-item block. *)
Definition strippedBlock (rawBlock : str) : str :=
  trim (replaceAll inlinePropWord (fun _ => []) 0
          (stripAtStart leadingCheckbox (stripAtStart leadingPipe rawBlock))).

(** The display text of a table row found by the line walk. *)
Definition strippedRow (line : str) : str :=
  trim (replaceAll inlinePropCell (fun _ => []) 0
          (stripFirst pipeToEnd (stripAtStart upToCheckbox line))).

(** *** The list-item walk: one [meta.listItems] entry *)

Definition itemProps (fileLines : list str) (item : ListItem) : Props :=
  let startIdx := startLine item in
  let endIdx := default startIdx (endLine item) in
  let rawBlock := rawBlockOf fileLines startIdx endIdx in
  let rowText := lineAt fileLines startIdx in
  emojiProps rawBlock
    (cellProps rowText (inlineProps rowText (attrProps (attributes item) ∅))).

Definition itemTask (filePath : str) (fileLines : list str) (item : ListItem)
  : option TaskItem :=
  let firstLineRaw := lineAt fileLines (startLine item) in
  if negb (truthy (task item)) && negb (test_at tableTaskItem firstLineRaw)
  then None
  else
    let startIdx := startLine item in
    let endIdx := default startIdx (endLine item) in
    let rawBlock := rawBlockOf fileLines startIdx endIdx in
    let props := itemProps fileLines item in
    Some {| t_id := default (filePath ++ [DASH] ++ ofNat startIdx) (itemId item);
            t_file := filePath;
            t_line := startIdx;
            t_text := orNoText (strippedBlock rawBlock);
            t_props := props;
            t_checked := flagChecked (task item) || test doneGlyph firstLineRaw;
            t_depends := dependsOf props;
            t_status := statusOf firstLineRaw |}.

(** *** The line walk: a table row the list-item walk did not yield *)

Definition rowProps (line : str) : Props := cellProps line (inlineProps line ∅).

(** A string that [!id] does not reject: defined and not empty. *)
Definition defined (o : option str) : option str :=
  match o with
  | Some i => if str_eqb i [] then None else Some i
  | None => None
  end.

(** Block-id precedence: caret at the end of the row, first column,
    synthetic; lower-cased. *)
Definition rowId (filePath : str) (line : str) (idx : nat) : str :=
  let caretMatch := (fun m => snd (fst m)) <$> search caretSuffix line in
  let idCell := fst <$> exec idColumn line in
  let id :=
    match defined caretMatch with
    | Some i => Some i
    | None => defined idCell
    end in
  toLowerCase (default (filePath ++ js "-row-" ++ ofNat idx) id).

Definition rowTask (filePath : str) (line : str) (idx : nat) : TaskItem :=
  let props := rowProps line in
  {| t_id := rowId filePath line idx;
     t_file := filePath;
     t_line := idx;
     t_text := orNoText (strippedRow line);
     t_props := props;
     t_checked := test doneGlyph line;
     t_depends := dependsOf props;
     t_status := statusOf line |}.

(** *** The milestone tables of a note *)

(** The rows under a header, up to the first line that does not
    start with a pipe. *)
Fixpoint milestoneRows (filePath : str) (rows : list str) : list Milestone :=
  match rows with
  | [] => []
  | row :: rest =>
      if negb (test_at startsWithPipe row) then []
      else
        let cells := map trim (split PIPE row) in
        let cell i := default [] (cells !! i) in
        if (length cells <? 4)%nat then milestoneRows filePath rest
        else if negb (test_at dateRe (cell 3%nat)) then milestoneRows filePath rest
        else {| ms_id := cell 1%nat; ms_title := cell 2%nat; ms_date := cell 3%nat;
                ms_desc := cell 4%nat; ms_file := filePath |}
             :: milestoneRows filePath rest
  end.

Definition isMilestoneHeader (line : str) : bool :=
  test_at startsWithPipe line && testWord (js "Date") line
  && testWord (js "Title") line.

(** [fileLines.forEach((line, idx) => ...)] of the milestone scan;
    [lines] is the part of the note from the current line on. *)
Fixpoint milestonesFrom (filePath : str) (lines : list str) : list Milestone :=
  match lines with
  | [] => []
  | line :: rest =>
      (if isMilestoneHeader line then milestoneRows filePath rest else [])
      ++ milestonesFrom filePath rest
  end.

(** *** The two walks over a note

    The state threaded through a note: the local [tasks] array, the
    cache-wide [this.tasks] map and [this.milestones]. *)
Record Acc := {
  local : list TaskItem;
  index : list (str * TaskItem);
  stones : list Milestone
}.

Definition push (filePath : str) (t : TaskItem) (a : Acc) (ms : list Milestone) : Acc :=
  {| local := local a ++ [t];
     index := JsMap.set (makeTaskKey filePath (t_id t)) t (index a);
     stones := stones a ++ ms |}.

Definition itemStep (filePath : str) (fileLines : list str) (a : Acc) (item : ListItem)
  : Acc :=
  match itemTask filePath fileLines item with
  | Some t => push filePath t a []
  | None => a
  end.

(** One step of the line walk.  The milestone scan sits inside the
    callback of the line walk, behind its two early returns: it runs,
    over the whole note, once for every row that yields a task
    here. *)
Definition rowStep (filePath : str) (fileLines : list str) (a : Acc)
           (il : nat * str) : Acc :=
  let '(idx, line) := il in
  if negb (test_at tableTaskRow line) then a
  else if existsb (fun t => Nat.eqb (t_line t) idx) (local a) then a
  else push filePath (rowTask filePath line idx) a (milestonesFrom filePath fileLines).

(** [done / tasks.length], or 1 for an empty note *)
Definition percentOf (ts : list TaskItem) : Q :=
  match length ts with
  | O => 1%Q
  | S n => Qmake (Z.of_nat (length (filter (fun t => t_checked t = true) ts)))
                 (Pos.of_succ_nat n)
  end.

(** the nearest open due date *)
Definition nextDueOf (dueProp : str) (ts : list TaskItem) : option str :=
  fold_left
    (fun nextDue t =>
       match t_props t !! dueProp with
       | Some due =>
           if negb (str_eqb due []) && negb (t_checked t)
              && match nextDue with
                 | None => true
                 | Some n => str_eqb n [] || ltb due n
                 end
           then Some due else nextDue
       | None => nextDue
       end)
    ts None.

Definition indexed (l : list str) : list (nat * str) := imap (fun i x => (i, x)) l.

(** The body of the loop over the vault for one flagged note. *)
Definition scanFile (f : TFile) (c : ProjectCache) : ProjectCache :=
  let fileLines := split LF (content f) in
  let a0 := {| local := []; index := tasks c; stones := milestones c |} in
  let a1 := fold_left (itemStep (path f) fileLines) (default [] (listItems f)) a0 in
  let a2 := fold_left (rowStep (path f) fileLines) (indexed fileLines) a1 in
  {| vault := vault c;
     settings := settings c;
     projects :=
       JsMap.set (path f)
         {| p_file := path f;
            p_tasks := local a2;
            p_percentComplete := percentOf (local a2);
            p_nextDue := nextDueOf (dueProperty (settings c)) (local a2) |}
         (projects c);
     tasks := index a2;
     milestones := stones a2 |}.

End Scan.
Import Scan.

(** ** The cache operations *)

(** [!meta?.frontmatter || !meta.frontmatter[flag]], negated *)
Definition isProject (st : PmSettings) (f : TFile) : bool :=
  let flag :=
    if str_eqb (projectFlagProperty st) [] then js "project"
    else projectFlagProperty st in
  match frontmatter f with
  | Some fm => default false (fm !! flag)
  | None => false
  end.

(** [reindex()]: the three collections are emptied and rebuilt from the
    vault.  The closing [notify()] calls the listeners, which hold no
    part of this state. *)
Definition reindex (c : ProjectCache) : ProjectCache :=
  fold_left
    (fun acc f => if isProject (settings c) f then scanFile f acc else acc)
    (vault c)
    {| vault := vault c; settings := settings c;
       projects := []; tasks := []; milestones := [] |}.

(** [getTask(taskId)] *)
Definition getTask (c : ProjectCache) (taskId : str) : option TaskItem :=
  if JsMap.has taskId (tasks c) then JsMap.get taskId (tasks c)
  else
    snd <$> List.find (fun kt => endsWith (js "::" ++ toLowerCase taskId) (fst kt))
                      (tasks c).

(** *** [updateTask] *)

Module Update.
Import Pat.

(** The [changes] argument: [checked] when it is a boolean, [text]
    when it is defined, and the remaining own keys in the order of
    [Object.keys], each with its value ([None] for [undefined]). *)
Record Changes := {
  ch_checked : option bool;
  ch_text : option str;
  ch_props : list (str * option str)
}.

(** The result of the asynchronous call. *)
Inductive Outcome :=
| Resolved (c : ProjectCache)
    (** the call returns; the state it leaves *)
| Rejected (c : ProjectCache)
    (** the read fails or a [TypeError] is raised; nothing was written *)
| Unmodelled.
    (** a property key holds pattern syntax, which [new RegExp] would
        interpret *)

(** Substitution of [$]-patterns in the replacement string of
    [String.prototype.replace] ([GetSubstitution]); the patterns used
    here have no named groups. *)
Definition digit (c : N) : nat := N.to_nat (c - 48).
Definition capture (caps : list (option str)) (i : nat) : option str :=
  match i with
  | O => None
  | S j => default [] <$> (caps !! j)
  end.
Fixpoint expand (caps : list (option str)) (matched before after : str)
         (tmpl : str) : str :=
  match tmpl with
  | [] => []
  | c :: t =>
      if negb (isc (ch "$") c) then c :: expand caps matched before after t
      else
        match t with
        | [] => [c]
        | d :: t1 =>
            if isc (ch "$") d then d :: expand caps matched before after t1
            else if isc (ch "&") d then matched ++ expand caps matched before after t1
            else if isc (ch "`") d then before ++ expand caps matched before after t1
            else if isc (ch "'") d then after ++ expand caps matched before after t1
            else if is_digit d then
              match t1 with
              | e :: t2 =>
                  if is_digit e && (10 * digit d + digit e <=? length caps)%nat
                  then
                    match capture caps (10 * digit d + digit e) with
                    | Some x => x ++ expand caps matched before after t2
                    | None => c :: d :: e :: expand caps matched before after t2
                    end
                  else
                    match capture caps (digit d) with
                    | Some x => x ++ expand caps matched before after t1
                    | None => c :: d :: expand caps matched before after t1
                    end
              | [] =>
                  match capture caps (digit d) with
                  | Some x => x
                  | None => [c; d]
                  end
              end
            else c :: expand caps matched before after t
        end
  end.

(** [s.replace(re, tmpl)] for a pattern without the [g] flag *)
Definition replaceFirst {A} (m : Re A) (caps : A -> list (option str))
           (tmpl : str) (s : str) : str :=
  match search m s with
  | Some (b, a, r) =>
      let matched := take (length s - length b - length r) (drop (length b) s) in
      b ++ expand (caps a) matched b r tmpl ++ r
  | None => s
  end.

(** An array of the source language: a slot is a string or
    [undefined] (a hole reads the same). *)
Definition arraySet (i : nat) (v : option str) (l : list (option str))
  : list (option str) :=
  if (i <? length l)%nat then <[i := v]> l
  else l ++ replicate (i - length l) None ++ [v].

Definition joinLines (l : list (option str)) : str :=
  join [LF] (map (default []) l).

Definition readFile (c : ProjectCache) (p : str) : option str :=
  content <$> List.find (fun f => str_eqb (path f) p) (vault c).

(** [vault.modify(file, text)] rewrites the file that was read; the
    metadata cache of the host is refreshed later, so the scan that
    follows sees the list items as they were. *)
Fixpoint writeFile (p : str) (txt : str) (fs : list TFile) : list TFile :=
  match fs with
  | [] => []
  | f :: r =>
      if str_eqb (path f) p
      then {| path := path f; frontmatter := frontmatter f;
              listItems := listItems f; content := txt |} :: r
      else f :: writeFile p txt r
  end.
Definition modifyFile (c : ProjectCache) (p : str) (txt : str) : ProjectCache :=
  {| vault := writeFile p txt (vault c);
     settings := settings c;
     projects := projects c;
     tasks := tasks c;
     milestones := milestones c |}.

(** [s.replace(re, tmpl)] for a pattern anchored at the start *)
Definition replaceAtStart {A} (m : Re A) (caps : A -> list (option str))
           (tmpl : str) (s : str) : str :=
  match exec m s with
  | Some (a, r) => expand (caps a) (consumed s r) [] r tmpl ++ r
  | None => s
  end.

(** Checkbox state: [line.replace(/^\s*-\s*\[[ xX]\]/, `- [${...}]`)] *)
Definition swapCheckbox (b : bool) (line : str) : str :=
  replaceAtStart checkboxAtStart (fun _ => [])
                 (js "- [" ++ [if b then ch "x" else SP] ++ js "]") line.

(** Raw text:
    [line.replace(/\](.*?)(\^\w+)?$/, `] ${changes.text} ${task.id}`)] *)
Definition replaceText (newText id : str) (line : str) : str :=
  replaceFirst textAndAnchor (fun g => [Some (fst g); snd g])
               (js "] " ++ newText ++ [SP] ++ id) line.

(** The characters with a meaning in pattern syntax. *)
Definition isSyntax (c : N) : bool := oneOf (js "\^$.*+?()[]{}|") c.
Definition plainKey (k : str) : bool := forallb (fun c => negb (isSyntax c)) k.

(** One changed key on the attribute line: replace the first
    [key:: value] or append one. *)
Definition setAttr (attrLine : str) (kv : str * option str) : str :=
  match snd kv with
  | None => attrLine
  | Some val =>
      if test (attrOf (fst kv)) attrLine
      then replaceFirst (attrOf (fst kv)) (fun _ => [])
                        (fst kv ++ js ":: " ++ val) attrLine
      else attrLine ++ js "  " ++ fst kv ++ js ":: " ++ val
  end.

(** Inline props: the line after the primary line is taken as the
    attribute line. *)
Definition writeAttrs (taskLine : nat) (propKeys : list (str * option str))
           (lines : list (option str)) : list (option str) :=
  match propKeys with
  | [] => lines
  | _ :: _ =>
      let nextLineIdx := (taskLine + 1)%nat in
      let attrLine := default [] (mjoin (lines !! nextLineIdx)) in
      arraySet nextLineIdx (Some (fold_left setAttr propKeys attrLine)) lines
  end.

(** [updateTask(taskId, changes)].  The assignments to the fields of
    the in-memory task are followed by [reindex()], which replaces
    every task object of the cache, and no exception is raised after
    the first of them; they leave no trace in the resulting state. *)
Definition updateTask (c : ProjectCache) (taskId : str) (changes : Changes)
  : Outcome :=
  match JsMap.get taskId (tasks c) with
  | None => Resolved c
  | Some task =>
      match readFile c (t_file task) with
      | None => Rejected c
      | Some fileText =>
          let lines := map Some (split LF fileText) in
          let line := mjoin (lines !! t_line task) in
          let afterChecked :=
            match ch_checked changes with
            | Some b => option_map Some (swapCheckbox b <$> line)
            | None => Some line
            end in
          let afterText :=
            match afterChecked, ch_text changes with
            | Some l, Some txt => option_map Some (replaceText txt (t_id task) <$> l)
            | r, _ => r
            end in
          match afterText with
          | None => Rejected c
          | Some line' =>
              if forallb (fun kv => match snd kv with
                                    | Some _ => plainKey (fst kv)
                                    | None => true
                                    end) (ch_props changes)
              then
                let lines := writeAttrs (t_line task) (ch_props changes) lines in
                let lines := arraySet (t_line task) line' lines in
                Resolved (reindex (modifyFile c (t_file task) (joinLines lines)))
              else Unmodelled
          end
      end
  end.

(** [moveTaskToStatus(taskId, status)]: the object literal has the
    one computed key [settings.statusProperty], with a string value. *)
Definition moveTaskToStatus (c : ProjectCache) (taskId status : str) : Outcome :=
  let k := statusProperty (settings c) in
  updateTask c taskId
    {| ch_checked := None;
       ch_text := if str_eqb k (js "text") then Some status else None;
       ch_props := if str_eqb k (js "text") || str_eqb k (js "checked") then []
                   else [(k, Some status)] |}.

End Update.
Import Update.

(** ** Checkbox lines *)

(** A line with the checkbox [- [g]] between [pre] and [post]. *)
Definition boxed (pre : str) (g : N) (post : str) : str :=
  pre ++ Pat.DASH :: Pat.SP :: Pat.LBR :: g :: Pat.RBR :: post.

(** The status and the checked flag that the documentation of
    [TaskItem.status] gives for the glyph of a checkbox: done for [x]
    and [X], in-progress for [/], on-hold for [-], else not-started;
    checked for [x] and [X] only. *)
Definition glyphState (g : N) : Status * bool :=
  if Pat.oneOf [ch "x"; ch "X"] g then (Done, true)
  else if isc (ch "/") g then (InProgress, false)
  else if isc Pat.DASH g then (OnHold, false)
  else (NotStarted, false).

(** A matcher stops at [x] when it never reads past an [x] of the
    input; it stops at [x] after its first character when this holds
    for every [x] but one at the very start. *)
Definition stops {A} (x : N) (m : Re A) : Prop :=
  forall s t a r, In (a, r) (m (s ++ x :: t)) -> exists r', r = r' ++ x :: t.
Definition stopsAfterFirst {A} (x : N) (m : Re A) : Prop :=
  forall c s t a r, In (a, r) (m (c :: s ++ x :: t)) -> exists r', r = r' ++ x :: t.

(** The first unit of the surrogate pairs of the date emoji, and the
    second unit of the calendar. *)
Definition HIGH : N := 55357.
Definition CALENDAR_LOW : N := 56517.

(** The shape of a string that [dateRe] accepts. *)
Definition dated (y1 y2 y3 y4 m1 m2 d1 d2 : N) : str :=
  [y1; y2; y3; y4; Pat.DASH; m1; m2; Pat.DASH; d1; d2].

(** A bracketed character of the class at the start of [s]. *)
Definition boxAt (cls : N -> bool) (s : str) : bool :=
  match s with
  | a :: r =>
      isc Pat.LBR a &&
      match r with
      | b :: r' =>
          cls b && match r' with
                   | c :: _ => isc Pat.RBR c
                   | [] => false
                   end
      | [] => false
      end
  | [] => false
  end.

(** ** Sample notes *)

Module Sample.
#[local] Open Scope string_scope.

Definition note (p : string) (items : option (list ListItem)) (lines : list string)
  : TFile :=
  {| path := js p;
     frontmatter := Some {[ js "project" := true ]};
     listItems := items;
     content := join [LF] (map js lines) |}.

Definition cacheOf (fs : list TFile) : ProjectCache :=
  {| vault := fs; settings := DEFAULT_SETTINGS;
     projects := []; tasks := []; milestones := [] |}.

(** a list item as the host reports it for a checklist block *)
Definition listItem (first last : nat) (i : option str) : ListItem :=
  {| startLine := first; endLine := Some last; task := Some (Mark (js " "));
     itemId := i; attributes := None |}.

(** a milestone table and nothing else *)
Definition milestonesOnly : TFile :=
  note "Plan.md" None
    ["| ID | Title | Date | Notes |";
     "| --- | --- | --- | --- |";
     "| M-1 | Launch | 2025-06-01 | go live |"].

(** the same table followed by two story rows *)
Definition milestonesAndRows : TFile :=
  note "Plan.md" None
    ["| ID | Title | Date | Notes |";
     "| --- | --- | --- | --- |";
     "| M-1 | Launch | 2025-06-01 | go live |";
     "";
     "| S-1 | E-1 | - [ ] Design |";
     "| S-2 | E-1 | - [x] Build |"].

Definition launch : Milestone :=
  {| ms_id := js "M-1"; ms_title := js "Launch"; ms_date := js "2025-06-01";
     ms_desc := js "go live"; ms_file := js "Plan.md" |}.

(** the checklist block of the creation dialog, in a note at path
    [p], reported by the host as one unchecked list item over lines 0
    to 2 with the attributes [attrs] and the id [i] *)
Definition buildApiAt (p : str) (attrs : option (list (str * str))) (i : option str)
  : TFile :=
  {| path := p;
     frontmatter := Some {[ js "project" := true ]};
     listItems :=
       Some [{| startLine := 0; endLine := Some 2%nat; task := Some (Mark (js " "));
                itemId := i; attributes := attrs |}];
     content := join [LF] (map js ["- [ ] E-1 Build API"; "  due:: 2025-08-01";
                                   "  assignee:: Ann"]) |}.
Definition buildApi (i : option str) : TFile := buildApiAt (js "Roadmap.md") None i.

(** two story rows, not reported as list items by the host *)
Definition twoRows : TFile :=
  note "Plan.md" None
    ["| S-1 | E-1 | - [ ] Design |";
     "| S-2 | E-1 | - [ ] Build |"].

Definition setDue (d : string) : Changes :=
  {| ch_checked := None; ch_text := None; ch_props := [(js "due", Some (js d))] |}.

Definition setChecked (b : bool) : Changes :=
  {| ch_checked := Some b; ch_text := None; ch_props := [] |}.

(** a project note of one line, with the list items the host reports
    for it *)
Definition oneLine (items : option (list ListItem)) (line : str) : TFile :=
  {| path := js "Plan.md";
     frontmatter := Some {[ js "project" := true ]};
     listItems := items;
     content := line |}.

(** the entry of the host for a table row at line 0: a list item
    without a task mark and without an id *)
Definition rowItem : ListItem :=
  {| startLine := 0; endLine := Some 0%nat; task := None;
     itemId := None; attributes := None |}.

(** a story row with the annotation [due:: 2025-01-01] and the
    calendar emoji in front of [2025-02-02], in two cells and in one *)
Definition dueTwice : str :=
  (js "| S-1 | E-1 | - [ ] Design | due:: 2025-01-01 | " ++ Pat.CALENDAR
   ++ js " 2025-02-02 |")%list.
Definition dueTwiceOneCell : str :=
  (js "| S-1 | E-1 | - [ ] Design due:: 2025-01-01 " ++ Pat.CALENDAR
   ++ js " 2025-02-02 |")%list.

(** a row with the blank glyph in its checkbox and [-[X]] in its text *)
Definition blankWithRef : str := js "| S-2 | - [ ] Update ref-[X] docs |".

(** a checklist line with an asterisk as its bullet and the glyph [g]
    in its checkbox, and the entry of the host for it: a task whose
    mark is the glyph *)
Definition starLine (g : N) : str := (js "* [" ++ [g] ++ js "] Write docs")%list.
Definition starItem (g : N) : ListItem :=
  {| startLine := 0; endLine := Some 0%nat; task := Some (Mark [g]);
     itemId := None; attributes := None |}.

End Sample.

(** ** The scan in closed form

    The two walks of [scanFile] as lists: what the loops push, in the
    order in which they push it.  [scanFile_closed] below proves that
    the state the loops leave is the one these lists describe. *)

(** The tasks the list-item walk yields, in the order of the items. *)
Definition itemTasks (filePath : str) (fileLines : list str) (items : list ListItem)
  : list TaskItem :=
  omap (itemTask filePath fileLines) items.

(** A line that the line walk turns into a task: a table-task row at an
    index where none of the tasks [seen] sits. *)
Definition openRow (seen : list TaskItem) (il : nat * str) : bool :=
  test_at Pat.tableTaskRow (snd il)
  && negb (existsb (fun t => Nat.eqb (t_line t) (fst il)) seen).

Definition rowTasks (filePath : str) (fileLines : list str) (seen : list TaskItem)
  : list TaskItem :=
  map (fun il => rowTask filePath (snd il) (fst il))
      (List.filter (openRow seen) (indexed fileLines)).

(** The entries [tasks.set] adds for the tasks of a note, in order. *)
Definition setAll (filePath : str) (ts : list TaskItem) (m : list (str * TaskItem))
  : list (str * TaskItem) :=
  fold_left (fun m t => JsMap.set (makeTaskKey filePath (t_id t)) t m) ts m.

(** The tasks of a note: those of the list-item walk, then those of
    the line walk. *)
Definition noteTasks (f : TFile) : list TaskItem :=
  let fileLines := split LF (content f) in
  let fromItems := itemTasks (path f) fileLines (default [] (listItems f)) in
  fromItems ++ rowTasks (path f) fileLines fromItems.

(** [getProject(filePath)], [getProjectTasks(projectPath)] and
    [getProjectFiles()]; a project file is named by its path. *)
Definition getProject (c : ProjectCache) (filePath : str) : option ProjectEntry :=
  JsMap.get filePath (projects c).

Definition getProjectTasks (c : ProjectCache) (projectPath : str) : list TaskItem :=
  match JsMap.get projectPath (projects c) with
  | Some project => p_tasks project
  | None => []
  end.

Definition getProjectFiles (c : ProjectCache) : list str :=
  map (fun pe => p_file (snd pe)) (projects c).

(** The notes of the vault that a scan takes as projects. *)
Definition flagged (c : ProjectCache) : list TFile :=
  List.filter (isProject (settings c)) (vault c).

(** The entry a scan stores for a flagged note. *)
Definition entryOf (st : PmSettings) (f : TFile) : ProjectEntry :=
  {| p_file := path f;
     p_tasks := noteTasks f;
     p_percentComplete := percentOf (noteTasks f);
     p_nextDue := nextDueOf (dueProperty st) (noteTasks f) |}.

(** The milestones a scan adds for a note: the milestone scan of the
    note, once for every task of the line walk. *)
Definition noteMilestones (f : TFile) : list Milestone :=
  let fileLines := split LF (content f) in
  let fromItems := itemTasks (path f) fileLines (default [] (listItems f)) in
  concat (replicate (length (rowTasks (path f) fileLines fromItems))
                    (milestonesFrom (path f) fileLines)).

(** The [this.tasks.set] calls of a scan of the vault, in the order in
    which they happen: note by note, the list-item walk before the
    line walk. *)
Definition keyed (f : TFile) : list (str * TaskItem) :=
  map (fun t => (makeTaskKey (path f) (t_id t), t)) (noteTasks f).
Definition scanOrder (c : ProjectCache) : list (str * TaskItem) :=
  concat (map keyed (flagged c)).

Definition setEach (kvs : list (str * TaskItem)) (m : list (str * TaskItem))
  : list (str * TaskItem) :=
  fold_left (fun m kt => JsMap.set (fst kt) (snd kt) m) kvs m.

(** The invariant of the loop that computes [nextDue], after the
    tasks [ts]: [r] is the least due date among the unchecked tasks
    that have one. *)
Definition earliest (dueProp : str) (ts : list TaskItem) (r : option str) : Prop :=
  match r with
  | None =>
      forall t due, In t ts -> t_props t !! dueProp = Some due ->
                    due = [] \/ t_checked t = true
  | Some n =>
      n <> []
      /\ (exists t, In t ts /\ t_props t !! dueProp = Some n /\ t_checked t = false)
      /\ forall t due, In t ts -> t_props t !! dueProp = Some due ->
                       due <> [] -> t_checked t = false -> ltb due n = false
  end.

(** ** The timeline view: [getTaskPriority]

    [[...].includes(priority)] for an array of Basic Latin words,
    and the ladder of the four classes.  The words hold no letter
    that is the lower case of a character outside Basic Latin, so the
    Basic Latin [toLowerCase] decides membership as the full one
    does. *)
Definition inWords (ws : list string) (w : str) : bool :=
  existsb (str_eqb w) (map js ws).

Definition getTaskPriority (task : TaskItem) : str :=
  match t_props task !! js "priority" with
  | None => []
  | Some p =>
      let priority := toLowerCase (trim (replaceNbsp p)) in
      if str_eqb priority [] then []
      else if inWords ["critical"; "crit"; "c"; "p0"; "highest"]%string priority
      then js "critical"
      else if inWords ["high"; "h"; "1"; "p1"]%string priority then js "high"
      else if inWords ["medium"; "med"; "m"; "2"; "p2"]%string priority then js "medium"
      else if inWords ["low"; "l"; "3"; "p3"]%string priority then js "low"
      else []
  end.

(** ** The creation dialog ([newActionItem.ts]) *)

Module NewItem.
Import Pat Scan.

Inductive ItemType := Epic | Story | Subtask.

(** The fields of [ActionItemData] that the functions below read;
    an optional field is [None] when it is [undefined]. *)
Record ActionItemData := {
  d_title : str;
  d_startDate : str;
  d_dueDate : str;
  d_description : str;
  d_assignee : str;
  d_priority : str;
  d_parentEpic : option str;
  d_parentStory : option str;
  d_dependency : option str;
  d_dependencyType : option str
}.

(** *** [generateTaskId] *)

Definition prefixOf (ty : ItemType) : str :=
  match ty with
  | Epic => js "E"
  | Story => js "S"
  | Subtask => js "SB"
  end.

(** [new RegExp(`^${prefix.toLowerCase()}-(\\d+)`, 'i')]; the group *)
Definition numbered (prefix : str) : Re str :=
  _ ← litCi (toLowerCase prefix); _ ← chr (isc DASH); plus is_digit.

(** [parseInt] of a run of decimal digits.  Up to
    [Number.MAX_SAFE_INTEGER] the value is exact, and so is [num + 1];
    beyond it [parseInt] rounds, which is outside this model
    ([None]). *)
Definition MAX_SAFE_INTEGER : N := 9007199254740991.
Definition digitsValue (ds : str) : N :=
  fold_left (fun n c => 10 * n + (c - 48)) ds 0.
Definition parseInt (ds : str) : option N :=
  if digitsValue ds <=? MAX_SAFE_INTEGER then Some (digitsValue ds) else None.

(** The body of [existingTasks.forEach]; [next] is [nextNumber]. *)
Definition idStep (prefix : str) (next : option N) (task : TaskItem) : option N :=
  match next with
  | None => None
  | Some nextNumber =>
      let taskId := toLowerCase (t_id task) in
      if startsWith (toLowerCase prefix) taskId then
        match exec (numbered prefix) taskId with
        | Some (ds, _) =>
            match parseInt ds with
            | Some num => Some (if nextNumber <=? num then num + 1 else nextNumber)
            | None => None
            end
        | None => Some nextNumber
        end
      else Some nextNumber
  end.

(** Decimal rendering of a number inside a template literal. *)
Definition ofN (n : N) : str := digits (N.to_uint n).

Definition generateTaskId (c : ProjectCache) (projectPath : str) (ty : ItemType)
  : option str :=
  match fold_left (idStep (prefixOf ty)) (getProjectTasks c projectPath) (Some 1) with
  | Some nextNumber => Some (prefixOf ty ++ [DASH] ++ ofN nextNumber)
  | None => None
  end.

(** *** [createTaskLine] and [createTableRow] *)

(** [s && s.trim()] as a condition *)
Definition filled (s : str) : bool :=
  negb (str_eqb s []) && negb (str_eqb (trim s) []).

(** The [depends::] annotation, when a dependency is given. *)
Definition dependencyText (d : ActionItemData) : option str :=
  match d_dependency d with
  | Some dep =>
      if filled dep then
        Some (match d_dependencyType d with
              | Some ty =>
                  if negb (str_eqb ty [])
                  then js "depends:: " ++ ty ++ js ":" ++ trim dep
                  else js "depends:: " ++ trim dep
              | None => js "depends:: " ++ trim dep
              end)
      else None
  | None => None
  end.

Definition createTaskLine (d : ActionItemData) (taskId : str) : str :=
  join [LF]
    ([js "- [ ] " ++ taskId ++ [SP] ++ d_title d]
     ++ (if filled (d_startDate d) then [js "  start:: " ++ d_startDate d] else [])
     ++ (if filled (d_dueDate d) then [js "  due:: " ++ d_dueDate d] else [])
     ++ [js "  assignee:: " ++ d_assignee d]
     ++ (if filled (d_priority d) then [js "  priority:: " ++ d_priority d] else [])
     ++ (match dependencyText d with
         | Some t => [js "  " ++ t]
         | None => []
         end)).

(** [/- \[ \] ([A-Z]+-\d+)/]; the group *)
Definition idInTaskLine : Re str :=
  _ ← lit (js "- [ ] "); p ← plus is_upper; _ ← chr (isc DASH);
  n ← plus is_digit; mret (p ++ DASH :: n).

(** [o || dflt] *)
Definition orElse (o : option str) (dflt : str) : str :=
  match o with
  | Some s => if str_eqb s [] then dflt else s
  | None => dflt
  end.

(** [`| ${c1} | ${c2} | ... |`] *)
Definition pipeRow (cells : list str) : str :=
  js "| " ++ join (js " | ") cells ++ js " |".

Definition createTableRow (d : ActionItemData) (taskLine : str) (ty : ItemType) : str :=
  let taskId :=
    match search idInTaskLine taskLine with
    | Some (_, i, _) => i
    | None => []
    end in
  let title := js "- [ ] " ++ d_title d in
  let assignee := js "assignee:: " ++ d_assignee d in
  let startDate :=
    if filled (d_startDate d) then js "start:: " ++ d_startDate d else [] in
  let dueDate := if filled (d_dueDate d) then js "due:: " ++ d_dueDate d else [] in
  let description := d_description d in
  let priority := if filled (d_priority d) then d_priority d else [] in
  let dependency := default [] (dependencyText d) in
  match ty with
  | Epic =>
      pipeRow [taskId; title; assignee; priority; startDate; dueDate; description]
  | Story =>
      pipeRow [taskId; orElse (d_parentEpic d) (js "E-1"); title; dependency;
               assignee; priority; js "1"; startDate; dueDate; description]
  | Subtask =>
      pipeRow [taskId; orElse (d_parentStory d) (js "S-1"); title; dependency;
               assignee; priority; startDate; dueDate; description]
  end.

(** *** [insertTaskIntoTable] *)

(** [hay.includes(needle)] *)
Fixpoint includesStr (needle hay : str) : bool :=
  startsWith needle hay
  || match hay with
     | [] => false
     | _ :: t => includesStr needle t
     end.

(** The headings of the three tables; the emoji are U+1F5C2 U+FE0F,
    U+1F4C4 and U+1F527. *)
Definition heading (ty : ItemType) : str :=
  match ty with
  | Epic => js "## " ++ [55357; 56770; 65039] ++ js " Epics"
  | Story => js "### " ++ [55357; 56516] ++ js " Stories"
  | Subtask => js "#### " ++ [55357; 56615] ++ js " Sub-tasks"
  end.

(** [for (let i = from; ...) if (P(lines[i])) { ...; break }]: the
    first index at which [P] holds, [lines] being the array from
    index [from] on. *)
Fixpoint firstIndex (P : str -> bool) (from : nat) (lines : list str) : option nat :=
  match lines with
  | [] => None
  | l :: r => if P l then Some from else firstIndex P (S from) r
  end.

Definition isSection (l : str) : bool :=
  startsWith (js "## ") l || startsWith (js "### ") l || startsWith (js "#### ") l.

Definition isTableRow (l : str) : bool :=
  includes PIPE l && negb (includesStr (js "---") l).

(** [a.splice(start, 0, x)]: a negative [start] counts from the end,
    and the position is clamped to the array. *)
Definition spliceIn (start : Z) (x : str) (a : list str) : list str :=
  let len := Z.of_nat (length a) in
  let i := Z.to_nat (if (start <? 0)%Z then Z.max (len + start) 0
                     else Z.min start len) in
  take i a ++ x :: drop i a.

(** The loop that looks for the last row of the table: [rows] are the
    lines from [tableStart] to [tableEnd - 1] with their indices. *)
Definition lastRow (rows : list (nat * str)) (insertIndex : nat) : nat :=
  fold_left (fun ins il => if isTableRow (snd il) then S (fst il) else ins)
            rows insertIndex.

Definition insertTaskIntoTable (d : ActionItemData) (lines : list str)
           (taskLine : str) (ty : ItemType) : list str :=
  match firstIndex (includesStr (heading ty)) 0 lines with
  | None =>
      let tableStart :=
        match firstIndex (startsWith (js "---")) 0 lines with
        | Some i => (Z.of_nat i + 1)%Z
        | None => (-1)%Z
        end in
      spliceIn tableStart taskLine lines
  | Some tableStart =>
      let tableEnd :=
        default (length lines)
                (firstIndex isSection (tableStart + 1) (drop (tableStart + 1) lines)) in
      let insertIndex :=
        lastRow (take (tableEnd - tableStart) (drop tableStart (indexed lines)))
                tableEnd in
      spliceIn (Z.of_nat insertIndex) (createTableRow d taskLine ty) lines
  end.

End NewItem.

(** * Properties *)

(** ** The rebuild *)

Section Rebuild.

Lemma scanFile_vault f c : vault (scanFile f c) = vault c.
Proof. reflexivity. Qed.

Lemma scanFile_settings f c : settings (scanFile f c) = settings c.
Proof. reflexivity. Qed.

(** The loop over the vault leaves the vault and the settings alone. *)
Lemma scan_loop_frame st fs c :
  let c' := fold_left (fun acc f => if isProject st f then scanFile f acc else acc) fs c in
  vault c' = vault c /\ settings c' = settings c.
Proof.
  revert c. induction fs as [|f fs IH]; intros c; simpl; [done|].
  destruct (IH (if isProject st f then scanFile f c else c)) as [Hv Hs].
  rewrite Hv, Hs. by destruct (isProject st f).
Qed.

Lemma reindex_vault c : vault (reindex c) = vault c.
Proof. unfold reindex. by destruct (scan_loop_frame (settings c) (vault c)
  {| vault := vault c; settings := settings c;
     projects := []; tasks := []; milestones := [] |}). Qed.

Lemma reindex_settings c : settings (reindex c) = settings c.
Proof. unfold reindex. by destruct (scan_loop_frame (settings c) (vault c)
  {| vault := vault c; settings := settings c;
     projects := []; tasks := []; milestones := [] |}). Qed.

(** What a scan builds depends on the vault and the settings only,
    not on what the three collections held before. *)
Lemma reindex_from_vault c c' :
  vault c = vault c' -> settings c = settings c' -> reindex c = reindex c'.
Proof. unfold reindex. by intros -> ->. Qed.

End Rebuild.

(** C8. Two scans in a row over an unchanged vault build the same
    projects, tasks and milestones, entry for entry and in the same
    order: the second scan empties the three collections and rebuilds
    them from the same notes. *)
Theorem reindex_idempotent (c : ProjectCache) :
  projects (reindex (reindex c)) = projects (reindex c)
  /\ tasks (reindex (reindex c)) = tasks (reindex c)
  /\ milestones (reindex (reindex c)) = milestones (reindex c).
Proof.
  rewrite (reindex_from_vault (reindex c) c);
    auto using reindex_vault, reindex_settings.
Qed.

(** ** Updates of an id that is not a key of the index *)

(** C9. When [taskId] is not a key of the task index, [updateTask]
    returns without raising and leaves the whole state (the notes of
    the vault and the three collections) as it was, whatever the
    changes are. *)
Theorem updateTask_unknown_id (c : ProjectCache) (taskId : str) (changes : Changes) :
  JsMap.get taskId (tasks c) = None ->
  updateTask c taskId changes = Resolved c.
Proof. intros H. unfold updateTask. by rewrite H. Qed.

(** The bare id [s-1] is found by the suffix search of [getTask] but is
    not a key: the update is dropped. *)
Lemma updateTask_unknown_id_witness :
  let c := reindex (Sample.cacheOf [Sample.twoRows]) in
  (exists t, getTask c (js "s-1") = Some t)
  /\ JsMap.get (js "s-1") (tasks c) = None
  /\ updateTask c (js "s-1") (Sample.setDue "2025-03-03") = Resolved c.
Proof.
  split; [eexists; vm_compute; reflexivity|].
  split; [vm_compute; reflexivity|].
  apply (updateTask_unknown_id _ (js "s-1")). vm_compute. reflexivity.
Defined.

(** ** Milestones *)

(** Without a row that yields a task in the line walk, the walk adds no
    milestone: the milestone scan is only reached behind the two early
    returns of that walk. *)
Lemma rowStep_skipped filePath fileLines a idx line :
  test_at Pat.tableTaskRow line = false ->
  rowStep filePath fileLines a (idx, line) = a.
Proof. intros H. unfold rowStep. by rewrite H. Qed.

Lemma line_walk_without_rows filePath fileLines rows a :
  Forall (fun il => test_at Pat.tableTaskRow (snd il) = false) rows ->
  fold_left (rowStep filePath fileLines) rows a = a.
Proof.
  induction 1 as [|[i l] rows H _ IH]; cbn [fold_left]; [done|].
  simpl in H. by rewrite (rowStep_skipped _ _ _ _ _ H).
Qed.

Lemma indexed_rows (P : str -> Prop) (g : nat -> str -> nat * str) (l : list str) :
  (forall i x, snd (g i x) = x) -> Forall P l ->
  Forall (fun il => P (snd il)) (imap g l).
Proof.
  intros Hg H. revert g Hg.
  induction H as [|x l Hx _ IH]; intros g Hg; cbn [imap]; constructor.
  - by rewrite Hg.
  - apply IH. intros i y. apply Hg.
Qed.

Lemma list_item_walk_stones filePath fileLines items a :
  stones (fold_left (itemStep filePath fileLines) items a) = stones a.
Proof.
  revert a. induction items as [|item items IH]; intros a; cbn [fold_left]; [done|].
  rewrite IH. unfold itemStep. destruct (itemTask _ _ _); [|done].
  cbn [push stones]. apply app_nil_r.
Qed.

(** A note without a table-task row adds nothing to the milestone
    list, whatever milestone tables it holds. *)
Lemma no_table_row_no_milestone (f : TFile) (c : ProjectCache) :
  Forall (fun l => test_at Pat.tableTaskRow l = false) (split LF (content f)) ->
  milestones (scanFile f c) = milestones c.
Proof.
  intros H. unfold scanFile. cbn [milestones].
  rewrite line_walk_without_rows
    by (by apply (indexed_rows (fun l => test_at Pat.tableTaskRow l = false))).
  by rewrite list_item_walk_stones.
Qed.

(** C1. The milestone scan does not run once per note: a note with a
    milestone table and no table-task row yields no milestone at all,
    and the same table followed by two table-task rows yields its one
    row twice. *)
Theorem milestones_follow_table_rows :
  milestones (reindex (Sample.cacheOf [Sample.milestonesOnly])) = []
  /\ milestonesFrom (js "Plan.md") (split LF (content Sample.milestonesOnly))
     = [Sample.launch]
  /\ milestones (reindex (Sample.cacheOf [Sample.milestonesAndRows]))
     = [Sample.launch; Sample.launch].
Proof. repeat split; vm_compute; reflexivity. Qed.

(** ** Ids *)

Lemma lower_lower c : lower (lower c) = lower c.
Proof.
  unfold lower, is_upper, between.
  destruct (65 <=? c) eqn:H1, (c <=? 90) eqn:H2; simpl; try by rewrite ?H1, ?H2.
  apply N.leb_le in H1, H2.
  replace (c + 32 <=? 90) with false by (symmetry; apply N.leb_gt; lia).
  by rewrite andb_false_r.
Qed.

Lemma toLowerCase_idem s : toLowerCase (toLowerCase s) = toLowerCase s.
Proof. unfold toLowerCase. rewrite map_map. apply map_ext, lower_lower. Qed.

(** The line walk lower-cases the id on each branch of its precedence. *)
Lemma rowId_lowercase filePath line idx :
  toLowerCase (rowId filePath line idx) = rowId filePath line idx.
Proof. unfold rowId. apply toLowerCase_idem. Qed.

(** C4. The list-item walk stores the id as it is: the synthetic
    fallback keeps the capitals of the note's path, and an id supplied
    by the host keeps its own; only the key of the index is
    lower-cased. *)
Theorem list_item_id_keeps_case :
  let f i := Sample.note "Projects/Alpha.md" (Some [Sample.listItem 0 0 i])
                         ["- [ ] Draft plan"%string] in
  (exists t, tasks (reindex (Sample.cacheOf [f None]))
             = [(js "projects/alpha.md::projects/alpha.md-0", t)]
             /\ t_id t = js "Projects/Alpha.md-0"
             /\ toLowerCase (t_id t) <> t_id t)
  /\ (exists t, tasks (reindex (Sample.cacheOf [f (Some (js "Draft-1"))]))
                = [(js "projects/alpha.md::draft-1", t)]
                /\ t_id t = js "Draft-1").
Proof.
  split; eexists; (split; [vm_compute; reflexivity|]); simpl; [|done].
  split; [done|]. vm_compute. discriminate.
Qed.

(** ** The checklist block of the creation dialog *)

(** The block is indexed under the synthetic id of the list-item walk;
    [getTask("E-1")] finds nothing, and the one task has no property. *)
Lemma build_api_not_found :
  let c := reindex (Sample.cacheOf [Sample.buildApi None]) in
  getTask c (js "E-1") = None
  /\ getTask c (makeTaskKey (js "Roadmap.md") (js "E-1")) = None
  /\ forall k t, JsMap.get k (tasks c) = Some t -> t_props t !! js "due" = None.
Proof.
  repeat split; try (vm_compute; reflexivity).
  intros k t. vm_compute tasks. simpl.
  case (str_eqb _ k); [|done]. by intros [= <-].
Qed.

Section Lookup.

Lemma endsWith_app (a s : str) : endsWith s (a ++ s) = true.
Proof.
  unfold endsWith, str_eqb. rewrite length_app.
  replace (length a + length s - length s)%nat with (length a) by lia.
  rewrite drop_app_length, bool_decide_eq_true_2 by done.
  apply Nat.leb_le. lia.
Qed.

Lemma key_not_id (p id : str) : str_eqb (makeTaskKey p id) id = false.
Proof.
  unfold str_eqb, makeTaskKey. apply bool_decide_eq_false_2. intros H.
  apply (f_equal length) in H. unfold toLowerCase in H.
  rewrite !length_app, !length_map in H. simpl in H. lia.
Qed.

(** A task that is alone in the index is found by its id and by its
    composite key. *)
Lemma getTask_single (c : ProjectCache) (p : str) (t : TaskItem) :
  tasks c = [(makeTaskKey p (t_id t), t)] ->
  getTask c (t_id t) = Some t /\ getTask c (makeTaskKey p (t_id t)) = Some t.
Proof.
  intros H. unfold getTask, JsMap.has. rewrite H. cbn [JsMap.get].
  rewrite key_not_id. split.
  - cbn [List.find fst]. unfold makeTaskKey. by rewrite endsWith_app.
  - unfold str_eqb. by rewrite bool_decide_eq_true_2.
Qed.

End Lookup.

(** C3. For the note [- [ ] E-1 Build API] with its two continuation
    lines, at any path, reported by the host as one unchecked list
    item over lines 0 to 2: the task is stored under the id the host
    supplies, else under the synthetic id of path and line, and the
    lookup by that id or by its composite key returns a task with
    status not-started that is not checked.  So [getTask("E-1")]
    succeeds when the host supplies the id [E-1]. *)
Theorem build_api_lookup (p : str) (attrs : option (list (str * str)))
        (i : option str) :
  let c := reindex (Sample.cacheOf [Sample.buildApiAt p attrs i]) in
  let id := default (p ++ js "-0") i in
  exists t, getTask c id = Some t
            /\ getTask c (makeTaskKey p id) = Some t
            /\ t_id t = id /\ t_status t = NotStarted /\ t_checked t = false.
Proof.
  intros c id.
  set (item := {| startLine := 0; endLine := Some 2%nat;
                  task := Some (Mark (js " ")); itemId := i; attributes := attrs |}).
  destruct (itemTask p (split LF (content (Sample.buildApiAt p attrs i))) item)
    as [t|] eqn:Ht; [|done].
  assert (t_id t = id /\ t_status t = NotStarted /\ t_checked t = false) as (Hid & Hs & Hc).
  { unfold itemTask in Ht. cbn [task truthy negb andb] in Ht.
    change (negb (negb (str_eqb (js " ") []))) with false in Ht. cbn [andb] in Ht.
    injection Ht as <-. repeat split; vm_compute; reflexivity. }
  exists t. rewrite <- Hid.
  assert (tasks c = [(makeTaskKey p (t_id t), t)]) as Hc'.
  { unfold c, reindex, Sample.cacheOf. cbn [vault settings fold_left].
    change (isProject _ _) with true. cbv iota. unfold scanFile.
    change (path (Sample.buildApiAt p attrs i)) with p.
    change (listItems (Sample.buildApiAt p attrs i)) with (Some [item]).
    cbn [tasks default fold_left].
    rewrite line_walk_without_rows by repeat constructor.
    unfold itemStep, Datatypes.id. cbn [fold_left]. by rewrite Ht. }
  destruct (getTask_single c p t Hc') as [H1 H2]. by rewrite H1, H2.
Qed.

(** ** An update of [due] and the scan that follows *)

(** C5. [updateTask(id, {due: "2025-03-03"})] on the first of two story
    rows writes the annotation behind the second row, which is the line
    after the primary line; after the scan that the update triggers,
    the first task still has no [due], and the second task has gained
    [due] and a different [description]. *)
Theorem update_due_lands_on_next_row :
  let c := reindex (Sample.cacheOf [Sample.twoRows]) in
  exists c',
    updateTask c (js "plan.md::s-1") (Sample.setDue "2025-03-03") = Resolved c'
    /\ readFile c' (js "Plan.md")
       = Some (join [LF] [js "| S-1 | E-1 | - [ ] Design |";
                          js "| S-2 | E-1 | - [ ] Build |  due:: 2025-03-03"])
    /\ (exists t, getTask c' (js "plan.md::s-1") = Some t
                  /\ t_props t !! js "due" = None)
    /\ (exists t0 t1,
          getTask c (js "plan.md::s-2") = Some t0
          /\ getTask c' (js "plan.md::s-2") = Some t1
          /\ t_props t0 !! js "due" = None
          /\ t_props t1 !! js "due" = Some (js "2025-03-03")
          /\ t_props t0 !! js "description" = Some (js "- [ ] Build")
          /\ t_props t1 !! js "description" = Some (js "due:: 2025-03-03")).
Proof.
  eexists. split; [vm_compute; reflexivity|].
  split; [vm_compute; reflexivity|].
  split; [eexists; split; vm_compute; reflexivity|].
  do 2 eexists. split; [vm_compute; reflexivity|].
  split; [vm_compute; reflexivity|].
  repeat split; vm_compute; reflexivity.
Qed.

(** ** The description of a pipe row *)

Ltac distinct := vm_compute; discriminate.

Section Description.

Lemma setIf_other (k : str) (v : option str) (props : Props) (k' : str) :
  k <> k' -> setIf k v props !! k' = props !! k'.
Proof. intros H. destruct v; simpl; [by rewrite lookup_insert_ne|done]. Qed.

Lemma setIf_same (k : str) (v : option str) (props : Props) :
  setIf k v props !! k = match v with Some x => Some x | None => props !! k end.
Proof. destruct v; simpl; [by rewrite lookup_insert_eq|done]. Qed.

(** The heuristic writes [description] last, whatever the annotation
    pass stored under that key. *)
Lemma cellProps_description (rowText : str) (props : Props) :
  includes PIPE rowText = true ->
  cellProps rowText props !! js "description"
  = match descriptionCell (tableCells rowText) with
    | Some c => Some c
    | None => props !! js "description"
    end.
Proof.
  intros H. unfold cellProps. rewrite H. cbv zeta.
  rewrite setIf_same. destruct (descriptionCell _); [done|].
  rewrite !setIf_other; [done|distinct..].
Qed.

Lemma setKey_emoji_other (icon v : str) (props : Props) (k : str) :
  k <> js "start" -> k <> js "due" -> k <> js "done" ->
  setKey (emojiKey icon) v props !! k = props !! k.
Proof.
  intros H1 H2 H3. unfold emojiKey.
  repeat match goal with |- context [if ?b then _ else _] => destruct b end;
    simpl; try done; by rewrite lookup_insert_ne.
Qed.

(** The emoji pass only writes [start], [due] and [done]. *)
Lemma emojiProps_other (rawBlock : str) (props : Props) (k : str) :
  k <> js "start" -> k <> js "due" -> k <> js "done" ->
  emojiProps rawBlock props !! k = props !! k.
Proof.
  intros H1 H2 H3. unfold emojiProps.
  generalize (matchAll Pat.emojiDate 0 rawBlock). intros l. revert props.
  induction l as [|m l IH]; intros props; simpl; [done|].
  rewrite IH. by apply setKey_emoji_other.
Qed.

Lemma find_skip {A} (P : A -> bool) (l r : list A) :
  Forall (fun d => P d = false) l -> List.find P (l ++ r) = List.find P r.
Proof. induction 1 as [|d l Hd _ IH]; simpl; [done|by rewrite Hd]. Qed.

(** What [descriptionCell] returns: the last cell, from index 2 on,
    that is neither empty nor date-shaped. *)
Lemma descriptionCell_rightmost (c0 c1 : str) (pre : list str) (c : str)
      (post : list str) :
  c <> [] -> test_at Pat.dateRe c = false ->
  Forall (fun d => d = [] \/ test_at Pat.dateRe d = true) post ->
  descriptionCell (c0 :: c1 :: pre ++ c :: post) = Some c.
Proof.
  intros Hc Hd Hpost. unfold descriptionCell. simpl drop. rewrite drop_0.
  rewrite rev_app_distr. simpl rev. rewrite <- app_assoc.
  rewrite find_skip.
  - simpl. rewrite Hd. unfold str_eqb. by rewrite bool_decide_eq_false_2.
  - apply Forall_rev. eapply Forall_impl; [exact Hpost|].
    intros d [-> | ->]; [done|]. by rewrite andb_false_r.
Qed.

End Description.

(** The annotation [description:: Real text] of a story row loses to
    the last cell of the row. *)
Lemma description_annotation_overwritten :
  ~ (forall line v,
        test_at Pat.tableTaskRow line = true ->
        inlineProps line ∅ !! js "description" = Some v ->
        t_props (rowTask (js "Plan.md") line 0) !! js "description" = Some v).
Proof.
  intros H.
  specialize (H (js "| S-1 | E-1 | - [ ] Design description:: Real text | Ann | Improve onboarding |")
                (js "Real text") eq_refl eq_refl).
  vm_compute in H. discriminate.
Qed.

(** C2. In a pipe row the cell heuristic runs after the annotation pass
    and writes [description] whenever the row has a cell, from index 2
    on, that is neither empty nor date-shaped: the task's description
    is then the right-most such cell, also when the row carries a
    [description::] annotation.  The value of the annotation pass (or
    of the host's attributes) is kept when the row has no such cell.
    This holds on the line walk and on the list-item walk. *)
Theorem description_cell_wins (filePath rowText : str) :
  includes PIPE rowText = true ->
  let cell := descriptionCell (tableCells rowText) in
  (forall idx,
      t_props (rowTask filePath rowText idx) !! js "description"
      = match cell with
        | Some c => Some c
        | None => inlineProps rowText ∅ !! js "description"
        end)
  /\ (forall fileLines item t,
         lineAt fileLines (startLine item) = rowText ->
         itemTask filePath fileLines item = Some t ->
         t_props t !! js "description"
         = match cell with
           | Some c => Some c
           | None => inlineProps rowText (attrProps (attributes item) ∅)
                       !! js "description"
           end).
Proof.
  intros Hpipe cell. split.
  - intros idx. simpl. unfold rowProps. by rewrite cellProps_description.
  - intros fileLines item t Hrow Ht. unfold itemTask in Ht.
    destruct (_ && _) in Ht; [done|]. injection Ht as <-. simpl.
    unfold itemProps. rewrite emojiProps_other by distinct.
    rewrite Hrow. by rewrite cellProps_description.
Qed.

Lemma description_cell_wins_witness :
  let row := js "| S-1 | E-1 | - [ ] Design description:: Real text | Ann | Improve onboarding |" in
  includes PIPE row = true
  /\ inlineProps row ∅ !! js "description" = Some (js "Real text")
  /\ descriptionCell (tableCells row) = Some (js "Improve onboarding")
  /\ t_props (rowTask (js "Plan.md") row 0) !! js "description"
     = Some (js "Improve onboarding").
Proof.
  intros row. split; [reflexivity|]. split; [vm_compute; reflexivity|].
  split; [vm_compute; reflexivity|].
  destruct (description_cell_wins (js "Plan.md") row eq_refl) as [H _].
  rewrite H. vm_compute. reflexivity.
Defined.

(** ** Greedy quantifiers *)

Section Quantifiers.

(** A greedy star commits to the longest run when what follows the
    star cannot start with a character of the class: giving back
    characters never helps. *)
Lemma star_commit {B} (p : N -> bool) (f : str -> Re B) (s : str) :
  (forall a c r, p c = true -> f a (c :: r) = []) ->
  (star p ≫= f) s = f (run p s) (after p s).
Proof.
  intros Hf. revert f Hf. induction s as [|c t IH]; intros f Hf.
  - cbn. apply app_nil_r.
  - unfold mbind, re_bind, star in *. cbn [star_from run after].
    destruct (p c) eqn:Hc.
    + rewrite flat_map_app. cbn [flat_map fst snd].
      rewrite (Hf [] c t Hc). rewrite !app_nil_r.
      rewrite flat_map_concat_map, map_map, <- flat_map_concat_map.
      cbn [fst snd].
      apply (IH (fun a => f (c :: a))). intros a c' r. apply Hf.
    + cbn. apply app_nil_r.
Qed.

Lemma bind_chr {B} (p : N -> bool) (f : N -> Re B) (s : str) :
  (chr p ≫= f) s
  = match s with
    | c :: r => if p c then f c r else []
    | [] => []
    end.
Proof.
  unfold mbind, re_bind, chr. destruct s as [|c r]; [done|].
  destruct (p c); cbn; [apply app_nil_r|done].
Qed.

Lemma after_app (p : N -> bool) (w : str) (c : N) (r : str) :
  forallb p w = true -> p c = false -> after p (w ++ c :: r) = c :: r.
Proof.
  induction w as [|x w IH]; simpl; intros Hw Hc; [by rewrite Hc|].
  apply andb_true_iff in Hw as [-> Hw]. auto.
Qed.

Lemma isc_eq d c : isc d c = true -> c = d.
Proof. apply N.eqb_eq. Qed.

End Quantifiers.

(** ** A checked-state update of a table row *)

Section CheckedUpdate.
Import Pat.

Lemma ws_not (d c : N) : is_ws d = false -> is_ws c = true -> isc d c = false.
Proof.
  intros Hd Hc. destruct (isc d c) eqn:E; [|done].
  apply isc_eq in E. congruence.
Qed.

(** A line that starts with optional white space and a pipe. *)
Lemma startsWithPipe_after (line : str) :
  test_at startsWithPipe line = true ->
  exists r, after is_ws line = PIPE :: r.
Proof.
  unfold test_at, exec, startsWithPipe. rewrite star_commit.
  - rewrite bind_chr. destruct (after is_ws line) as [|c r]; [done|].
    destruct (isc PIPE c) eqn:E; [|done]. apply isc_eq in E as ->. eauto.
  - intros _ c r Hc. by rewrite bind_chr, (ws_not PIPE c).
Qed.

Lemma checkboxAtStart_after (line : str) :
  checkboxAtStart line
  = (_ ← chr (isc DASH); _ ← star is_ws; _ ← chr (isc LBR);
     _ ← chr (oneOf [SP; ch "x"; ch "X"]); _ ← chr (isc RBR); mret tt)
      (after is_ws line).
Proof.
  unfold checkboxAtStart. rewrite star_commit; [done|].
  intros _ c r Hc. by rewrite bind_chr, (ws_not DASH c).
Qed.

(** The glyph swap does not apply to a pipe row. *)
Lemma swapCheckbox_table_row (b : bool) (line : str) :
  test_at startsWithPipe line = true -> swapCheckbox b line = line.
Proof.
  intros [r Hr]%startsWithPipe_after.
  unfold swapCheckbox, replaceAtStart, exec.
  by rewrite checkboxAtStart_after, Hr, bind_chr.
Qed.

(** Nor to a checklist line whose glyph is not a blank, [x] or [X]. *)
Lemma swapCheckbox_other_glyph (b : bool) (w1 w2 : str) (g : N) (rest : str) :
  forallb is_ws w1 = true -> forallb is_ws w2 = true ->
  oneOf [SP; ch "x"; ch "X"] g = false ->
  let line := w1 ++ DASH :: w2 ++ LBR :: g :: RBR :: rest in
  swapCheckbox b line = line.
Proof.
  intros H1 H2 Hg line.
  unfold swapCheckbox, replaceAtStart, exec.
  rewrite checkboxAtStart_after. unfold line.
  rewrite after_app by done.
  rewrite bind_chr. replace (isc DASH DASH) with true by done.
  rewrite star_commit.
  - rewrite after_app, bind_chr by done.
    replace (isc LBR LBR) with true by done. by rewrite bind_chr, Hg.
  - intros _ c r Hc. by rewrite bind_chr, (ws_not LBR c).
Qed.

Lemma split_cons (d : N) (s : str) : exists h r, split d s = h :: r.
Proof.
  induction s as [|c t (h & r & IH)]; cbn [split]; [eauto|].
  destruct (c =? d); rewrite ?IH; eauto.
Qed.

Lemma join_split (s : str) : join [LF] (split LF s) = s.
Proof.
  induction s as [|c t IH]; [done|]. cbn [split].
  destruct (split_cons LF t) as (h & r & Hs). rewrite Hs in *.
  destruct (c =? LF) eqn:E.
  - apply N.eqb_eq in E as ->.
    change (join [LF] ([] :: h :: r)) with (LF :: join [LF] (h :: r)).
    by rewrite IH.
  - rewrite <- IH. by destruct r.
Qed.

Lemma joinLines_Some (ls : list str) : joinLines (map Some ls) = join [LF] ls.
Proof. unfold joinLines. rewrite map_map. by rewrite map_id. Qed.

Lemma arraySet_same (i : nat) (v : option str) (l : list (option str)) :
  l !! i = Some v -> arraySet i v l = l.
Proof.
  intros H. unfold arraySet.
  rewrite (proj2 (Nat.ltb_lt _ _)) by (by eapply lookup_lt_Some).
  by apply list_insert_id.
Qed.

Lemma writeFile_same (p txt : str) (fs : list TFile) :
  content <$> List.find (fun f => str_eqb (path f) p) fs = Some txt ->
  writeFile p txt fs = fs.
Proof.
  induction fs as [|f fs IH]; simpl; [done|].
  destruct (str_eqb (path f) p).
  - simpl. intros [= <-]. by destruct f.
  - intros H. by rewrite IH.
Qed.

Lemma modifyFile_same (c : ProjectCache) (p txt : str) :
  readFile c p = Some txt -> modifyFile c p txt = c.
Proof.
  intros H. unfold modifyFile. rewrite writeFile_same by done. by destruct c.
Qed.

End CheckedUpdate.

(** C10. For an indexed task whose primary line is a pipe row (optional
    white space, then a pipe), [updateTask] with the change
    [{checked: b}] writes the note back with the same text, line for
    line; the state it leaves is the one a plain rescan gives.  The
    glyph swap matches a checkbox only at the start of the line and
    only with a blank, [x] or [X] in it: it leaves a pipe row as it is,
    and also a checklist line whose glyph is another character, such
    as [/] or [-]. *)
Theorem checked_update_keeps_table_row
        (c : ProjectCache) (taskId : str) (task : TaskItem)
        (fileText line : str) (b : bool) :
  JsMap.get taskId (tasks c) = Some task ->
  readFile c (t_file task) = Some fileText ->
  split LF fileText !! t_line task = Some line ->
  test_at Pat.startsWithPipe line = true ->
  swapCheckbox b line = line
  /\ updateTask c taskId {| ch_checked := Some b; ch_text := None; ch_props := [] |}
     = Resolved (reindex (modifyFile c (t_file task) fileText))
  /\ modifyFile c (t_file task) fileText = c
  /\ (forall w1 w2 g rest,
         forallb is_ws w1 = true -> forallb is_ws w2 = true ->
         Pat.oneOf [Pat.SP; ch "x"; ch "X"] g = false ->
         swapCheckbox b (w1 ++ Pat.DASH :: w2 ++ Pat.LBR :: g :: Pat.RBR :: rest)
         = w1 ++ Pat.DASH :: w2 ++ Pat.LBR :: g :: Pat.RBR :: rest).
Proof.
  intros Hget Hread Hline Hpipe.
  pose proof (swapCheckbox_table_row b line Hpipe) as Hswap.
  split; [done|]. split; [|split].
  - unfold updateTask. rewrite Hget, Hread. cbn [ch_checked ch_text ch_props].
    rewrite list_lookup_fmap, Hline. cbn. rewrite Hswap.
    rewrite arraySet_same by (by rewrite list_lookup_fmap, Hline).
    by rewrite joinLines_Some, join_split.
  - by apply modifyFile_same.
  - intros. by apply swapCheckbox_other_glyph.
Qed.

Lemma checked_update_keeps_table_row_witness :
  let c := reindex (Sample.cacheOf [Sample.twoRows]) in
  let row := js "| S-1 | E-1 | - [ ] Design |" in
  test_at Pat.startsWithPipe row = true
  /\ swapCheckbox true row = row
  /\ updateTask c (js "plan.md::s-1") (Sample.setChecked true)
     = Resolved (reindex (modifyFile c (js "Plan.md") (content Sample.twoRows))).
Proof.
  intros c row. split; [reflexivity|].
  destruct (checked_update_keeps_table_row c (js "plan.md::s-1")
              (rowTask (js "Plan.md") row 0) (content Sample.twoRows) row true)
    as (H1 & H2 & _); try (vm_compute; reflexivity).
  split; [exact H1|exact H2].
Defined.

(** ** The status of a checkbox line *)

Section GlyphStatus.
Import Pat.

Variable cls : N -> bool.

(** The glyph pattern at the start of a line: a dash, white space, and
    the bracketed glyph. *)
Lemma glyph_at (s : str) :
  test_at (glyph cls) s
  = match s with
    | c :: t => isc DASH c && boxAt cls (after is_ws t)
    | [] => false
    end.
Proof.
  unfold test_at, exec, glyph. rewrite bind_chr.
  destruct s as [|c t]; [done|]. destruct (isc DASH c); [|done].
  rewrite star_commit.
  - rewrite bind_chr. destruct (after is_ws t) as [|a r]; [done|]. cbn [boxAt andb].
    destruct (isc LBR a); [|done]. rewrite bind_chr.
    destruct r as [|b r]; [done|]. destruct (cls b); [|done]. rewrite bind_chr.
    destruct r as [|d r]; [done|]. by destruct (isc RBR d).
  - intros _ c' r Hc. by rewrite bind_chr, (ws_not LBR c').
Qed.

(** A match that starts in front of a checkbox cannot reach its glyph:
    it would have to read the dash or the blank of the checkbox as a
    bracket. *)
Lemma boxAt_before_box (p x y : str) :
  boxAt cls (after is_ws (p ++ DASH :: SP :: x))
  = boxAt cls (after is_ws (p ++ DASH :: SP :: y)).
Proof.
  induction p as [|a p IH]; [done|]. cbn [app after].
  destruct (is_ws a); [done|]. cbn [boxAt]. f_equal.
  by destruct p as [|b [|d p]].
Qed.

Lemma glyph_at_before_box (c : N) (p x y : str) :
  test_at (glyph cls) (c :: p ++ DASH :: SP :: x)
  = test_at (glyph cls) (c :: p ++ DASH :: SP :: y).
Proof. rewrite !glyph_at. by rewrite (boxAt_before_box p x y). Qed.

(** Inside the checkbox, only the position of its dash can match, and
    it does when the glyph is in the class. *)
Lemma test_box (g : N) (post : str) :
  test (glyph cls) (boxed [] g post) = cls g || test (glyph cls) post.
Proof.
  unfold boxed. cbn [app test]. rewrite !glyph_at. cbn [after boxAt].
  change (is_ws SP) with true. change (is_ws LBR) with false.
  change (is_ws RBR) with false.
  change (isc DASH DASH) with true. change (isc LBR LBR) with true.
  change (isc RBR RBR) with true. change (isc DASH SP) with false.
  change (isc DASH LBR) with false. change (isc DASH RBR) with false.
  change (isc LBR RBR) with false.
  cbn [after boxAt andb orb]. by rewrite andb_true_r, andb_false_r.
Qed.

(** When the line with the blank glyph holds no match of the pattern,
    the line with the glyph [g] holds one exactly when [g] is in the
    class. *)
Lemma test_boxed (pre post : str) (g : N) :
  test (glyph cls) (boxed pre SP post) = false ->
  test (glyph cls) (boxed pre g post) = cls g.
Proof.
  induction pre as [|c pre IH].
  - rewrite !test_box. intros [_ ->]%orb_false_elim. apply orb_false_r.
  - unfold boxed in *. cbn [app test].
    intros [H1 H2]%orb_false_elim.
    rewrite (glyph_at_before_box c pre _ (LBR :: SP :: RBR :: post)), H1.
    by apply IH.
Qed.

End GlyphStatus.

Lemma statusOf_boxed (pre post : str) (g : N) :
  statusOf (boxed pre Pat.SP post) = NotStarted ->
  statusOf (boxed pre g post) = fst (glyphState g)
  /\ test Pat.doneGlyph (boxed pre g post) = snd (glyphState g).
Proof.
  unfold statusOf at 1.
  destruct (test Pat.doneGlyph _) eqn:H1; [done|].
  destruct (test Pat.progressGlyph _) eqn:H2; [done|].
  destruct (test Pat.holdGlyph _) eqn:H3; [done|]. intros _.
  unfold statusOf, Pat.doneGlyph, Pat.progressGlyph, Pat.holdGlyph in *.
  rewrite !test_boxed by done. unfold glyphState.
  destruct (Pat.oneOf _ g); [done|]. destruct (isc (ch "/") g); [done|].
  by destruct (isc Pat.DASH g).
Qed.

(** A row with the blank glyph whose text holds [-[X]] resolves to
    done and checked. *)
Lemma blank_glyph_resolves_done :
  ~ (forall pre post,
        test_at Pat.tableTaskRow (boxed pre Pat.SP post) = true ->
        t_status (rowTask (js "Plan.md") (boxed pre Pat.SP post) 0) = NotStarted
        /\ t_checked (rowTask (js "Plan.md") (boxed pre Pat.SP post) 0) = false).
Proof.
  intros H.
  destruct (H (js "| S-2 | ") (js " Update ref-[X] docs |") eq_refl) as [H1 _].
  vm_compute in H1. discriminate.
Qed.

(** Take the lines [pre - [g] post] that differ only in the glyph [g]
    of their checkbox, and let the line with the blank glyph resolve
    to not-started.  Then the line with the glyph [g] has the status
    of its glyph: in-progress for [/], on-hold for [-], done for [x]
    and [X], else not-started.  On the line walk the task is checked
    for [x] and [X] only; on the list-item walk the checked flag of
    the host is or-ed to that. *)
Theorem status_follows_glyph (pre post : str) (g : N) :
  statusOf (boxed pre Pat.SP post) = NotStarted ->
  (forall filePath idx,
      let t := rowTask filePath (boxed pre g post) idx in
      (t_status t, t_checked t) = glyphState g)
  /\ (forall filePath fileLines item t,
         lineAt fileLines (startLine item) = boxed pre g post ->
         itemTask filePath fileLines item = Some t ->
         (t_status t, t_checked t)
         = (fst (glyphState g), flagChecked (task item) || snd (glyphState g))).
Proof.
  intros [Hs Hc]%(statusOf_boxed pre post g). split.
  - intros filePath idx. simpl. rewrite Hs, Hc. by destruct (glyphState g).
  - intros filePath fileLines item t Hline Ht. unfold itemTask in Ht.
    destruct (_ && _) in Ht; [done|]. injection Ht as <-. simpl.
    by rewrite Hline, Hs, Hc.
Qed.

Lemma status_follows_glyph_witness :
  let pre := js "| S-1 | E-1 | " in
  let post := js " Design |" in
  statusOf (boxed pre Pat.SP post) = NotStarted
  /\ (forall g, In g [Pat.SP; ch "/"; Pat.DASH; ch "x"; ch "X"] ->
        let t := rowTask (js "Plan.md") (boxed pre g post) 0 in
        (t_status t, t_checked t) = glyphState g)
  /\ map glyphState [Pat.SP; ch "/"; Pat.DASH; ch "x"; ch "X"]
     = [(NotStarted, false); (InProgress, false); (OnHold, false);
        (Done, true); (Done, true)].
Proof.
  intros pre post. split; [vm_compute; reflexivity|]. split; [|reflexivity].
  intros g _.
  destruct (status_follows_glyph pre post g) as [H _]; [vm_compute; reflexivity|].
  apply H.
Defined.

(** C7. The status of a task is not read from its checkbox: the three
    status tests search the whole line for a dash, optional white
    space and a bracketed glyph.  A table row whose checkbox holds the
    blank glyph and whose text holds [-[X]] is indexed as done and
    checked; and a checklist line whose bullet is an asterisk is
    indexed as not-started and unchecked for each of the glyphs
    [ ], [/], [-], [x] and [X]. *)
Theorem status_misses_checkbox :
  let states f :=
    map (fun t => (t_status t, t_checked t))
        (getProjectTasks (reindex (Sample.cacheOf [f])) (js "Plan.md")) in
  states (Sample.oneLine None Sample.blankWithRef) = [(Done, true)]
  /\ map (fun g => states (Sample.oneLine (Some [Sample.starItem g]) (Sample.starLine g)))
         [Pat.SP; ch "/"; Pat.DASH; ch "x"; ch "X"]
     = [[(NotStarted, false)]; [(NotStarted, false)]; [(NotStarted, false)];
        [(NotStarted, false)]; [(NotStarted, false)]].
Proof. intros states. split; vm_compute; reflexivity. Qed.

(** ** The emoji dates of a block *)

Section Footprint.

(** Membership in the results of a sequence. *)
Lemma in_bind {A B} (m : Re A) (f : A -> Re B) (s : str) (b : B) (r : str) :
  In (b, r) ((m ≫= f) s) <-> exists a r1, In (a, r1) (m s) /\ In (b, r) (f a r1).
Proof.
  unfold mbind, re_bind. rewrite in_flat_map. split.
  - intros ([a r1] & H1 & H2). eauto.
  - intros (a & r1 & H1 & H2). by exists (a, r1).
Qed.

Lemma exec_In {A} (m : Re A) (s : str) (x : A * str) :
  exec m s = Some x -> In x (m s).
Proof. unfold exec. destruct (m s); simpl; [done|]. intros [= ->]. by left. Qed.

Variable x : N.

Lemma stops_ret {A} (a : A) : stops x (mret a).
Proof. intros s t a' r [[= <- <-]|[]]. eauto. Qed.

Lemma stops_chr (p : N -> bool) : p x = false -> stops x (chr p).
Proof.
  intros Hp [|c s] t a r; simpl.
  - by rewrite Hp.
  - destruct (p c); [|done]. intros [[= <- <-]|[]]. eauto.
Qed.

Lemma stops_bind {A B} (m : Re A) (f : A -> Re B) :
  stops x m -> (forall a, stops x (f a)) -> stops x (m ≫= f).
Proof.
  intros Hm Hf s t b r (a & r1 & H1 & H2)%in_bind.
  destruct (Hm _ _ _ _ H1) as [r' ->]. by eapply Hf.
Qed.

Lemma stops_star (p : N -> bool) : p x = false -> stops x (star p).
Proof.
  intros Hp s. induction s as [|c s IH]; intros t a r; unfold star; simpl.
  - rewrite Hp. intros [[= <- <-]|[]]. by exists [].
  - destruct (p c).
    + rewrite in_app_iff, in_map_iff.
      intros [([a' r1] & [= <- <-] & H)|[[= <- <-]|[]]].
      * by eapply IH.
      * by exists (c :: s).
    + intros [[= <- <-]|[]]. by exists (c :: s).
Qed.

Lemma stops_opt {A} (m : Re A) : stops x m -> stops x (opt m).
Proof.
  intros Hm s t a r. unfold opt. rewrite in_app_iff, in_map_iff.
  intros [([a' r1] & [= <- <-] & H)|[[= <- <-]|[]]]; [by eapply Hm|eauto].
Qed.

Lemma stops_times (n : nat) (p : N -> bool) : p x = false -> stops x (times n p).
Proof.
  intros Hp. induction n as [|n IH]; simpl; [apply stops_ret|].
  apply stops_bind; [by apply stops_chr|]. intros c.
  apply stops_bind; [done|]. intros a. apply stops_ret.
Qed.

Lemma stops_lit (w : str) : ~ In x w -> stops x (lit w).
Proof.
  induction w as [|c w IH]; simpl; intros Hw; [apply stops_ret|].
  apply stops_bind.
  - apply stops_chr. apply N.eqb_neq. intros ->. by apply Hw; left.
  - intros _. apply IH. intros H. by apply Hw; right.
Qed.

Lemma after_first_chr {A} (p : N -> bool) (f : N -> Re A) :
  (forall c, stops x (f c)) -> stopsAfterFirst x (chr p ≫= f).
Proof.
  intros Hf c s t a r. rewrite bind_chr. destruct (p c); [|done]. apply Hf.
Qed.

Lemma after_first_bind {A B} (m : Re A) (f : A -> Re B) :
  stopsAfterFirst x m -> (forall a, stops x (f a)) -> stopsAfterFirst x (m ≫= f).
Proof.
  intros Hm Hf c s t b r (a & r1 & H1 & H2)%in_bind.
  destruct (Hm _ _ _ _ _ H1) as [r' ->]. by eapply Hf.
Qed.

Lemma after_first_alt {A} (a b : Re A) :
  stopsAfterFirst x a -> stopsAfterFirst x b -> stopsAfterFirst x (alt a b).
Proof.
  intros Ha Hb c s t y r. unfold alt. rewrite in_app_iff.
  intros [H|H]; [by eapply Ha|by eapply Hb].
Qed.

(** The scan in front of an [x]: a pattern that stops at [x] after its
    first character leaves the scan at the [x], between two matches. *)
Lemma matchAll_up_to {A} (m : Re A) (pre t : str) (skip : nat) :
  stopsAfterFirst x m -> (skip <= length pre)%nat ->
  exists l, matchAll m skip (pre ++ x :: t) = l ++ matchAll m 0 (x :: t).
Proof.
  intros Hm. revert skip. induction pre as [|c pre IH]; intros skip Hskip.
  - simpl in Hskip. replace skip with 0%nat by lia. by exists [].
  - cbn [app matchAll]. destruct skip as [|n].
    + destruct (exec m (c :: pre ++ x :: t)) as [[a r]|] eqn:E.
      * apply exec_In, Hm in E as [r' ->].
        destruct (IH (length (c :: pre ++ x :: t) - length (r' ++ x :: t) - 1)%nat)
          as [l ->].
        { simpl. rewrite !length_app. simpl. lia. }
        by exists (a :: l).
      * apply IH. lia.
    + apply IH. simpl in Hskip. lia.
Qed.

Lemma matchAll_at {A} (m : Re A) (c : N) (t : str) :
  matchAll m 0 (c :: t)
  = match exec m (c :: t) with
    | Some (a, r) => a :: matchAll m (length (c :: t) - length r - 1) t
    | None => matchAll m 0 t
    end.
Proof. done. Qed.

Lemma matchAll_skip {A} (m : Re A) (u s : str) :
  matchAll m (length u) (u ++ s) = matchAll m 0 s.
Proof. induction u as [|c u IH]; [done|]. apply IH. Qed.

(** Every match of a scan is a match at some suffix of the input. *)
Lemma matchAll_In {A} (m : Re A) (s : str) (skip : nat) (a : A) :
  In a (matchAll m skip s) ->
  exists p s' r, s = p ++ s' /\ exec m s' = Some (a, r).
Proof.
  revert skip. induction s as [|c s IH]; intros skip; simpl.
  - destruct (exec m []) as [[a' r]|] eqn:E; [|done].
    intros [<-|[]]. by exists [], [], r.
  - destruct skip as [|n].
    + destruct (exec m (c :: s)) as [[a' r]|] eqn:E.
      * intros [<-|H]; [by exists [], (c :: s), r|].
        destruct (IH _ H) as (p & s' & r' & -> & H'). by exists (c :: p), s', r'.
      * intros H. destruct (IH _ H) as (p & s' & r' & -> & H').
        by exists (c :: p), s', r'.
    + intros H. destruct (IH _ H) as (p & s' & r' & -> & H').
      by exists (c :: p), s', r'.
Qed.

End Footprint.

Section EmojiDue.
Import Pat.

Lemma bind_one {A B} (m : Re A) (f : A -> Re B) (s : str) (a : A) (r : str) :
  m s = [(a, r)] -> (m ≫= f) s = f a r.
Proof. unfold mbind, re_bind. intros ->. apply app_nil_r. Qed.

Lemma bind_none {A B} (m : Re A) (f : A -> Re B) (s : str) :
  m s = [] -> (m ≫= f) s = [].
Proof. unfold mbind, re_bind. by intros ->. Qed.

Lemma bind_ret {A B} (a : A) (f : A -> Re B) (s : str) : (mret a ≫= f) s = f a s.
Proof. by apply bind_one. Qed.

Lemma bind_assoc {A B C} (m : Re A) (f : A -> Re B) (g : B -> Re C) (s : str) :
  ((m ≫= f) ≫= g) s = (m ≫= (fun a => f a ≫= g)) s.
Proof.
  unfold mbind, re_bind. induction (m s) as [|[a r] l IH]; [done|].
  cbn [flat_map fst snd]. by rewrite flat_map_app, IH.
Qed.

(** An optional character commits, like a greedy star, when what
    follows cannot start with that character. *)
Lemma opt_chr_commit {B} (q : N) (f : option N -> Re B) (s : str) :
  (forall a r, f a (q :: r) = []) ->
  (opt (chr (isc q)) ≫= f) s
  = match s with
    | c :: r => if isc q c then f (Some c) r else f None s
    | [] => f None s
    end.
Proof.
  intros Hf. unfold mbind, re_bind, opt, chr. destruct s as [|c r].
  - cbn. apply app_nil_r.
  - destruct (isc q c) eqn:E; cbn; rewrite app_nil_r; [|done].
    apply isc_eq in E as ->. by rewrite Hf, app_nil_r.
Qed.

Lemma isoDate_exact (y1 y2 y3 y4 m1 m2 d1 d2 : N) (post : str) :
  Forall (fun c => is_digit c = true) [y1; y2; y3; y4; m1; m2; d1; d2] ->
  isoDate (dated y1 y2 y3 y4 m1 m2 d1 d2 ++ post)
  = [(dated y1 y2 y3 y4 m1 m2 d1 d2, post)].
Proof.
  intros H. repeat (apply Forall_cons in H as [? H]).
  unfold isoDate, dated. cbn [times app].
  repeat first [ rewrite bind_assoc | rewrite bind_ret
               | rewrite bind_chr;
                 repeat match goal with
                        | E : is_digit ?c = true |- context [is_digit ?c] =>
                            rewrite E
                        end;
                 try change (isc DASH DASH) with true; cbv iota ].
  done.
Qed.

Lemma isoDate_needs_digit {B} (k : str -> Re B) (c : N) (r : str) :
  is_digit c = false -> (isoDate ≫= k) (c :: r) = [].
Proof.
  intros H. unfold isoDate. cbn [times]. by rewrite !bind_assoc, bind_chr, H.
Qed.

Lemma dateRe_shape (D : str) :
  test_at dateRe D = true ->
  exists y1 y2 y3 y4 m1 m2 d1 d2,
    D = dated y1 y2 y3 y4 m1 m2 d1 d2
    /\ Forall (fun c => is_digit c = true) [y1; y2; y3; y4; m1; m2; d1; d2].
Proof.
  unfold test_at, exec, dateRe, isoDate. cbn [times].
  repeat (repeat first [rewrite bind_assoc | rewrite bind_ret]; rewrite bind_chr;
          destruct D as [|? D]; [done|];
          match goal with
          | |- context [if is_digit ?c then _ else _] =>
              destruct (is_digit c) eqn:?; [|done]
          | |- context [if isc DASH ?c then _ else _] =>
              let E := fresh "E" in
              destruct (isc DASH c) eqn:E; [apply isc_eq in E as ->|done]
          end).
  repeat first [rewrite bind_assoc | rewrite bind_ret].
  unfold eos. destruct D; [|done]. intros _.
  do 8 eexists. split; [reflexivity|]. by repeat constructor.
Qed.

Lemma digit_not_ws (c : N) : is_digit c = true -> is_ws c = false.
Proof.
  unfold is_digit, between. intros [H1 H2]%andb_true_iff.
  apply N.leb_le in H1, H2.
  assert (c = 48 \/ c = 49 \/ c = 50 \/ c = 51 \/ c = 52 \/ c = 53 \/ c = 54
          \/ c = 55 \/ c = 56 \/ c = 57) as H by lia.
  by repeat destruct H as [-> | H]; try subst c.
Qed.

Lemma trim_dated (y1 y2 y3 y4 m1 m2 d1 d2 : N) :
  is_digit y1 = true -> is_digit d2 = true ->
  trim (dated y1 y2 y3 y4 m1 m2 d1 d2) = dated y1 y2 y3 y4 m1 m2 d1 d2.
Proof.
  intros H1%digit_not_ws H2%digit_not_ws.
  unfold trim, trimEnd, dated. cbn [trimStart]. rewrite H1.
  cbn [rev app trimStart]. by rewrite H2.
Qed.

Lemma gap_cases (c : N) :
  isGap c = true -> c = NBSP \/ c = SP \/ c = 9 \/ c = 13 \/ c = LF.
Proof.
  unfold isGap, oneOf. cbn [existsb]. rewrite !orb_true_iff, !N.eqb_eq.
  intuition discriminate.
Qed.

Lemma gap_not_digit (c : N) : isGap c = true -> is_digit c = false.
Proof. by intros [->|[->|[->|[->| ->]]]]%gap_cases. Qed.

(** The pattern at a calendar emoji that is followed by an optional
    variation selector, separators and a date. *)
Lemma emojiDate_at_calendar (v sep D post : str) :
  v = [] \/ v = [65039] ->
  forallb isGap sep = true ->
  test_at dateRe D = true ->
  exec emojiDate (CALENDAR ++ v ++ sep ++ D ++ post) = Some ((CALENDAR, D), post).
Proof.
  intros Hv Hsep (y1 & y2 & y3 & y4 & m1 & m2 & d1 & d2 & -> & HD)%dateRe_shape.
  assert (is_digit y1 = true) as Hy1 by (by inversion HD).
  assert ((_ ← star isGap; date ← isoDate; mret (CALENDAR, date))
            (sep ++ dated y1 y2 y3 y4 m1 m2 d1 d2 ++ post)
          = [((CALENDAR, dated y1 y2 y3 y4 m1 m2 d1 d2), post)]) as Hrest.
  { rewrite star_commit.
    - unfold dated at 1. cbn [app]. rewrite after_app; [|done|].
      + change (y1 :: ?l) with (dated y1 y2 y3 y4 m1 m2 d1 d2 ++ post).
        by rewrite (bind_one _ _ _ _ _ (isoDate_exact _ _ _ _ _ _ _ _ post HD)).
      + destruct (isGap y1) eqn:E; [|done]. apply gap_not_digit in E. congruence.
    - intros _ c r Hc. by apply isoDate_needs_digit, gap_not_digit. }
  unfold exec, emojiDate.
  rewrite (bind_one _ _ _ CALENDAR (v ++ sep ++ dated y1 y2 y3 y4 m1 m2 d1 d2 ++ post))
    by (by destruct Hv as [-> | ->]).
  rewrite opt_chr_commit.
  - destruct Hv as [-> | ->]; cbn [app].
    + assert (exists c r, sep ++ dated y1 y2 y3 y4 m1 m2 d1 d2 ++ post = c :: r
                          /\ isc 65039 c = false) as (c & r & HS & Hc).
      { destruct sep as [|c sep]; do 2 eexists; (split; [reflexivity|]);
          apply N.eqb_neq; intros ->; done. }
      rewrite HS, Hc, <- HS. by rewrite Hrest.
    + change (isc 65039 65039) with true. by rewrite Hrest.
  - intros a r. rewrite star_commit.
    + by apply isoDate_needs_digit.
    + intros _ c r' Hc. by apply isoDate_needs_digit, gap_not_digit.
Qed.

Lemma lit_In (w s r : str) (u : unit) : In (u, r) (lit w s) -> s = w ++ r.
Proof.
  revert s. induction w as [|c w IH]; intros s; simpl.
  - by intros [[= _ <-]|[]].
  - intros (a & r1 & H1 & H2)%in_bind. apply IH in H2 as ->.
    unfold chr in H1. destruct s as [|c' s]; [done|].
    destruct (isc c c') eqn:E; [|done]. apply isc_eq in E as ->.
    by destruct H1 as [[= <- <-]|[]].
Qed.

Lemma text_In (w s a r : str) : In (a, r) (text w s) -> a = w /\ s = w ++ r.
Proof.
  unfold text. intros ([] & r1 & H1%lit_In & [[= <- <-]|[]])%in_bind. done.
Qed.

Lemma text_after_first (x : N) (c : N) (w : str) :
  ~ In x w -> stopsAfterFirst x (text (c :: w)).
Proof.
  intros Hw. unfold text. apply after_first_bind; [|intros; apply stops_ret].
  cbn [lit]. apply after_first_chr. intros _. by apply stops_lit.
Qed.

(** The pattern reads a leading surrogate only as the first unit of
    its emoji. *)
Lemma emojiDate_after_first : stopsAfterFirst HIGH emojiDate.
Proof.
  unfold emojiDate. apply after_first_bind.
  - repeat apply after_first_alt; apply text_after_first;
      cbn; intros H; decompose [or] H; done.
  - intros icon. apply stops_bind.
    { apply stops_opt. by apply stops_chr. }
    intros _. apply stops_bind; [by apply stops_star|]. intros _.
    apply stops_bind; [|intros; apply stops_ret].
    unfold isoDate.
    repeat (apply stops_bind; [|intros ?]);
      first [by apply stops_times | by apply stops_chr | apply stops_ret].
Qed.

(** A match with the calendar icon starts at a calendar emoji. *)
Lemma calendar_match_low (s d r : str) :
  exec emojiDate s = Some ((CALENDAR, d), r) -> In CALENDAR_LOW s.
Proof.
  intros H%exec_In. unfold emojiDate in H.
  apply in_bind in H as (icon & r1 & Hicon & H).
  apply in_bind in H as (? & r2 & _ & H).
  apply in_bind in H as (? & r3 & _ & H).
  apply in_bind in H as (date & r4 & _ & [[= -> _ _]|[]]).
  unfold alt in Hicon. rewrite !in_app_iff in Hicon.
  decompose [or] Hicon;
    match goal with E : In _ (text _ _) |- _ => apply text_In in E as [E ->] end;
    try discriminate.
  right. by left.
Qed.

Lemma emojiStep_other_icon (l : list (str * str)) (props : Props) :
  Forall (fun m => fst m <> CALENDAR) l ->
  fold_left emojiStep l props !! js "due" = props !! js "due".
Proof.
  intros H. revert props. induction H as [|[icon d] l Hi _ IH]; intros props; [done|].
  cbn [fold_left]. rewrite IH. unfold emojiStep, emojiKey. cbn [fst snd] in *.
  destruct (str_eqb icon SOON || str_eqb icon HOURGLASS || str_eqb icon DEPARTURE);
    cbn [setKey]; [by rewrite lookup_insert_ne|].
  unfold str_eqb at 1. rewrite bool_decide_eq_false_2 by done.
  destruct (str_eqb icon CHECKMARK); cbn [setKey]; [by rewrite lookup_insert_ne|done].
Qed.

(** The scan of a block around its last calendar emoji. *)
Lemma emojiProps_calendar (pre v sep D post : str) (props : Props) :
  v = [] \/ v = [65039] ->
  forallb isGap sep = true ->
  test_at dateRe D = true ->
  ~ In CALENDAR_LOW post ->
  emojiProps (pre ++ CALENDAR ++ v ++ sep ++ D ++ post) props !! js "due" = Some D.
Proof.
  intros Hv Hsep HD Hpost. unfold emojiProps.
  change (CALENDAR ++ ?t) with (HIGH :: CALENDAR_LOW :: t).
  destruct (matchAll_up_to HIGH emojiDate pre
              (CALENDAR_LOW :: v ++ sep ++ D ++ post) 0 emojiDate_after_first)
    as [l ->]; [lia|].
  rewrite matchAll_at.
  change (HIGH :: CALENDAR_LOW :: ?t) with (CALENDAR ++ t).
  rewrite (emojiDate_at_calendar v sep D post) by done.
  replace (length (CALENDAR ++ v ++ sep ++ D ++ post) - length post - 1)%nat
    with (length (CALENDAR_LOW :: v ++ sep ++ D)).
  2:{ unfold CALENDAR. cbn [app length]. rewrite !length_app. lia. }
  replace (CALENDAR_LOW :: v ++ sep ++ D ++ post)
    with ((CALENDAR_LOW :: v ++ sep ++ D) ++ post)
    by (cbn [app]; by rewrite <- !app_assoc).
  rewrite matchAll_skip, fold_left_app. cbn [fold_left].
  rewrite emojiStep_other_icon.
  - unfold emojiStep at 1. cbn [fst snd]. change (emojiKey CALENDAR) with (Some (js "due")).
    cbn [setKey]. rewrite lookup_insert_eq.
    apply dateRe_shape in HD as (y1 & y2 & y3 & y4 & m1 & m2 & d1 & d2 & -> & HD).
    rewrite trim_dated; [done|..]; repeat (apply Forall_cons in HD as [? HD]); done.
  - apply List.Forall_forall. intros [icon d] Hin Heq. cbn [fst] in Heq. subst icon.
    apply matchAll_In in Hin as (p & s' & r & -> & Hex).
    apply calendar_match_low in Hex. apply Hpost, in_app_iff. by right.
Qed.

End EmojiDue.

(** X27. On the list-item walk, a block that holds a calendar emoji
    followed by an optional variation selector, separators and an ISO
    date [D2], with no calendar emoji after it, gets [due = D2]: the
    emoji pass runs after the annotation pass and the cell heuristic
    and overwrites what they stored under [due], such as the [D1] of
    an annotation [due:: D1]. *)
Theorem emoji_due_wins (filePath : str) (fileLines : list str) (item : ListItem)
        (t : TaskItem) (pre v sep D2 post : str) :
  itemTask filePath fileLines item = Some t ->
  rawBlockOf fileLines (startLine item) (default (startLine item) (endLine item))
  = pre ++ Pat.CALENDAR ++ v ++ sep ++ D2 ++ post ->
  v = [] \/ v = [65039] ->
  forallb Pat.isGap sep = true ->
  test_at Pat.dateRe D2 = true ->
  ~ In CALENDAR_LOW post ->
  t_props t !! js "due" = Some D2.
Proof.
  intros Ht Hraw Hv Hsep HD Hpost. unfold itemTask in Ht.
  destruct (_ && _) in Ht; [done|]. injection Ht as <-. cbn [t_props].
  unfold itemProps. rewrite Hraw. by apply emojiProps_calendar.
Qed.

Lemma emoji_due_wins_witness :
  let row := js "- [ ] Ship due:: 2025-01-01" in
  let fileLines := [row; js "  " ++ Pat.CALENDAR ++ js " 2025-02-02"] in
  let item := Sample.listItem 0 1 None in
  inlineProps row ∅ !! js "due" = Some (js "2025-01-01")
  /\ exists t, itemTask (js "Plan.md") fileLines item = Some t
               /\ t_props t !! js "due" = Some (js "2025-02-02").
Proof.
  intros row fileLines item. split; [vm_compute; reflexivity|].
  eexists. split; [reflexivity|].
  apply (emoji_due_wins (js "Plan.md") fileLines item _
           (row ++ [LF; Pat.SP; Pat.SP]) [] [Pat.SP] (js "2025-02-02") []);
    try reflexivity; [by left | intros []].
Defined.

(** C6. The line walk has no emoji pass.  A table row that holds the
    annotation [due:: 2025-01-01] and the calendar emoji in front of
    [2025-02-02] is indexed by the line walk with the due date of the
    annotation (with the whole rest of the cell when the two stand in
    one cell); the same row reported by the host as a list item is
    indexed by the list-item walk with the due date [2025-02-02]. *)
Theorem line_walk_ignores_emoji_due :
  let dues f :=
    map (fun t => t_props t !! js "due")
        (getProjectTasks (reindex (Sample.cacheOf [f])) (js "Plan.md")) in
  dues (Sample.oneLine None Sample.dueTwice) = [Some (js "2025-01-01")]
  /\ dues (Sample.oneLine None Sample.dueTwiceOneCell)
     = [Some (js "2025-01-01 " ++ Pat.CALENDAR ++ js " 2025-02-02")]
  /\ dues (Sample.oneLine (Some [Sample.rowItem]) Sample.dueTwice)
     = [Some (js "2025-02-02")]
  /\ dues (Sample.oneLine (Some [Sample.rowItem]) Sample.dueTwiceOneCell)
     = [Some (js "2025-02-02")].
Proof. intros dues. repeat split; vm_compute; reflexivity. Qed.

(** * The index as a whole, the view and the dialog *)

Import Pat NewItem.

(** ** The two walks, in closed form *)

Section Walks.

Variables (filePath : str) (fileLines : list str).

Lemma item_walk (items : list ListItem) (a : Acc) :
  fold_left (itemStep filePath fileLines) items a
  = {| local := local a ++ itemTasks filePath fileLines items;
       index := setAll filePath (itemTasks filePath fileLines items) (index a);
       stones := stones a |}.
Proof.
  revert a. induction items as [|item items IH]; intros a; cbn [fold_left].
  - cbn. rewrite app_nil_r. by destruct a.
  - rewrite IH. unfold itemStep, itemTasks. cbn [omap list_omap].
    destruct (itemTask filePath fileLines item) as [t|]; [|done].
    unfold setAll. cbn [push local index stones fold_left].
    by rewrite <- app_assoc, app_nil_r.
Qed.

Lemma openRow_later (seen : list TaskItem) (t : TaskItem) (il : nat * str) :
  t_line t <> fst il -> openRow (seen ++ [t]) il = openRow seen il.
Proof.
  intros H. unfold openRow. rewrite existsb_app. cbn [existsb].
  rewrite (proj2 (Nat.eqb_neq _ _) H). by rewrite !orb_false_r.
Qed.

Lemma rowStep_open (a : Acc) (i : nat) (l : str) :
  rowStep filePath fileLines a (i, l)
  = if openRow (local a) (i, l)
    then push filePath (rowTask filePath l i) a (milestonesFrom filePath fileLines)
    else a.
Proof.
  unfold rowStep, openRow. cbn [fst snd].
  destruct (test_at Pat.tableTaskRow l); [|done]. by destruct (existsb _ _).
Qed.

Lemma row_walk (rows : list (nat * str)) (a : Acc) :
  NoDup (map fst rows) ->
  let new := map (fun il => rowTask filePath (snd il) (fst il))
                 (List.filter (openRow (local a)) rows) in
  fold_left (rowStep filePath fileLines) rows a
  = {| local := local a ++ new;
       index := setAll filePath new (index a);
       stones := stones a
                 ++ concat (replicate (length new) (milestonesFrom filePath fileLines)) |}.
Proof.
  revert a. induction rows as [|[i l] rows IH]; intros a Hnd new.
  - cbn. rewrite !app_nil_r. by destruct a.
  - apply NoDup_cons in Hnd as [Hi Hnd]. cbn [fold_left]. rewrite (IH _ Hnd).
    unfold new. cbn [List.filter]. rewrite rowStep_open.
    destruct (openRow (local a) (i, l)); [|done].
    cbn [push local index stones map length replicate concat fst snd].
    assert (List.filter (openRow (local a ++ [rowTask filePath l i])) rows
            = List.filter (openRow (local a)) rows) as ->.
    { apply filter_ext_in. intros il Hin. apply openRow_later. cbn [rowTask t_line].
      intros Heq. apply Hi. rewrite Heq. apply list_elem_of_In.
      exact (in_map fst rows il Hin). }
    unfold setAll. cbn [fold_left]. by rewrite <- !app_assoc.
Qed.

End Walks.

Section MapOps.
Context {V : Type}.
Implicit Types (m : list (str * V)) (k : str) (v : V).

Lemma str_eqb_refl (k : str) : str_eqb k k = true.
Proof. unfold str_eqb. by apply bool_decide_eq_true_2. Qed.

Lemma str_eqb_eq (a b : str) : str_eqb a b = true <-> a = b.
Proof. unfold str_eqb. apply bool_decide_eq_true. Qed.

Lemma str_eqb_neq (a b : str) : str_eqb a b = false <-> a <> b.
Proof. unfold str_eqb. apply bool_decide_eq_false. Qed.

Lemma get_set_eq m k v : JsMap.get k (JsMap.set k v m) = Some v.
Proof.
  induction m as [|[k' v'] m IH]; cbn [JsMap.set JsMap.get].
  - by rewrite str_eqb_refl.
  - destruct (str_eqb k' k) eqn:E; cbn [JsMap.get]; [by rewrite str_eqb_refl|].
    by rewrite E.
Qed.

Lemma get_set_ne m k k' v : k <> k' -> JsMap.get k' (JsMap.set k v m) = JsMap.get k' m.
Proof.
  intros H. induction m as [|[k0 v0] m IH]; cbn [JsMap.set JsMap.get].
  - by rewrite (proj2 (str_eqb_neq k k')).
  - destruct (str_eqb k0 k) eqn:E; cbn [JsMap.get].
    + apply str_eqb_eq in E as ->. by rewrite !(proj2 (str_eqb_neq k k')).
    + by rewrite IH.
Qed.

Lemma in_set m k v (x : str * V) :
  In x (JsMap.set k v m) -> x = (k, v) \/ In x m.
Proof.
  induction m as [|[k0 v0] m IH]; cbn [JsMap.set].
  - intros [<-|[]]. by left.
  - destruct (str_eqb k0 k); intros [<-|H]; auto.
    + by right; right.
    + by right; left.
    + destruct (IH H); auto. by right; right.
Qed.

Lemma get_In m k v : JsMap.get k m = Some v -> In (k, v) m.
Proof.
  induction m as [|[k0 v0] m IH]; cbn [JsMap.get]; [done|].
  destruct (str_eqb k0 k) eqn:E.
  - apply str_eqb_eq in E as ->. intros [= ->]. by left.
  - intros H. right. auto.
Qed.

Lemma In_has m k v : In (k, v) m -> JsMap.has k m = true.
Proof.
  unfold JsMap.has. induction m as [|[k0 v0] m IH]; cbn [JsMap.get]; [done|].
  intros [[= -> ->]|H]; [by rewrite str_eqb_refl|].
  destruct (str_eqb k0 k); auto.
Qed.

Lemma has_set m k k' v :
  JsMap.has k' (JsMap.set k v m) = str_eqb k k' || JsMap.has k' m.
Proof.
  unfold JsMap.has. destruct (str_eqb k k') eqn:E.
  - apply str_eqb_eq in E as <-. by rewrite get_set_eq.
  - apply str_eqb_neq in E. by rewrite get_set_ne.
Qed.

End MapOps.

Section NoteTasks.

Lemma indexed_from (n : nat) (l : list str) :
  map fst (imap (fun i x => (n + i, x)%nat) l) = seq n (length l).
Proof.
  revert n. induction l as [|x l IH]; intros n; cbn [imap map length seq]; [done|].
  rewrite Nat.add_0_r. f_equal. rewrite <- (IH (S n)). f_equal.
  apply imap_ext. intros i y _. cbn. f_equal. lia.
Qed.

Lemma indexed_fst (l : list str) : map fst (indexed l) = seq 0 (length l).
Proof. apply (indexed_from 0). Qed.

Lemma setAll_app (p : str) (a b : list TaskItem) (m : list (str * TaskItem)) :
  setAll p (a ++ b) m = setAll p b (setAll p a m).
Proof. apply fold_left_app. Qed.

(** The scan of a note, in closed form. *)
Lemma scanFile_closed (f : TFile) (c : ProjectCache) :
  let fileLines := split LF (content f) in
  let fromItems := itemTasks (path f) fileLines (default [] (listItems f)) in
  let fromRows := rowTasks (path f) fileLines fromItems in
  scanFile f c
  = {| vault := vault c;
       settings := settings c;
       projects :=
         JsMap.set (path f)
           {| p_file := path f;
              p_tasks := noteTasks f;
              p_percentComplete := percentOf (noteTasks f);
              p_nextDue := nextDueOf (dueProperty (settings c)) (noteTasks f) |}
           (projects c);
       tasks := setAll (path f) (noteTasks f) (tasks c);
       milestones :=
         milestones c
         ++ concat (replicate (length fromRows)
                              (milestonesFrom (path f) fileLines)) |}.
Proof.
  intros fileLines fromItems fromRows. unfold scanFile.
  fold fileLines. rewrite item_walk, row_walk.
  - cbn [local index stones app]. fold fromItems. unfold noteTasks.
    fold fileLines fromItems. unfold rowTasks in fromRows. fold fromRows.
    by rewrite setAll_app.
  - rewrite indexed_fst. apply NoDup_seq.
Qed.

End NoteTasks.

(** ** Invariants of a scan of the vault *)

Section ScanInvariants.

Lemma scan_flagged (st : PmSettings) (fs : list TFile) (c0 : ProjectCache) :
  fold_left (fun acc f => if isProject st f then scanFile f acc else acc) fs c0
  = fold_left (fun acc f => scanFile f acc) (List.filter (isProject st) fs) c0.
Proof.
  revert c0. induction fs as [|f fs IH]; intros c0; cbn [fold_left List.filter]; [done|].
  rewrite IH. by destruct (isProject st f).
Qed.

Lemma scan_ind (P : ProjectCache -> Prop) (fs : list TFile) (c0 : ProjectCache) :
  P c0 ->
  (forall f acc, In f fs -> P acc -> P (scanFile f acc)) ->
  P (fold_left (fun acc f => scanFile f acc) fs c0).
Proof.
  revert c0. induction fs as [|f fs IH]; intros c0 Hc0 Hstep; cbn [fold_left]; [done|].
  apply IH.
  - apply Hstep; [by left|done].
  - intros g acc Hg. apply Hstep. by right.
Qed.

(** Induction over the notes a scan visits. *)
Lemma reindex_ind (c : ProjectCache) (P : ProjectCache -> Prop) :
  P {| vault := vault c; settings := settings c;
       projects := []; tasks := []; milestones := [] |} ->
  (forall f acc, In f (flagged c) -> P acc -> P (scanFile f acc)) ->
  P (reindex c).
Proof.
  intros H0 Hstep. unfold reindex. rewrite scan_flagged. by apply scan_ind.
Qed.

Lemma itemTasks_file (p : str) (ls : list str) (items : list ListItem) (t : TaskItem) :
  In t (itemTasks p ls items) -> t_file t = p.
Proof.
  unfold itemTasks. intros H%list_elem_of_In%list_elem_of_omap.
  destruct H as (item & _ & H). unfold itemTask in H.
  destruct (_ && _) in H; [done|]. by injection H as <-.
Qed.

Lemma rowTasks_file (p : str) (ls : list str) (seen : list TaskItem) (t : TaskItem) :
  In t (rowTasks p ls seen) -> t_file t = p.
Proof. unfold rowTasks. by intros (il & <- & _)%in_map_iff. Qed.

Lemma noteTasks_file (f : TFile) (t : TaskItem) :
  In t (noteTasks f) -> t_file t = path f.
Proof.
  unfold noteTasks. intros [H|H]%in_app_iff.
  - by eapply itemTasks_file.
  - by eapply rowTasks_file.
Qed.

Lemma in_setAll (p : str) (ts : list TaskItem) (m : list (str * TaskItem))
      (x : str * TaskItem) :
  In x (setAll p ts m) ->
  In x m \/ (In (snd x) ts /\ fst x = makeTaskKey p (t_id (snd x))).
Proof.
  revert m. induction ts as [|t ts IH]; intros m; cbn [setAll fold_left]; [by left|].
  intros [H|[H1 H2]]%IH.
  - apply in_set in H as [->|H]; [|by left]. right. split; [by left|done].
  - right. split; [by right|done].
Qed.

End ScanInvariants.

Section ProjectsOfScan.

Lemma scanFile_entry (f : TFile) (c : ProjectCache) :
  projects (scanFile f c) = JsMap.set (path f) (entryOf (settings c) f) (projects c).
Proof. by rewrite scanFile_closed. Qed.

Lemma scanFile_tasks (f : TFile) (c : ProjectCache) :
  tasks (scanFile f c) = setAll (path f) (noteTasks f) (tasks c).
Proof. by rewrite scanFile_closed. Qed.

Lemma scan_settings (fs : list TFile) (c0 : ProjectCache) :
  settings (fold_left (fun acc f => scanFile f acc) fs c0) = settings c0.
Proof.
  apply (scan_ind (fun c => settings c = settings c0)); [done|].
  by intros f acc _ <-.
Qed.

Lemma scan_other_path (p : str) (fs : list TFile) (c0 : ProjectCache) :
  Forall (fun f => path f <> p) fs ->
  JsMap.get p (projects (fold_left (fun acc f => scanFile f acc) fs c0))
  = JsMap.get p (projects c0).
Proof.
  intros H. revert c0. induction H as [|f fs Hf _ IH]; intros c0; cbn [fold_left]; [done|].
  by rewrite IH, scanFile_entry, get_set_ne.
Qed.

Lemma scan_entry (fs : list TFile) (c0 : ProjectCache) (f : TFile) :
  NoDup (map path fs) -> In f fs ->
  JsMap.get (path f) (projects (fold_left (fun acc f => scanFile f acc) fs c0))
  = Some (entryOf (settings c0) f).
Proof.
  revert c0. induction fs as [|g fs IH]; intros c0 Hnd Hin; [done|].
  cbn [map] in Hnd. apply NoDup_cons in Hnd as [Hg Hnd]. cbn [fold_left].
  destruct Hin as [->|Hin].
  - rewrite scan_other_path, scanFile_entry; [apply get_set_eq|].
    apply List.Forall_forall. intros h Hh Heq. apply Hg.
    rewrite <- Heq. apply list_elem_of_In. by apply in_map.
  - by rewrite IH.
Qed.

End ProjectsOfScan.

(** X1. After a scan of the vault, the entry of a flagged note holds,
    as its tasks, the tasks of its list items in their order followed
    by one task for every table-task row, in line order, at whose line
    no list-item task sits; its completion ratio and next due date are
    those of that list.  No two flagged notes share a path. *)
Theorem project_entry_of_note (c : ProjectCache) (f : TFile) :
  NoDup (map path (flagged c)) ->
  In f (flagged c) ->
  getProject (reindex c) (path f) = Some (entryOf (settings c) f)
  /\ getProjectTasks (reindex c) (path f) = noteTasks f.
Proof.
  intros Hnd Hin. unfold getProject, getProjectTasks, reindex.
  rewrite scan_flagged. fold (flagged c).
  by rewrite (scan_entry _ _ f Hnd Hin).
Qed.

Lemma project_entry_of_note_witness :
  let c := Sample.cacheOf [Sample.milestonesAndRows] in
  NoDup (map path (flagged c))
  /\ In Sample.milestonesAndRows (flagged c)
  /\ map t_id (getProjectTasks (reindex c) (js "Plan.md")) = [js "s-1"; js "s-2"].
Proof.
  intros c.
  assert (NoDup (map path (flagged c))) as Hnd.
  { vm_compute. apply NoDup_singleton. }
  assert (In Sample.milestonesAndRows (flagged c)) as Hin by (by left).
  split; [exact Hnd|]. split; [exact Hin|].
  destruct (project_entry_of_note c Sample.milestonesAndRows Hnd Hin) as [_ H].
  change (js "Plan.md") with (path Sample.milestonesAndRows).
  rewrite H. vm_compute. reflexivity.
Defined.

(** X2. A path that is the path of no flagged note has no entry after a
    scan: [getProject] gives nothing and [getProjectTasks] the empty
    list. *)
Theorem unknown_project_is_empty (c : ProjectCache) (p : str) :
  Forall (fun f => path f <> p) (flagged c) ->
  getProject (reindex c) p = None /\ getProjectTasks (reindex c) p = [].
Proof.
  intros H. unfold getProject, getProjectTasks, reindex.
  rewrite scan_flagged. fold (flagged c). by rewrite scan_other_path.
Qed.

Lemma unknown_project_is_empty_witness :
  let c := Sample.cacheOf [Sample.twoRows] in
  Forall (fun f => path f <> js "Other.md") (flagged c)
  /\ getProjectTasks (reindex c) (js "Other.md") = [].
Proof.
  intros c.
  assert (Forall (fun f => path f <> js "Other.md") (flagged c)) as H.
  { repeat constructor. vm_compute. discriminate. }
  split; [exact H|]. by destruct (unknown_project_is_empty c (js "Other.md") H).
Defined.

(** X3. The line walk yields at most one task per line and none at a
    line where one of the tasks [seen] sits; each of its tasks sits at
    a table-task row of the note. *)
Theorem line_walk_once (filePath : str) (fileLines : list str) (seen : list TaskItem) :
  NoDup (map t_line (rowTasks filePath fileLines seen))
  /\ forall t, In t (rowTasks filePath fileLines seen) ->
       (forall t', In t' seen -> t_line t' <> t_line t)
       /\ exists line, fileLines !! t_line t = Some line
                       /\ test_at Pat.tableTaskRow line = true.
Proof.
  unfold rowTasks. split.
  - rewrite map_map. cbn [rowTask t_line].
    assert (forall l : list (nat * str),
               NoDup (map fst l) -> NoDup (map fst (List.filter (openRow seen) l))) as H.
    { induction l as [|x l IH]; cbn [List.filter map]; [done|].
      intros [Hx Hl]%NoDup_cons. destruct (openRow seen x); [|auto].
      cbn [map]. apply NoDup_cons. split; [|auto].
      intros Hin%list_elem_of_In%in_map_iff. destruct Hin as (y & Hy & Hin).
      apply filter_In in Hin as [Hin _]. apply Hx. rewrite <- Hy.
      apply list_elem_of_In. by apply in_map. }
    apply H. rewrite indexed_fst. apply NoDup_seq.
  - intros t ([i l] & <- & [Hin Hopen]%filter_In)%in_map_iff. cbn [rowTask t_line fst snd].
    unfold openRow in Hopen. cbn [fst snd] in Hopen.
    apply andb_true_iff in Hopen as [Hrow Hseen]. split.
    + intros t' Ht' Heq. apply negb_true_iff in Hseen.
      assert (existsb (fun t0 => Nat.eqb (t_line t0) i) seen = true); [|congruence].
      apply existsb_exists. exists t'. split; [done|]. by apply Nat.eqb_eq.
    + exists l. split; [|done]. unfold indexed in Hin.
      apply list_elem_of_In, elem_of_lookup_imap in Hin as (j & y & [= -> ->] & H). done.
Qed.

Section MilestonesOfScan.

Lemma scanFile_milestones (f : TFile) (c : ProjectCache) :
  milestones (scanFile f c) = milestones c ++ noteMilestones f.
Proof. by rewrite scanFile_closed. Qed.

Lemma scan_milestones (fs : list TFile) (c0 : ProjectCache) :
  milestones (fold_left (fun acc f => scanFile f acc) fs c0)
  = milestones c0 ++ concat (map noteMilestones fs).
Proof.
  revert c0. induction fs as [|f fs IH]; intros c0; cbn [fold_left map concat].
  - by rewrite app_nil_r.
  - by rewrite IH, scanFile_milestones, app_assoc.
Qed.

Lemma milestoneRows_fields (p : str) (rows : list str) (m : Milestone) :
  In m (milestoneRows p rows) ->
  test_at Pat.dateRe (ms_date m) = true /\ ms_file m = p.
Proof.
  induction rows as [|row rows IH]; cbn [milestoneRows]; [done|].
  destruct (negb (test_at Pat.startsWithPipe row)); [intros []|]. cbv zeta.
  destruct (length _ <? 4)%nat; [done|].
  destruct (test_at Pat.dateRe (default [] _)) eqn:E; cbn [negb]; [|exact IH].
  intros [<-|H]; [split; [exact E|reflexivity]|auto].
Qed.

Lemma milestonesFrom_fields (p : str) (lines : list str) (m : Milestone) :
  In m (milestonesFrom p lines) ->
  test_at Pat.dateRe (ms_date m) = true /\ ms_file m = p.
Proof.
  induction lines as [|line lines IH]; cbn [milestonesFrom]; [intros []|].
  intros [H|H]%in_app_iff; [|auto].
  destruct (isMilestoneHeader line); [|destruct H]. by eapply milestoneRows_fields.
Qed.

End MilestonesOfScan.

(** X4. The milestone list after a scan of the vault is, note by note
    in the order of the vault, the milestone scan of the note repeated
    once for every task its line walk yields. *)
Theorem milestones_of_scan (c : ProjectCache) :
  milestones (reindex c) = concat (map noteMilestones (flagged c)).
Proof. unfold reindex. rewrite scan_flagged. apply scan_milestones. Qed.

(** X5. Every milestone of the index has a date of the shape
    dddd-dd-dd and carries the path of a flagged note of the vault. *)
Theorem milestone_fields (c : ProjectCache) (m : Milestone) :
  In m (milestones (reindex c)) ->
  test_at Pat.dateRe (ms_date m) = true
  /\ exists f, In f (vault c) /\ isProject (settings c) f = true /\ ms_file m = path f.
Proof.
  unfold reindex. rewrite scan_flagged, scan_milestones. cbn [milestones app].
  intros (l & (f & <- & Hf)%in_map_iff & Hm)%in_concat.
  unfold noteMilestones in Hm.
  apply in_concat in Hm as (l' & Hl' & Hm).
  apply list_elem_of_In, elem_of_replicate in Hl' as [-> _].
  apply milestonesFrom_fields in Hm as [Hd Hp]. split; [done|].
  apply filter_In in Hf as [Hin Hflag]. eauto.
Qed.

Lemma milestone_fields_witness :
  let c := Sample.cacheOf [Sample.milestonesAndRows] in
  In Sample.launch (milestones (reindex c))
  /\ test_at Pat.dateRe (ms_date Sample.launch) = true.
Proof.
  intros c. assert (In Sample.launch (milestones (reindex c))) as H by (by left).
  split; [exact H|]. by destruct (milestone_fields c Sample.launch H).
Defined.

Section TaskIndex.

Lemma setAll_keyed (f : TFile) (m : list (str * TaskItem)) :
  setAll (path f) (noteTasks f) m = setEach (keyed f) m.
Proof.
  unfold setAll, setEach, keyed. generalize (noteTasks f) as ts. intros ts. revert m.
  induction ts as [|t ts IH]; intros m; cbn [fold_left map fst snd]; [done|]. apply IH.
Qed.

Lemma scan_tasks (fs : list TFile) (c0 : ProjectCache) :
  tasks (fold_left (fun acc f => scanFile f acc) fs c0)
  = setEach (concat (map keyed fs)) (tasks c0).
Proof.
  revert c0. induction fs as [|f fs IH]; intros c0; cbn [fold_left map concat]; [done|].
  rewrite IH, scanFile_tasks, setAll_keyed. unfold setEach. by rewrite fold_left_app.
Qed.

Lemma reindex_tasks (c : ProjectCache) : tasks (reindex c) = setEach (scanOrder c) [].
Proof. unfold reindex. rewrite scan_flagged. apply scan_tasks. Qed.

Lemma find_app {A} (P : A -> bool) (a b : list A) :
  List.find P (a ++ b)
  = match List.find P a with Some x => Some x | None => List.find P b end.
Proof. induction a as [|x a IH]; cbn [app List.find]; [done|]. by destruct (P x). Qed.

Lemma get_set (m : list (str * TaskItem)) (k k' : str) (v : TaskItem) :
  JsMap.get k' (JsMap.set k v m) = if str_eqb k k' then Some v else JsMap.get k' m.
Proof.
  destruct (str_eqb k k') eqn:E.
  - apply str_eqb_eq in E as <-. apply get_set_eq.
  - apply str_eqb_neq in E. by apply get_set_ne.
Qed.

Lemma get_setEach (kvs m : list (str * TaskItem)) (k : str) :
  JsMap.get k (setEach kvs m)
  = match List.find (fun kt => str_eqb (fst kt) k) (rev kvs) with
    | Some kt => Some (snd kt)
    | None => JsMap.get k m
    end.
Proof.
  revert m. induction kvs as [|[k0 v0] kvs IH]; intros m; [done|].
  cbn [setEach fold_left rev fst snd]. fold (setEach kvs (JsMap.set k0 v0 m)).
  rewrite IH, find_app. destruct (List.find _ (rev kvs)); [done|].
  cbn [List.find fst snd]. rewrite get_set. by destruct (str_eqb k0 k).
Qed.

Lemma in_setEach (kvs m : list (str * TaskItem)) (x : str * TaskItem) :
  In x (setEach kvs m) -> In x m \/ In x kvs.
Proof.
  revert m. induction kvs as [|[k0 v0] kvs IH]; intros m; cbn [setEach fold_left fst snd].
  - by left.
  - fold (setEach kvs (JsMap.set k0 v0 m)). intros [H|H]%IH.
    + apply in_set in H as [->|H]; [right; by left|by left].
    + right. by right.
Qed.

Lemma in_scanOrder (c : ProjectCache) (k : str) (t : TaskItem) :
  In (k, t) (scanOrder c) <->
  exists f, In f (flagged c) /\ In t (noteTasks f) /\ k = makeTaskKey (path f) (t_id t).
Proof.
  unfold scanOrder, keyed. rewrite in_concat. split.
  - intros (l & (f & <- & Hf)%in_map_iff & (t' & [= <- <-] & Ht)%in_map_iff). eauto.
  - intros (f & Hf & Ht & ->). eexists. split.
    + apply in_map_iff. eauto.
    + apply in_map_iff. eauto.
Qed.

Lemma find_rev_unique (kvs : list (str * TaskItem)) (k : str) (t : TaskItem) :
  In (k, t) kvs ->
  (forall t', In (k, t') kvs -> t' = t) ->
  List.find (fun kt => str_eqb (fst kt) k) (rev kvs) = Some (k, t).
Proof.
  intros Hin Huniq.
  destruct (List.find _ (rev kvs)) as [[k' t']|] eqn:E.
  - apply find_some in E as [Hin' Hk]. cbn [fst] in Hk. apply str_eqb_eq in Hk as ->.
    apply in_rev in Hin'. by rewrite (Huniq t' Hin').
  - apply in_rev in Hin. apply (find_none _ _ E (k, t)) in Hin.
    cbn [fst] in Hin. by rewrite str_eqb_refl in Hin.
Qed.

End TaskIndex.

(** X6. The task index after a scan holds, under every key, the task of
    the last [set] for that key in the order of the scan: of two tasks
    with the same path and id up to case, the later one replaces the
    earlier. *)
Theorem task_index_last_wins (c : ProjectCache) (k : str) :
  JsMap.get k (tasks (reindex c))
  = snd <$> List.find (fun kt => str_eqb (fst kt) k) (rev (scanOrder c)).
Proof.
  rewrite reindex_tasks, get_setEach. by destruct (List.find _ _).
Qed.

(** X7. Every entry of the task index after a scan is a task of a
    flagged note of the vault, stored under the composite key of the
    note's path and the task's id, and the task names that note as its
    file. *)
Theorem task_index_sound (c : ProjectCache) (k : str) (t : TaskItem) :
  In (k, t) (tasks (reindex c)) ->
  exists f, In f (vault c) /\ isProject (settings c) f = true
            /\ In t (noteTasks f)
            /\ k = makeTaskKey (path f) (t_id t)
            /\ t_file t = path f.
Proof.
  rewrite reindex_tasks. intros [[]|H]%in_setEach.
  apply in_scanOrder in H as (f & [Hv Hp]%filter_In & Ht & ->).
  exists f. repeat split; try done. by apply noteTasks_file.
Qed.

Lemma task_index_sound_witness :
  let c := Sample.cacheOf [Sample.twoRows] in
  exists k t f, In (k, t) (tasks (reindex c)) /\ In f (vault c) /\ t_file t = path f.
Proof.
  intros c.
  assert (exists kt, hd_error (tasks (reindex c)) = Some kt) as [[k t] E]
    by (eexists; vm_compute; reflexivity).
  assert (In (k, t) (tasks (reindex c))) as H.
  { destruct (tasks (reindex c)); [discriminate|]. injection E as ->. by left. }
  destruct (task_index_sound c k t H) as (f & Hv & _ & _ & _ & Hf).
  exists k, t, f. auto.
Defined.

(** X8. A task whose composite key no other task of the scan shares is
    what [getTask] returns for that key. *)
Theorem getTask_composite_key (c : ProjectCache) (f : TFile) (t : TaskItem) :
  In f (vault c) -> isProject (settings c) f = true -> In t (noteTasks f) ->
  (forall f' t', In f' (vault c) -> isProject (settings c) f' = true ->
                 In t' (noteTasks f') ->
                 makeTaskKey (path f') (t_id t') = makeTaskKey (path f) (t_id t) ->
                 t' = t) ->
  getTask (reindex c) (makeTaskKey (path f) (t_id t)) = Some t.
Proof.
  intros Hv Hp Ht Huniq.
  assert (JsMap.get (makeTaskKey (path f) (t_id t)) (tasks (reindex c)) = Some t) as G.
  { rewrite reindex_tasks, get_setEach.
    rewrite (find_rev_unique _ _ t); [done| |].
    - apply in_scanOrder. exists f. split; [by apply filter_In|done].
    - intros t' (f' & [Hv' Hp']%filter_In & Ht' & Hk)%in_scanOrder.
      by apply (Huniq f' t'). }
  unfold getTask, JsMap.has. by rewrite G.
Qed.

Lemma getTask_composite_key_witness :
  let c := Sample.cacheOf [Sample.twoRows] in
  let t := rowTask (js "Plan.md") (js "| S-1 | E-1 | - [ ] Design |") 0 in
  getTask (reindex c) (js "plan.md::s-1") = Some t.
Proof.
  intros c t.
  apply (getTask_composite_key c Sample.twoRows t).
  - by left.
  - vm_compute. reflexivity.
  - left. vm_compute. reflexivity.
  - intros f' t' [<-|[]] _ Ht' Hk.
    assert (noteTasks Sample.twoRows
            = [t; rowTask (js "Plan.md") (js "| S-2 | E-1 | - [ ] Build |") 1]) as E
      by (vm_compute; reflexivity).
    rewrite E in Ht'. destruct Ht' as [<-|[<-|[]]]; [reflexivity|].
    vm_compute in Hk. discriminate Hk.
Defined.

Section GetTask.

Lemma find_endsWith (m : list (str * TaskItem)) (suffix k : str) (t : TaskItem) :
  In (k, t) m -> endsWith suffix k = true ->
  exists kt, List.find (fun kt => endsWith suffix (fst kt)) m = Some kt.
Proof.
  intros Hin Hk.
  destruct (List.find _ m) as [kt|] eqn:E; [by exists kt|].
  apply (find_none _ _ E) in Hin. cbn [fst] in Hin. congruence.
Qed.

Lemma in_setEach_last (kvs m : list (str * TaskItem)) (k : str) (t : TaskItem) :
  In (k, t) kvs -> exists t', In (k, t') (setEach kvs m).
Proof.
  intros Hin.
  assert (JsMap.get k (setEach kvs m) <> None) as H.
  { rewrite get_setEach.
    destruct (List.find _ (rev kvs)) eqn:E; [done|].
    apply in_rev in Hin. apply (find_none _ _ E) in Hin.
    cbn [fst] in Hin. by rewrite str_eqb_refl in Hin. }
  destruct (JsMap.get k (setEach kvs m)) as [t'|] eqn:E; [|done].
  exists t'. by apply get_In.
Qed.

End GetTask.

(** X9. Whatever [getTask] returns after a scan is a task of a flagged
    note; its composite key is the argument itself or ends with [::]
    and the lower-cased argument. *)
Theorem getTask_sound (c : ProjectCache) (taskId : str) (t : TaskItem) :
  getTask (reindex c) taskId = Some t ->
  exists f, In f (vault c) /\ isProject (settings c) f = true
            /\ In t (noteTasks f)
            /\ (makeTaskKey (path f) (t_id t) = taskId
                \/ endsWith (js "::" ++ toLowerCase taskId)
                            (makeTaskKey (path f) (t_id t)) = true).
Proof.
  unfold getTask. intros H.
  assert (exists k, In (k, t) (tasks (reindex c))
                    /\ (k = taskId \/ endsWith (js "::" ++ toLowerCase taskId) k = true))
    as (k & Hin & Hk).
  { destruct (JsMap.has taskId (tasks (reindex c))).
    - exists taskId. split; [by apply get_In|by left].
    - destruct (List.find _ (tasks (reindex c))) as [[k t']|] eqn:E; [|done].
      injection H as ->. apply find_some in E as [Hin Hk]. exists k. auto. }
  rewrite reindex_tasks in Hin. apply in_setEach in Hin as [[]|Hin].
  apply in_scanOrder in Hin as (f & [Hv Hp]%filter_In & Ht & ->).
  exists f. auto.
Qed.

Lemma getTask_sound_witness :
  let c := Sample.cacheOf [Sample.twoRows] in
  exists t f, getTask (reindex c) (js "S-2") = Some t
              /\ In f (vault c) /\ In t (noteTasks f).
Proof.
  intros c.
  assert (exists t, getTask (reindex c) (js "S-2") = Some t) as [t E]
    by (eexists; vm_compute; reflexivity).
  destruct (getTask_sound c (js "S-2") t E) as (f & Hv & _ & Ht & _).
  exists t, f. auto.
Defined.

(** X10. After a scan, [getTask] finds a task for the bare id of every
    task of every flagged note, in whatever case the id is written. *)
Theorem getTask_bare_id_found (c : ProjectCache) (f : TFile) (t : TaskItem) (taskId : str) :
  In f (vault c) -> isProject (settings c) f = true -> In t (noteTasks f) ->
  toLowerCase taskId = toLowerCase (t_id t) ->
  exists t', getTask (reindex c) taskId = Some t'.
Proof.
  intros Hv Hp Ht Hid. unfold getTask.
  destruct (JsMap.has taskId (tasks (reindex c))) eqn:Hhas.
  - unfold JsMap.has in Hhas. destruct (JsMap.get taskId _) as [t'|]; [by exists t'|done].
  - assert (In (makeTaskKey (path f) (t_id t), t) (scanOrder c)) as Hin.
    { apply in_scanOrder. exists f. split; [by apply filter_In|done]. }
    apply (in_setEach_last _ []) in Hin as [t' Hin]. rewrite <- reindex_tasks in Hin.
    destruct (find_endsWith _ (js "::" ++ toLowerCase taskId) _ _ Hin) as [kt E].
    + rewrite Hid. unfold makeTaskKey. apply endsWith_app.
    + rewrite E. by exists (snd kt).
Qed.

Lemma getTask_bare_id_found_witness :
  let c := Sample.cacheOf [Sample.twoRows] in
  exists t', getTask (reindex c) (js "S-2") = Some t'.
Proof.
  intros c.
  apply (getTask_bare_id_found c Sample.twoRows
           (rowTask (js "Plan.md") (js "| S-2 | E-1 | - [ ] Build |") 1)).
  - by left.
  - vm_compute. reflexivity.
  - right. left. vm_compute. reflexivity.
  - vm_compute. reflexivity.
Defined.

Section Progress.

Lemma checked_count (ts : list TaskItem) :
  (length (filter (fun t => t_checked t = true) ts) <= length ts)%nat
  /\ (length (filter (fun t => t_checked t = true) ts) = length ts
      <-> forall t, In t ts -> t_checked t = true).
Proof.
  induction ts as [|t ts [IH1 IH2]]; [split; [done|split; [intros _ t []|done]]|].
  rewrite filter_cons. destruct (decide (t_checked t = true)) as [E|E]; cbn [length].
  - split; [lia|]. split.
    + intros H t' [<-|Ht']; [done|]. apply IH2; [lia|done].
    + intros H. f_equal. apply IH2. intros t' Ht'. apply H. by right.
  - split; [lia|]. split; [lia|]. intros H. destruct E. apply H. by left.
Qed.

Lemma ltb_irrefl (a : str) : ltb a a = false.
Proof.
  induction a as [|x a IH]; cbn [ltb]; [done|].
  rewrite IH, N.ltb_irrefl. by rewrite andb_false_r.
Qed.

Lemma ltb_trans (a b c : str) : ltb a b = true -> ltb b c = true -> ltb a c = true.
Proof.
  revert b c. induction a as [|x a IH]; intros [|y b] [|z c]; cbn [ltb]; try done.
  intros H1 H2.
  apply orb_true_iff in H1 as [H1|[H1 H1']%andb_true_iff];
    apply orb_true_iff in H2 as [H2|[H2 H2']%andb_true_iff];
    apply orb_true_iff.
  - left. apply N.ltb_lt in H1, H2. apply N.ltb_lt. lia.
  - left. apply N.ltb_lt in H1. apply N.eqb_eq in H2. apply N.ltb_lt. lia.
  - left. apply N.ltb_lt in H2. apply N.eqb_eq in H1. apply N.ltb_lt. lia.
  - right. apply N.eqb_eq in H1, H2. apply andb_true_iff. split.
    + apply N.eqb_eq. lia.
    + by apply (IH b c).
Qed.


Lemma nextDue_step (dueProp : str) (ts : list TaskItem) (r : option str) (t : TaskItem) :
  earliest dueProp ts r ->
  earliest dueProp (ts ++ [t])
    (match t_props t !! dueProp with
     | Some due =>
         if negb (str_eqb due []) && negb (t_checked t)
            && match r with
               | None => true
               | Some n => str_eqb n [] || ltb due n
               end
         then Some due else r
     | None => r
     end).
Proof.
  intros I.
  assert (forall t' due', In t' (ts ++ [t]) -> t_props t' !! dueProp = Some due' ->
            In t' ts \/ (t' = t /\ t_props t !! dueProp = Some due')) as Hcase.
  { intros t' due' [H|[<-|[]]]%in_app_iff E; auto. }
  destruct (t_props t !! dueProp) as [due|] eqn:Edue.
  - destruct (str_eqb due []) eqn:Eempty; cbn [negb andb].
    { apply str_eqb_eq in Eempty as ->.
      destruct r as [n|]; cbn [earliest] in *.
      - destruct I as (Hn & (t0 & Ht0 & Hp0 & Hc0) & Hmin). split; [done|]. split.
        + exists t0. split; [apply in_app_iff; by left|done].
        + intros t' due' Hin E Hne Hc.
          destruct (Hcase t' due' Hin E) as [H|[-> H]]; [by eapply Hmin|congruence].
      - intros t' due' Hin E.
        destruct (Hcase t' due' Hin E) as [H|[-> H]]; [by eapply I|left; congruence]. }
    apply str_eqb_neq in Eempty.
    destruct (t_checked t) eqn:Echecked; cbn [negb andb].
    { destruct r as [n|]; cbn [earliest] in *.
      - destruct I as (Hn & (t0 & Ht0 & Hp0 & Hc0) & Hmin). split; [done|]. split.
        + exists t0. split; [apply in_app_iff; by left|done].
        + intros t' due' Hin E Hne Hc.
          destruct (Hcase t' due' Hin E) as [H|[-> H]]; [by eapply Hmin|congruence].
      - intros t' due' Hin E.
        destruct (Hcase t' due' Hin E) as [H|[-> H]]; [by eapply I|by right]. }
    destruct r as [n|]; cbn [earliest] in *.
    + destruct I as (Hn & (t0 & Ht0 & Hp0 & Hc0) & Hmin).
      rewrite (proj2 (str_eqb_neq n []) Hn). cbn [orb].
      destruct (ltb due n) eqn:Elt.
      * split; [done|]. split.
        -- exists t. split; [apply in_app_iff; right; by left|done].
        -- intros t' due' Hin E Hne Hc.
           destruct (Hcase t' due' Hin E) as [H|[-> H]].
           ++ destruct (ltb due' due) eqn:E'; [|done].
              rewrite <- (Hmin t' due' H E Hne Hc). symmetry. by apply (ltb_trans _ due).
           ++ injection H as <-. apply ltb_irrefl.
      * split; [done|]. split.
        -- exists t0. split; [apply in_app_iff; by left|done].
        -- intros t' due' Hin E Hne Hc.
           destruct (Hcase t' due' Hin E) as [H|[-> H]]; [by eapply Hmin|].
           by injection H as <-.
    + split; [done|]. split.
      * exists t. split; [apply in_app_iff; right; by left|done].
      * intros t' due' Hin E Hne Hc.
        destruct (Hcase t' due' Hin E) as [H|[-> H]].
        -- destruct (I t' due' H E); congruence.
        -- injection H as <-. apply ltb_irrefl.
  - destruct r as [n|]; cbn [earliest] in *.
    + destruct I as (Hn & (t0 & Ht0 & Hp0 & Hc0) & Hmin). split; [done|]. split.
      * exists t0. split; [apply in_app_iff; by left|done].
      * intros t' due' Hin E Hne Hc.
        destruct (Hcase t' due' Hin E) as [H|[-> H]]; [by eapply Hmin|congruence].
    + intros t' due' Hin E.
      destruct (Hcase t' due' Hin E) as [H|[-> H]]; [by eapply I|congruence].
Qed.

End Progress.

(** X11. The completion ratio of a project lies between 0 and 1, and
    it is 1 exactly when every task is checked (a project without
    tasks included). *)
Theorem percent_complete_range (ts : list TaskItem) :
  (0 <= percentOf ts)%Q /\ (percentOf ts <= 1)%Q
  /\ ((percentOf ts == 1)%Q <-> forall t, In t ts -> t_checked t = true).
Proof.
  destruct (checked_count ts) as [Hle Hall]. unfold percentOf in *.
  destruct ts as [|t ts].
  - cbn [length]. split; [done|]. split; [done|]. split; [intros _ t []|done].
  - remember (t :: ts) as l. replace (length l) with (S (length ts)) in * by (by subst l).
    set (d := length (filter (fun t => t_checked t = true) l)) in *.
    unfold Qle, Qeq. cbn [Qnum Qden].
    rewrite Znat.Zpos_P_of_succ_nat.
    split; [lia|]. split; [lia|]. rewrite <- Hall. lia.
Qed.

(** X12. [nextDue] of a project entry is the least due date, in the
    order of [<] on strings, among the unchecked tasks that have a
    non-empty due date, and it is undefined exactly when there is no
    such task. *)
Theorem next_due_is_earliest (dueProp : str) (ts : list TaskItem) :
  match nextDueOf dueProp ts with
  | None =>
      forall t due, In t ts -> t_props t !! dueProp = Some due ->
                    due = [] \/ t_checked t = true
  | Some n =>
      n <> []
      /\ (exists t, In t ts /\ t_props t !! dueProp = Some n /\ t_checked t = false)
      /\ forall t due, In t ts -> t_props t !! dueProp = Some due ->
                       due <> [] -> t_checked t = false -> ltb due n = false
  end.
Proof.
  change (earliest dueProp ts (nextDueOf dueProp ts)).
  unfold nextDueOf. induction ts as [|t ts IH] using rev_ind.
  - intros t due [].
  - rewrite fold_left_app. cbn [fold_left]. by apply nextDue_step.
Qed.

Section TaskShape.

Lemma orNoText_nonempty (s : str) : orNoText s <> [].
Proof.
  unfold orNoText. destruct (str_eqb s []) eqn:E; [done|]. by apply str_eqb_neq.
Qed.

Lemma statusOf_done (line : str) : statusOf line = Done -> test doneGlyph line = true.
Proof.
  unfold statusOf. destruct (test doneGlyph line); [done|].
  destruct (test progressGlyph line); [done|]. by destruct (test holdGlyph line).
Qed.

Lemma in_itemTasks (p : str) (ls : list str) (items : list ListItem) (t : TaskItem) :
  In t (itemTasks p ls items) ->
  exists item, In item items /\ itemTask p ls item = Some t.
Proof.
  unfold itemTasks. intros (item & Hin & H)%list_elem_of_In%list_elem_of_omap.
  exists item. split; [by apply list_elem_of_In|done].
Qed.

Lemma in_rowTasks (p : str) (ls : list str) (seen : list TaskItem) (t : TaskItem) :
  In t (rowTasks p ls seen) -> exists idx line, t = rowTask p line idx.
Proof. unfold rowTasks. intros ([i l] & <- & _)%in_map_iff. by exists i, l. Qed.

(** Every task of either walk is assembled from one line and one
    property table. *)
Lemma noteTasks_shape (f : TFile) (t : TaskItem) :
  In t (noteTasks f) ->
  exists line props txt,
    t_props t = props /\ t_depends t = dependsOf props
    /\ t_text t = orNoText txt
    /\ t_status t = statusOf line
    /\ (test doneGlyph line = true -> t_checked t = true).
Proof.
  unfold noteTasks. intros [H|H]%in_app_iff.
  - apply in_itemTasks in H as (item & _ & H). unfold itemTask in H.
    destruct (_ && _); [done|]. injection H as <-. cbn.
    eexists _, _, _. repeat split. intros ->. apply orb_true_r.
  - apply in_rowTasks in H as (idx & line & ->). cbn.
    eexists _, _, _. repeat split. done.
Qed.

Lemma in_trimStart (c : N) (s : str) : In c (trimStart s) -> In c s.
Proof.
  induction s as [|x s IH]; cbn [trimStart]; [done|].
  destruct (is_ws x); [|done]. intros H. right. auto.
Qed.

Lemma in_trim (c : N) (s : str) : In c (trim s) -> In c s.
Proof.
  unfold trim, trimEnd. intros H%in_rev%in_trimStart%in_rev. by apply in_trimStart.
Qed.

Lemma splitDeps_pieces (inSep : bool) (cur s : str) :
  Forall (fun c => isDepSep c = false) cur ->
  Forall (Forall (fun c => isDepSep c = false)) (splitDeps inSep cur s).
Proof.
  revert inSep cur. induction s as [|c s IH]; intros inSep cur Hcur; cbn [splitDeps].
  - apply Forall_cons. split; [|done]. by apply Forall_rev.
  - destruct (isDepSep c) eqn:E.
    + destruct inSep; [by apply IH|].
      apply Forall_cons. split; [by apply Forall_rev|]. by apply IH.
    + apply IH. by apply Forall_cons.
Qed.

Lemma lower_sep (c : N) : isDepSep (lower c) = isDepSep c.
Proof.
  unfold lower, is_upper, between. destruct ((65 <=? c) && (c <=? 90)) eqn:E; [|done].
  apply andb_true_iff in E as [H1%N.leb_le H2%N.leb_le].
  unfold isDepSep, oneOf. cbn [existsb].
  replace (c + 32 =? ch ",") with false by (symmetry; apply N.eqb_neq; cbn; lia).
  replace (c + 32 =? SP) with false by (symmetry; apply N.eqb_neq; cbn; lia).
  replace (c =? ch ",") with false by (symmetry; apply N.eqb_neq; cbn; lia).
  replace (c =? SP) with false by (symmetry; apply N.eqb_neq; cbn; lia).
  done.
Qed.

Lemma depId_chars (d : str) (c : N) :
  Forall (fun c => isDepSep c = false) d -> In c (depId d) -> isDepSep c = false.
Proof.
  intros Hd. unfold depId, toLowerCase. intros (c0 & <- & H%in_trim)%in_map_iff.
  rewrite lower_sep. rewrite List.Forall_forall in Hd. apply Hd.
  destruct d as [|x d]; [done|]. destruct (isc CARET x); [by right|done].
Qed.

End TaskShape.

(** X13. A task whose status is done is checked, whichever walk found
    it, and its text is never empty. *)
Theorem done_task_is_checked (f : TFile) (t : TaskItem) :
  In t (noteTasks f) ->
  (t_status t = Done -> t_checked t = true) /\ t_text t <> [].
Proof.
  intros (line & props & txt & _ & _ & Htxt & Hst & Hch)%noteTasks_shape. split.
  - rewrite Hst. intros H%statusOf_done. auto.
  - rewrite Htxt. apply orNoText_nonempty.
Qed.

Lemma done_task_is_checked_witness :
  let t := rowTask (js "Plan.md") (js "| S-2 | E-1 | - [x] Build |") 5 in
  In t (noteTasks Sample.milestonesAndRows)
  /\ t_status t = Done /\ t_checked t = true.
Proof.
  intros t.
  assert (In t (noteTasks Sample.milestonesAndRows)) as H
    by (right; left; vm_compute; reflexivity).
  split; [exact H|]. split; [vm_compute; reflexivity|].
  apply (done_task_is_checked Sample.milestonesAndRows t H). vm_compute. reflexivity.
Defined.

Lemma dependsOf_normalised (props : Props) (d : str) :
  In d (dependsOf props) ->
  d <> [] /\ toLowerCase d = d /\ forall c, In c d -> isDepSep c = false.
Proof.
  unfold dependsOf. destruct (props !! js "depends") as [depAttr|]; [|done].
  destruct (str_eqb depAttr []); [done|].
  intros [Hne (piece & <- & Hpiece)%list_elem_of_In%in_map_iff]%list_elem_of_In%list_elem_of_filter.
  split; [done|]. split.
  - unfold depId. apply toLowerCase_idem.
  - intros c. apply depId_chars.
    pose proof (splitDeps_pieces false [] depAttr (List.Forall_nil _)) as H.
    rewrite List.Forall_forall in H. by apply H.
Qed.

(** X14. The dependency list of a task holds only ids that are not
    empty, contain neither a comma nor a space, and are in lower
    case. *)
Theorem depends_ids_normalised (f : TFile) (t : TaskItem) (d : str) :
  In t (noteTasks f) -> In d (t_depends t) ->
  d <> [] /\ toLowerCase d = d /\ forall c, In c d -> isDepSep c = false.
Proof.
  intros (line & props & txt & _ & -> & _)%noteTasks_shape. apply dependsOf_normalised.
Qed.

Lemma depends_ids_normalised_witness :
  let row := js "| S-2 | E-1 | - [ ] Build | depends:: ^S-1, E-2 |" in
  let f := Sample.note "Plan.md" None ["| S-2 | E-1 | - [ ] Build | depends:: ^S-1, E-2 |"%string] in
  let t := rowTask (js "Plan.md") row 0 in
  In t (noteTasks f) /\ t_depends t = [js "s-1"; js "e-2"]
  /\ toLowerCase (js "e-2") = js "e-2".
Proof.
  intros row f t.
  assert (In t (noteTasks f)) as H by (left; vm_compute; reflexivity).
  assert (t_depends t = [js "s-1"; js "e-2"]) as E by (vm_compute; reflexivity).
  split; [exact H|]. split; [exact E|].
  apply (depends_ids_normalised f t (js "e-2") H). rewrite E. right. by left.
Defined.

Section PropertyKeys.

Lemma lowerKeys_insert (k v : str) (props : Props) :
  toLowerCase k = k ->
  map_Forall (fun k _ => toLowerCase k = k) props ->
  map_Forall (fun k _ => toLowerCase k = k) (<[k := v]> props).
Proof. intros Hk Hp. by apply map_Forall_insert_2. Qed.

Lemma lowerKeys_setIf (k : str) (v : option str) (props : Props) :
  toLowerCase k = k ->
  map_Forall (fun k _ => toLowerCase k = k) props ->
  map_Forall (fun k _ => toLowerCase k = k) (setIf k v props).
Proof. destruct v; cbn [setIf]; [apply lowerKeys_insert|done]. Qed.

Lemma lowerKeys_attrProps (attrs : option (list (str * str))) (props : Props) :
  map_Forall (fun k _ => toLowerCase k = k) props ->
  map_Forall (fun k _ => toLowerCase k = k) (attrProps attrs props).
Proof.
  unfold attrProps. generalize (default [] attrs) as l. intros l. revert props.
  induction l as [|kv l IH]; intros props H; cbn [fold_left]; [done|].
  apply IH, lowerKeys_insert; [apply toLowerCase_idem|done].
Qed.

Lemma lowerKeys_inlineProps (rowText : str) (props : Props) :
  map_Forall (fun k _ => toLowerCase k = k) props ->
  map_Forall (fun k _ => toLowerCase k = k) (inlineProps rowText props).
Proof.
  unfold inlineProps. generalize (matchAll inlineProp 0 rowText) as l. intros l.
  revert props.
  induction l as [|kv l IH]; intros props H; cbn [fold_left]; [done|].
  apply IH, lowerKeys_insert; [apply toLowerCase_idem|done].
Qed.

Lemma lowerKeys_cellProps (rowText : str) (props : Props) :
  map_Forall (fun k _ => toLowerCase k = k) props ->
  map_Forall (fun k _ => toLowerCase k = k) (cellProps rowText props).
Proof.
  intros H. unfold cellProps. destruct (includes PIPE rowText); [|done].
  repeat apply lowerKeys_setIf; done.
Qed.

Lemma lowerKeys_emojiProps (rawBlock : str) (props : Props) :
  map_Forall (fun k _ => toLowerCase k = k) props ->
  map_Forall (fun k _ => toLowerCase k = k) (emojiProps rawBlock props).
Proof.
  unfold emojiProps. generalize (matchAll emojiDate 0 rawBlock) as l. intros l.
  revert props.
  induction l as [|m l IH]; intros props H; cbn [fold_left]; [done|].
  apply IH. unfold emojiStep, emojiKey.
  destruct (_ || _); [by apply lowerKeys_insert|].
  destruct (str_eqb (fst m) CALENDAR); [by apply lowerKeys_insert|].
  destruct (str_eqb (fst m) CHECKMARK); [by apply lowerKeys_insert|done].
Qed.

End PropertyKeys.

(** X15. Every property key of a scanned task is in lower case:
    attribute names, inline annotation keys and the keys the scanner
    sets itself. *)
Theorem property_keys_lowercase (f : TFile) (t : TaskItem) (k v : str) :
  In t (noteTasks f) -> t_props t !! k = Some v -> toLowerCase k = k.
Proof.
  intros Ht Hk.
  assert (map_Forall (fun k _ => toLowerCase k = k) (t_props t)) as H;
    [|exact (H k v Hk)].
  clear Hk. unfold noteTasks in Ht. apply in_app_iff in Ht as [Ht|Ht].
  - apply in_itemTasks in Ht as (item & _ & Ht). unfold itemTask in Ht.
    destruct (_ && _); [done|]. injection Ht as <-. cbn [t_props]. unfold itemProps.
    apply lowerKeys_emojiProps, lowerKeys_cellProps, lowerKeys_inlineProps,
      lowerKeys_attrProps, map_Forall_empty.
  - apply in_rowTasks in Ht as (idx & line & ->). cbn [t_props rowTask]. unfold rowProps.
    apply lowerKeys_cellProps, lowerKeys_inlineProps, map_Forall_empty.
Qed.

Lemma property_keys_lowercase_witness :
  let f := Sample.note "Plan.md" None ["| S-2 | E-1 | - [ ] Build | Due:: 2025-01-02 |"%string] in
  let t := rowTask (js "Plan.md") (js "| S-2 | E-1 | - [ ] Build | Due:: 2025-01-02 |") 0 in
  In t (noteTasks f) /\ t_props t !! js "due" = Some (js "2025-01-02")
  /\ t_props t !! js "Due" = None
  /\ toLowerCase (js "due") = js "due".
Proof.
  intros f t.
  assert (In t (noteTasks f)) as H by (left; vm_compute; reflexivity).
  assert (t_props t !! js "due" = Some (js "2025-01-02")) as E by (vm_compute; reflexivity).
  split; [exact H|]. split; [exact E|]. split; [vm_compute; reflexivity|].
  exact (property_keys_lowercase f t (js "due") (js "2025-01-02") H E).
Defined.

Section UpdateFrame.

Lemma writeFile_paths (p txt : str) (fs : list TFile) :
  map path (writeFile p txt fs) = map path fs.
Proof.
  induction fs as [|f fs IH]; cbn [writeFile map]; [done|].
  destruct (str_eqb (path f) p); cbn [map path]; [done|]. by rewrite IH.
Qed.

Lemma find_writeFile_other (p q txt : str) (fs : list TFile) :
  q <> p ->
  List.find (fun f => str_eqb (path f) q) (writeFile p txt fs)
  = List.find (fun f => str_eqb (path f) q) fs.
Proof.
  intros Hq. induction fs as [|f fs IH]; cbn [writeFile List.find]; [done|].
  destruct (str_eqb (path f) p) eqn:E; cbn [List.find path].
  - apply str_eqb_eq in E. rewrite E. by rewrite (proj2 (str_eqb_neq p q)).
  - by rewrite IH.
Qed.

Lemma find_writeFile_same (p txt : str) (fs : list TFile) (f : TFile) :
  List.find (fun f => str_eqb (path f) p) fs = Some f ->
  content <$> List.find (fun f => str_eqb (path f) p) (writeFile p txt fs) = Some txt.
Proof.
  induction fs as [|g fs IH]; cbn [writeFile List.find]; [done|].
  destruct (str_eqb (path g) p) eqn:E; cbn [List.find path].
  - by rewrite E.
  - rewrite E. apply IH.
Qed.

Lemma updateTask_resolved (c : ProjectCache) (taskId : str) (changes : Changes)
      (task : TaskItem) (c' : ProjectCache) :
  JsMap.get taskId (tasks c) = Some task ->
  updateTask c taskId changes = Resolved c' ->
  exists txt, c' = reindex (modifyFile c (t_file task) txt).
Proof.
  unfold updateTask. intros ->.
  cbv zeta. repeat case_match; try done; intros [= <-]; eauto.
Qed.

End UpdateFrame.

(** X16. An update that goes through rewrites one note and nothing
    else: the settings, the paths of the vault and the text of every
    other note are as before, and the collections it leaves are those
    of a scan of the vault it leaves. *)
Theorem updateTask_touches_one_note (c : ProjectCache) (taskId : str) (changes : Changes)
        (task : TaskItem) (c' : ProjectCache) :
  JsMap.get taskId (tasks c) = Some task ->
  updateTask c taskId changes = Resolved c' ->
  settings c' = settings c
  /\ map path (vault c') = map path (vault c)
  /\ (forall q, q <> t_file task -> readFile c' q = readFile c q)
  /\ reindex c' = c'.
Proof.
  intros Hget Hres.
  destruct (updateTask_resolved _ _ _ _ _ Hget Hres) as [txt ->].
  split; [by rewrite reindex_settings|].
  split; [rewrite reindex_vault; apply writeFile_paths|].
  split.
  - intros q Hq. unfold readFile. rewrite reindex_vault. cbn [modifyFile vault].
    by rewrite find_writeFile_other.
  - apply reindex_from_vault; [apply reindex_vault|apply reindex_settings].
Qed.

Lemma updateTask_touches_one_note_witness :
  let c := reindex (Sample.cacheOf [Sample.twoRows]) in
  exists task c',
    JsMap.get (js "plan.md::s-1") (tasks c) = Some task
    /\ updateTask c (js "plan.md::s-1") (Sample.setDue "2025-03-03") = Resolved c'
    /\ reindex c' = c'.
Proof.
  intros c.
  assert (exists task, JsMap.get (js "plan.md::s-1") (tasks c) = Some task) as [task Hg]
    by (eexists; vm_compute; reflexivity).
  assert (exists c', updateTask c (js "plan.md::s-1") (Sample.setDue "2025-03-03")
                     = Resolved c') as [c' Hr]
    by (eexists; vm_compute; reflexivity).
  exists task, c'. split; [exact Hg|]. split; [exact Hr|].
  exact (proj2 (proj2 (proj2 (updateTask_touches_one_note c _ _ task c' Hg Hr)))).
Defined.

Section LinesAbove.

Lemma split_app_LF (a s : str) :
  ~ In LF a -> split LF (a ++ LF :: s) = a :: split LF s.
Proof.
  induction a as [|c a IH]; intros Ha; cbn [app split].
  - by rewrite N.eqb_refl.
  - destruct (c =? LF) eqn:E.
    + apply N.eqb_eq in E. destruct Ha. by left.
    + rewrite IH; [done|]. intros H. apply Ha. by right.
Qed.

Lemma split_pieces (s : str) : Forall (fun l => ~ In LF l) (split LF s).
Proof.
  induction s as [|c s IH]; cbn [split].
  - apply Forall_cons. split; [intros []|done].
  - destruct (c =? LF) eqn:E.
    + apply Forall_cons. split; [intros []|done].
    + destruct (split LF s) as [|h r]; apply Forall_cons.
      * split; [|done]. intros [->|[]]. by rewrite N.eqb_refl in E.
      * apply Forall_cons in IH as [Hh Hr]. split; [|done].
        intros [->|H]; [by rewrite N.eqb_refl in E|done].
Qed.

Lemma split_join_prefix (pre rest : list str) :
  Forall (fun l => ~ In LF l) pre -> rest <> [] ->
  split LF (join [LF] (pre ++ rest)) = pre ++ split LF (join [LF] rest).
Proof.
  intros Hpre Hrest. induction pre as [|x pre IH]; [done|].
  apply Forall_cons in Hpre as [Hx Hpre].
  cbn [app]. destruct (pre ++ rest) as [|y l] eqn:E.
  - apply app_eq_nil in E as [_ ->]. done.
  - change (join [LF] (x :: y :: l)) with (x ++ LF :: join [LF] (y :: l)).
    rewrite split_app_LF by done. by rewrite IH.
Qed.

Lemma insert_mid (n : nat) (ls : list str) (x : str) :
  (n < length ls)%nat ->
  <[n := Some x]> (map Some ls)
  = map Some (take n ls) ++ Some x :: map Some (drop (S n) ls).
Proof.
  revert ls. induction n as [|n IH]; intros [|y ls] H; cbn in H; try lia.
  - done.
  - cbn. f_equal. apply IH. lia.
Qed.

Lemma attr_lines (n : nat) (ls : list str) (l x : str) :
  ls !! n = Some l ->
  map (default []) (arraySet n (Some l) (arraySet (n + 1) (Some x) (map Some ls)))
  = take (n + 1) ls ++ x :: drop (n + 2) ls.
Proof.
  intros Hn. pose proof (lookup_lt_Some _ _ _ Hn) as Hlt.
  assert (arraySet (n + 1) (Some x) (map Some ls)
          = map Some (take (n + 1) ls) ++ Some x :: map Some (drop (n + 2) ls)) as E.
  { unfold arraySet. rewrite length_map.
    destruct (n + 1 <? length ls)%nat eqn:E.
    - apply Nat.ltb_lt in E. rewrite insert_mid by done.
      by replace (S (n + 1)) with (n + 2)%nat by lia.
    - apply Nat.ltb_ge in E. replace (n + 1 - length ls)%nat with 0%nat by lia.
      cbn [replicate app].
      rewrite take_ge by lia. rewrite drop_ge by lia. done. }
  rewrite E. rewrite arraySet_same.
  - rewrite map_app. cbn [map]. rewrite !map_map. cbn. by rewrite !map_id.
  - rewrite lookup_app_l by (rewrite length_map, length_take; lia).
    change (map Some (take (n + 1) ls)) with (Some <$> take (n + 1) ls).
    rewrite list_lookup_fmap, lookup_take_lt by lia. by rewrite Hn.
Qed.

Lemma readFile_modified (c : ProjectCache) (p txt old : str) :
  readFile c p = Some old ->
  readFile (reindex (modifyFile c p txt)) p = Some txt.
Proof.
  unfold readFile. rewrite reindex_vault. cbn [modifyFile vault].
  destruct (List.find _ (vault c)) as [f|] eqn:E; [|done]. intros _.
  by apply (find_writeFile_same _ _ _ f).
Qed.

(** An update of properties alone leaves the lines of the note down
    to the line of the task as they were. *)
Lemma attribute_update_lines (c : ProjectCache) (taskId : str)
      (props : list (str * option str)) (task : TaskItem) (fileText : str)
      (c' : ProjectCache) :
  JsMap.get taskId (tasks c) = Some task ->
  readFile c (t_file task) = Some fileText ->
  (t_line task < length (split LF fileText))%nat ->
  updateTask c taskId {| ch_checked := None; ch_text := None; ch_props := props |}
  = Resolved c' ->
  exists newText,
    readFile c' (t_file task) = Some newText
    /\ take (t_line task + 1) (split LF newText)
       = take (t_line task + 1) (split LF fileText).
Proof.
  intros Hget Hread Hlt. unfold updateTask. rewrite Hget, Hread. cbv zeta.
  cbn [ch_checked ch_text ch_props].
  destruct (lookup_lt_is_Some_2 (split LF fileText) (t_line task) Hlt) as [l Hl].
  rewrite list_lookup_fmap, Hl. cbn [fmap option_fmap option_map mjoin option_join].
  destruct (forallb _ props); [|done].
  intros [= <-]. eexists. split; [by eapply readFile_modified|].
  destruct props as [|kv props]; cbn [writeAttrs].
  - rewrite arraySet_same by (by rewrite list_lookup_fmap, Hl).
    by rewrite joinLines_Some, join_split.
  - unfold joinLines. rewrite attr_lines by done.
    rewrite split_join_prefix.
    + rewrite take_app_length'; [done|]. rewrite length_take. lia.
    + apply Forall_take, split_pieces.
    + done.
Qed.

End LinesAbove.

(** X17. [moveTaskToStatus] writes below the line of the task: unless
    the status property is named [text], the note reads as before
    down to and including the line of the task, so the checkbox glyph,
    from which a scan takes the status, is the one it was. *)
Theorem move_status_keeps_task_line (c : ProjectCache) (taskId status : str)
        (task : TaskItem) (fileText : str) (c' : ProjectCache) :
  JsMap.get taskId (tasks c) = Some task ->
  readFile c (t_file task) = Some fileText ->
  (t_line task < length (split LF fileText))%nat ->
  statusProperty (settings c) <> js "text" ->
  moveTaskToStatus c taskId status = Resolved c' ->
  exists newText,
    readFile c' (t_file task) = Some newText
    /\ take (t_line task + 1) (split LF newText)
       = take (t_line task + 1) (split LF fileText).
Proof.
  intros Hget Hread Hlt Hk. unfold moveTaskToStatus.
  rewrite (proj2 (str_eqb_neq _ _) Hk). by apply attribute_update_lines.
Qed.

Lemma move_status_keeps_task_line_witness :
  let c := reindex (Sample.cacheOf [Sample.twoRows]) in
  exists c' newText,
    moveTaskToStatus c (js "plan.md::s-1") (js "done") = Resolved c'
    /\ readFile c' (js "Plan.md") = Some newText
    /\ take 1 (split LF newText) = [js "| S-1 | E-1 | - [ ] Design |"].
Proof.
  intros c.
  assert (exists c', moveTaskToStatus c (js "plan.md::s-1") (js "done") = Resolved c')
    as [c' Hr] by (eexists; vm_compute; reflexivity).
  destruct (move_status_keeps_task_line c (js "plan.md::s-1") (js "done")
              (rowTask (js "Plan.md") (js "| S-1 | E-1 | - [ ] Design |") 0)
              (content Sample.twoRows) c') as (newText & Hn & Ht).
  - vm_compute. reflexivity.
  - vm_compute. reflexivity.
  - vm_compute. lia.
  - vm_compute. discriminate.
  - exact Hr.
  - exists c', newText. split; [exact Hr|]. split; [exact Hn|]. exact Ht.
Defined.

Section Priority.

Lemma upper_cases (c : N) :
  is_upper c = true ->
  c = 65 \/ c = 66 \/ c = 67 \/ c = 68 \/ c = 69 \/ c = 70 \/ c = 71 \/ c = 72
  \/ c = 73 \/ c = 74 \/ c = 75 \/ c = 76 \/ c = 77 \/ c = 78 \/ c = 79 \/ c = 80
  \/ c = 81 \/ c = 82 \/ c = 83 \/ c = 84 \/ c = 85 \/ c = 86 \/ c = 87 \/ c = 88
  \/ c = 89 \/ c = 90.
Proof.
  unfold is_upper, between. intros [H1 H2]%andb_true_iff.
  apply N.leb_le in H1, H2. lia.
Qed.

Lemma lower_ws (c : N) : is_ws (lower c) = is_ws c.
Proof.
  unfold lower. destruct (is_upper c) eqn:E; [|done].
  apply upper_cases in E. by repeat destruct E as [-> | E]; try subst c.
Qed.

Lemma lower_nbsp (c : N) : isc NBSP (lower c) = isc NBSP c.
Proof.
  unfold lower. destruct (is_upper c) eqn:E; [|done].
  apply upper_cases in E. by repeat destruct E as [-> | E]; try subst c.
Qed.

Lemma trimStart_lower (s : str) : trimStart (toLowerCase s) = toLowerCase (trimStart s).
Proof.
  unfold toLowerCase. induction s as [|c s IH]; cbn [map trimStart]; [done|].
  rewrite lower_ws. by destruct (is_ws c).
Qed.

Lemma trim_lower (s : str) : trim (toLowerCase s) = toLowerCase (trim s).
Proof.
  unfold trim, trimEnd. rewrite trimStart_lower.
  unfold toLowerCase at 1. rewrite <- map_rev. fold (toLowerCase (rev (trimStart s))).
  rewrite trimStart_lower. unfold toLowerCase. by rewrite map_rev.
Qed.

Lemma trimStart_split (s : str) : exists pre, s = pre ++ trimStart s.
Proof.
  induction s as [|c s [pre IH]]; cbn [trimStart]; [by exists []|].
  destruct (is_ws c); [|by exists []]. exists (c :: pre). cbn [app]. by f_equal.
Qed.

Lemma trimStart_head (c : N) (t : str) (s : str) :
  trimStart s = c :: t -> is_ws c = false.
Proof.
  induction s as [|x s IH]; cbn [trimStart]; [done|].
  destruct (is_ws x) eqn:E; [done|]. by intros [= <- _].
Qed.

Lemma trimStart_fix (c : N) (t : str) : is_ws c = false -> trimStart (c :: t) = c :: t.
Proof. intros H. cbn [trimStart]. by rewrite H. Qed.

Lemma trimStart_idem (s : str) : trimStart (trimStart s) = trimStart s.
Proof.
  destruct (trimStart s) as [|c t] eqn:E; [done|].
  apply trimStart_fix. by eapply trimStart_head.
Qed.

Lemma trim_idem (s : str) : trim (trim s) = trim s.
Proof.
  unfold trim, trimEnd.
  set (a := trimStart s). set (b := trimStart (rev a)).
  assert (trimStart (rev b) = rev b) as E.
  { destruct (rev b) as [|x r] eqn:Eb; [done|]. apply trimStart_fix.
    destruct (trimStart_split (rev a)) as [pre Hpre]. fold b in Hpre.
    apply (f_equal (@rev N)) in Hpre. rewrite rev_involutive, rev_app_distr, Eb in Hpre.
    apply (trimStart_head x (r ++ rev pre) s). fold a. by rewrite Hpre. }
  rewrite E, rev_involutive. subst b. by rewrite trimStart_idem.
Qed.

Lemma replaceNbsp_map (s : str) :
  replaceNbsp s = map (fun c => if isc NBSP c then SP else c) s.
Proof.
  unfold replaceNbsp. induction s as [|c s IH]; [done|].
  cbn [replaceAll map].
  change (exec (chr (isc NBSP)) (c :: s))
    with (head (if isc NBSP c then [(c, s)] else [])).
  destruct (isc NBSP c); cbn [head].
  - replace (length (c :: s) - length s)%nat with 1%nat by (cbn [length]; lia).
    cbn [app]. by rewrite IH.
  - by rewrite IH.
Qed.

Lemma replaceNbsp_id (s : str) : includes NBSP s = false -> replaceNbsp s = s.
Proof.
  rewrite replaceNbsp_map. unfold includes.
  induction s as [|c s IH]; cbn [existsb map]; [done|].
  intros [-> H]%orb_false_iff. by rewrite IH.
Qed.

Lemma includes_lower (s : str) : includes NBSP (toLowerCase s) = includes NBSP s.
Proof.
  unfold includes, toLowerCase. induction s as [|c s IH]; cbn [existsb map]; [done|].
  by rewrite lower_nbsp, IH.
Qed.

Lemma inWords_In (ws : list string) (w : str) :
  inWords ws w = true <-> In w (map js ws).
Proof.
  unfold inWords. rewrite existsb_exists. split.
  - by intros (x & Hx & ->%str_eqb_eq).
  - intros H. exists w. split; [done|apply str_eqb_refl].
Qed.

(** The words of the scanner are those of the four classes of the
    view. *)
Lemma priorityWords_classes :
  priorityWords
  = map js (["critical"; "crit"; "c"; "p0"; "highest"]%string
            ++ ["high"; "h"; "1"; "p1"]%string
            ++ ["medium"; "med"; "m"; "2"; "p2"]%string
            ++ ["low"; "l"; "3"; "p3"]%string).
Proof. reflexivity. Qed.

Lemma classified (t : TaskItem) (p : str) :
  t_props t !! js "priority" = Some p ->
  In (toLowerCase (trim (replaceNbsp p))) priorityWords ->
  getTaskPriority t <> [].
Proof.
  intros Hp Hw. unfold getTaskPriority. rewrite Hp. cbv zeta.
  set (w := toLowerCase (trim (replaceNbsp p))) in *.
  destruct (str_eqb w []) eqn:E.
  { apply str_eqb_eq in E. rewrite E in Hw. vm_compute in Hw.
    repeat destruct Hw as [Hw|Hw]; try discriminate Hw. done. }
  rewrite priorityWords_classes, !map_app, !in_app_iff in Hw.
  rewrite <- !inWords_In in Hw.
  destruct (inWords _ w); [done|]. destruct (inWords _ w); [done|].
  destruct (inWords _ w); [done|]. destruct (inWords _ w); [done|].
  destruct Hw as [?|[?|[?|?]]]; done.
Qed.

Lemma words_without_nbsp (w : str) : In w priorityWords -> includes NBSP w = false.
Proof.
  intros H. vm_compute in H.
  repeat destruct H as [<-|H]; try reflexivity. destruct H.
Qed.

End Priority.

(** X18. [getTaskPriority] returns the empty string or one of the four
    class names, and it returns a class exactly when the priority
    property, with no-break spaces replaced, trimmed and in lower
    case, is one of the words the scanner recognises in a table
    cell. *)
Theorem priority_vocabulary (t : TaskItem) :
  In (getTaskPriority t) [[]; js "critical"; js "high"; js "medium"; js "low"]
  /\ (getTaskPriority t <> [] <->
      exists p, t_props t !! js "priority" = Some p
                /\ In (toLowerCase (trim (replaceNbsp p))) priorityWords).
Proof.
  split.
  - unfold getTaskPriority. destruct (t_props t !! js "priority") as [p|]; [|by left].
    cbv zeta. destruct (str_eqb _ []); [by left|].
    destruct (inWords _ _); [right; by left|].
    destruct (inWords _ _); [right; right; by left|].
    destruct (inWords _ _); [right; right; right; by left|].
    destruct (inWords _ _); [right; right; right; right; by left|by left].
  - split.
    + unfold getTaskPriority. destruct (t_props t !! js "priority") as [p|]; [|done].
      cbv zeta. intros H. exists p. split; [done|].
      rewrite priorityWords_classes, !map_app, !in_app_iff, <- !inWords_In.
      destruct (str_eqb _ []); [done|].
      destruct (inWords _ _); [by left|].
      destruct (inWords _ _); [right; by left|].
      destruct (inWords _ _); [right; right; by left|].
      destruct (inWords _ _); [right; right; right; done|done].
    + intros (p & Hp & Hw). by eapply classified.
Qed.

(** X19. A table row in which the scanner finds a priority cell yields
    a task that the timeline view puts in one of its four classes. *)
Theorem scanned_priority_is_classified (filePath line : str) (idx : nat) (w : str) :
  includes PIPE line = true ->
  priorityCell (tableCells line) = Some w ->
  getTaskPriority (rowTask filePath line idx) <> [].
Proof.
  intros Hpipe Hw.
  assert (t_props (rowTask filePath line idx) !! js "priority" = Some w) as Hp.
  { cbn [rowTask t_props]. unfold rowProps, cellProps. rewrite Hpipe, Hw. cbv zeta.
    destruct (descriptionCell _); cbn [setIf].
    - rewrite lookup_insert_ne by distinct. apply lookup_insert_eq.
    - apply lookup_insert_eq. }
  apply (classified _ w Hp).
  unfold priorityCell in Hw.
  destruct (List.find _ (tableCells line)) as [c|] eqn:E; [|done].
  injection Hw as <-. apply find_some in E as [_ E].
  apply existsb_exists in E as (x & Hx & <-%str_eqb_eq).
  rewrite trim_lower in Hx.
  pose proof (words_without_nbsp _ Hx) as Hn. rewrite includes_lower in Hn.
  by rewrite (replaceNbsp_id _ Hn), trim_idem.
Qed.

Lemma scanned_priority_is_classified_witness :
  let row := js "| E-1 | - [ ] Build | Ann | P1 |" in
  priorityCell (tableCells row) = Some (js "P1")
  /\ getTaskPriority (rowTask (js "Plan.md") row 0) <> [].
Proof.
  intros row.
  assert (priorityCell (tableCells row) = Some (js "P1")) as H by (vm_compute; reflexivity).
  split; [exact H|].
  apply (scanned_priority_is_classified (js "Plan.md") row 0 (js "P1")); [|exact H].
  vm_compute. reflexivity.
Defined.

Section Insert.

Lemma spliceIn_shape (start : Z) (x : str) (a : list str) :
  exists i, (i <= length a)%nat /\ spliceIn start x a = take i a ++ x :: drop i a
            /\ ((0 <= start <= Z.of_nat (length a))%Z -> i = Z.to_nat start).
Proof.
  unfold spliceIn. cbv zeta.
  exists (Z.to_nat (if (start <? 0)%Z then Z.max (Z.of_nat (length a) + start) 0
                    else Z.min start (Z.of_nat (length a)))).
  split; [|split; [reflexivity|]].
  - destruct (start <? 0)%Z eqn:E; [apply Z.ltb_lt in E; lia|lia].
  - intros H. destruct (start <? 0)%Z eqn:E; [apply Z.ltb_lt in E; lia|]. lia.
Qed.

Lemma firstIndex_Some (P : str -> bool) (from : nat) (lines : list str) (i : nat) :
  firstIndex P from lines = Some i ->
  (from <= i < from + length lines)%nat
  /\ forall j l, (j < i - from)%nat -> lines !! j = Some l -> P l = false.
Proof.
  revert from. induction lines as [|l lines IH]; intros from; cbn [firstIndex]; [done|].
  destruct (P l) eqn:E.
  - intros [= <-]. cbn [length]. split; [lia|]. intros j l' Hj. lia.
  - intros [H1 H2]%IH. cbn [length]. split; [lia|].
    intros [|j] l' Hj; cbn; [by intros [= <-]|]. apply H2. lia.
Qed.

Lemma lastRow_bounds (lo hi : nat) (rows : list (nat * str)) (init : nat) :
  Forall (fun il => (lo <= fst il < hi)%nat) rows ->
  (lo < init <= hi)%nat ->
  (lo < lastRow rows init <= hi)%nat.
Proof.
  unfold lastRow. revert init.
  induction rows as [|[i l] rows IH]; intros init Hrows Hinit; cbn [fold_left]; [done|].
  apply Forall_cons in Hrows as [Hi Hrows]. cbn [fst snd] in *.
  apply IH; [done|]. destruct (isTableRow l); lia.
Qed.

Lemma indexed_window (lines : list str) (lo n : nat) :
  Forall (fun il => (lo <= fst il < lo + n)%nat) (take n (drop lo (indexed lines))).
Proof.
  apply Forall_lookup. intros k [i l] Hk.
  apply lookup_take_Some in Hk as [Hk Hlt]. rewrite lookup_drop in Hk.
  unfold indexed in Hk. rewrite list_lookup_imap in Hk.
  destruct (lines !! (lo + k)%nat); [|done]. injection Hk as <- <-. cbn [fst]. lia.
Qed.

End Insert.

(** X20. [insertTaskIntoTable] adds one entry to the lines of the note
    and keeps the others in their order; the entry is the task line
    or the table row made from it. *)
Theorem insert_adds_one_line (d : ActionItemData) (lines : list str) (taskLine : str)
        (ty : ItemType) :
  exists i x,
    (i <= length lines)%nat
    /\ insertTaskIntoTable d lines taskLine ty = take i lines ++ x :: drop i lines
    /\ (x = taskLine \/ x = createTableRow d taskLine ty).
Proof.
  unfold insertTaskIntoTable.
  destruct (firstIndex (includesStr (heading ty)) 0 lines) as [h|].
  - cbv zeta. destruct (spliceIn_shape (Z.of_nat (lastRow
      (take (default (length lines)
               (firstIndex isSection (h + 1) (drop (h + 1) lines)) - h)
            (drop h (indexed lines)))
      (default (length lines) (firstIndex isSection (h + 1) (drop (h + 1) lines)))))
      (createTableRow d taskLine ty) lines) as (i & Hi & -> & _).
    exists i, (createTableRow d taskLine ty). auto.
  - cbv zeta. destruct (spliceIn_shape
      match firstIndex (startsWith (js "---")) 0 lines with
      | Some i => (Z.of_nat i + 1)%Z
      | None => (-1)%Z
      end taskLine lines) as (i & Hi & -> & _).
    exists i, taskLine. auto.
Qed.

(** X21. When the note has the heading of the table for the type, the
    new table row is inserted below the first line with that heading
    and not beyond the next section heading: no line between the
    heading and the new row starts a section. *)
Theorem row_lands_in_its_section (d : ActionItemData) (lines : list str) (taskLine : str)
        (ty : ItemType) (h : nat) :
  firstIndex (includesStr (heading ty)) 0 lines = Some h ->
  exists i,
    (h < i <= length lines)%nat
    /\ insertTaskIntoTable d lines taskLine ty
       = take i lines ++ createTableRow d taskLine ty :: drop i lines
    /\ forall j l, (h < j < i)%nat -> lines !! j = Some l -> isSection l = false.
Proof.
  intros Hh. unfold insertTaskIntoTable. rewrite Hh. cbv zeta.
  apply firstIndex_Some in Hh as [Hh _].
  set (tableEnd := default (length lines)
                     (firstIndex isSection (h + 1) (drop (h + 1) lines))).
  assert ((h < tableEnd <= length lines)%nat
          /\ forall j l, (h < j < tableEnd)%nat -> lines !! j = Some l -> isSection l = false)
    as [He Hsec].
  { subst tableEnd.
    destruct (firstIndex isSection (h + 1) (drop (h + 1) lines)) as [e|] eqn:E; cbn [from_option]; unfold id.
    - apply firstIndex_Some in E as [He Hsec]. rewrite length_drop in He. split; [lia|].
      intros j l Hj Hl. apply (Hsec (j - (h + 1))%nat); [lia|].
      rewrite lookup_drop. by replace (h + 1 + (j - (h + 1)))%nat with j by lia.
    - split; [lia|]. intros j l Hj Hl.
      assert (forall P from ls, firstIndex P from ls = None ->
                forall x, In x ls -> P x = false) as Hnone.
      { intros P from ls. revert from. induction ls as [|y ls IH]; intros from; [done|].
        cbn [firstIndex]. destruct (P y) eqn:Ey; [done|].
        intros Hn x [<-|Hx]; [done|]. by apply (IH (S from)). }
      apply (Hnone _ _ _ E). apply list_elem_of_In, list_elem_of_lookup.
      exists (j - (h + 1))%nat. rewrite lookup_drop.
      by replace (h + 1 + (j - (h + 1)))%nat with j by lia. }
  set (insertIndex := lastRow (take (tableEnd - h) (drop h (indexed lines))) tableEnd).
  assert (h < insertIndex <= tableEnd)%nat as Hins.
  { apply lastRow_bounds; [|lia].
    pose proof (indexed_window lines h (tableEnd - h)) as W.
    replace (h + (tableEnd - h))%nat with tableEnd in W by lia. exact W. }
  destruct (spliceIn_shape (Z.of_nat insertIndex) (createTableRow d taskLine ty) lines)
    as (i & Hi & -> & Hpos).
  rewrite Hpos by lia. rewrite Nat2Z.id.
  exists insertIndex. split; [lia|]. split; [done|].
  intros j l Hj. apply Hsec. lia.
Qed.

Lemma row_lands_in_its_section_witness :
  let d := {| d_title := js "Build"; d_startDate := []; d_dueDate := [];
              d_description := js "api"; d_assignee := js "Ann"; d_priority := [];
              d_parentEpic := None; d_parentStory := None;
              d_dependency := None; d_dependencyType := None |} in
  let lines := [js "## " ++ [55357; 56770; 65039] ++ js " Epics";
                js "| ID | Title |"; js "| --- | --- |"; js "| E-1 | - [ ] Plan |";
                []; js "## Notes"] in
  exists i, (0 < i <= 6)%nat
            /\ insertTaskIntoTable d lines (createTaskLine d (js "E-2")) Epic
               = take i lines ++ createTableRow d (createTaskLine d (js "E-2")) Epic
                   :: drop i lines.
Proof.
  intros d lines.
  destruct (row_lands_in_its_section d lines (createTaskLine d (js "E-2")) Epic 0)
    as (i & Hi & E & _).
  - vm_compute. reflexivity.
  - exists i. split; [exact Hi|exact E].
Defined.

Section CreatedRow.

Lemma star_first {B} (p : N -> bool) (f : str -> Re B) (s : str) :
  exists rest, (star p ≫= f) s = f (run p s) (after p s) ++ rest.
Proof.
  revert f. induction s as [|c t IH]; intros f.
  - exists []. done.
  - unfold mbind, re_bind, star in *. cbn [star_from run after].
    destruct (p c) eqn:Hc.
    + rewrite flat_map_app. cbn [flat_map fst snd].
      rewrite flat_map_concat_map, map_map, <- flat_map_concat_map.
      cbn [fst snd].
      destruct (IH (fun a => f (c :: a))) as [rest ->].
      eexists. by rewrite <- app_assoc.
    + exists []. done.
Qed.

Lemma run_app (p : N -> bool) (w : str) (c : N) (r : str) :
  forallb p w = true -> p c = false -> run p (w ++ c :: r) = w.
Proof.
  induction w as [|x w IH]; simpl; intros Hw Hc; [by rewrite Hc|].
  apply andb_true_iff in Hw as [-> Hw]. f_equal. auto.
Qed.

Lemma run_all (p : N -> bool) (w : str) : forallb p w = true -> run p w = w.
Proof.
  induction w as [|x w IH]; simpl; [done|].
  intros [-> Hw]%andb_true_iff. f_equal. auto.
Qed.

Lemma after_all (p : N -> bool) (w : str) : forallb p w = true -> after p w = [].
Proof.
  induction w as [|x w IH]; simpl; [done|].
  intros [-> Hw]%andb_true_iff. auto.
Qed.

Lemma star_prefix (p : N -> bool) (pre rest : str) :
  forallb p pre = true -> In (pre, rest) (star p (pre ++ rest)).
Proof.
  unfold star. induction pre as [|c pre IH]; cbn [app forallb].
  - intros _. destruct rest as [|c r]; cbn [star_from]; [by left|].
    destruct (p c); [|by left]. apply in_app_iff. right. by left.
  - intros [Hc Hpre]%andb_true_iff. cbn [star_from]. rewrite Hc.
    apply in_app_iff. left. apply in_map_iff. exists (pre, rest). auto.
Qed.

Lemma In_test_at {A} (m : Re A) (s : str) (x : A * str) :
  In x (m s) -> test_at m s = true.
Proof. unfold test_at, exec. by destruct (m s). Qed.

Lemma search_none {A} (m : Re A) (s : str) :
  (forall p t, s = p ++ t -> m t = []) -> search m s = None.
Proof.
  induction s as [|c s IH]; intros H; cbn [search]; unfold exec.
  - by rewrite (H [] []).
  - rewrite (H [] (c :: s)) by done. cbn [head]. rewrite IH; [done|].
    intros p t ->. by apply (H (c :: p)).
Qed.

Lemma digits_digits (d : Decimal.uint) : forallb is_digit (digits d) = true.
Proof. induction d; cbn [digits forallb]; [done|by rewrite IHd..]. Qed.

Lemma ofN_digits (n : N) : forallb is_digit (ofN n) = true.
Proof. apply digits_digits. Qed.

Lemma ofN_nonempty (n : N) : ofN n <> [].
Proof.
  unfold ofN. pose proof (DecimalN.Unsigned.of_to n) as H.
  destruct (N.to_uint n) eqn:E; cbn [digits]; try done.
  cbn in H. subst n. done.
Qed.

Lemma digit_key (c : N) : is_digit c = true -> is_key c = true.
Proof. unfold is_key, is_word. intros ->. by rewrite orb_true_r. Qed.

Lemma forallb_impl (p q : N -> bool) (w : str) :
  (forall c, p c = true -> q c = true) -> forallb p w = true -> forallb q w = true.
Proof.
  intros H. induction w as [|c w IH]; cbn [forallb]; [done|].
  intros [Hc Hw]%andb_true_iff. by rewrite (H c Hc), IH.
Qed.

End CreatedRow.

Section CreatedRowScan.

Lemma key_not_ws (c : N) : is_ws c = true -> is_key c = false.
Proof.
  unfold is_ws, is_key, is_word, is_alpha, is_upper, is_digit, between, isc.
  intros H.
  destruct (c =? 45) eqn:E1; [apply N.eqb_eq in E1; subst c; done|].
  destruct (c =? 95) eqn:E2; [apply N.eqb_eq in E2; subst c; done|].
  destruct ((48 <=? c) && (c <=? 57)) eqn:E3.
  { apply andb_true_iff in E3 as [H1%N.leb_le H2%N.leb_le].
    assert (c = 48 \/ c = 49 \/ c = 50 \/ c = 51 \/ c = 52 \/ c = 53 \/ c = 54
            \/ c = 55 \/ c = 56 \/ c = 57) as Hc by lia.
    by repeat destruct Hc as [-> | Hc]; try subst c. }
  destruct ((65 <=? c) && (c <=? 90)) eqn:E4.
  { apply upper_cases in E4. by repeat destruct E4 as [-> | E4]; try subst c. }
  destruct ((97 <=? c) && (c <=? 122)) eqn:E5; [|done].
  apply andb_true_iff in E5 as [H1%N.leb_le H2%N.leb_le].
  assert (c = 97 \/ c = 98 \/ c = 99 \/ c = 100 \/ c = 101 \/ c = 102 \/ c = 103
          \/ c = 104 \/ c = 105 \/ c = 106 \/ c = 107 \/ c = 108 \/ c = 109
          \/ c = 110 \/ c = 111 \/ c = 112 \/ c = 113 \/ c = 114 \/ c = 115
          \/ c = 116 \/ c = 117 \/ c = 118 \/ c = 119 \/ c = 120 \/ c = 121
          \/ c = 122) as Hc by lia.
  by repeat destruct Hc as [-> | Hc]; try subst c.
Qed.

Lemma ws_not_key (c : N) : is_key c = true -> is_ws c = false.
Proof.
  intros H. destruct (is_ws c) eqn:E; [|done]. apply key_not_ws in E. congruence.
Qed.

Lemma key_not_pipe (c : N) : is_key c = true -> isc PIPE c = false.
Proof.
  intros H. destruct (isc PIPE c) eqn:E; [|done]. apply isc_eq in E. by subst c.
Qed.

(** The id column of a row that starts with [| id |]. *)
Lemma idColumn_row (i rest : str) :
  i <> [] -> forallb is_key i = true ->
  exec idColumn ([PIPE; SP] ++ i ++ [SP; PIPE] ++ rest) = Some (i, rest).
Proof.
  intros Hne Hkey. destruct i as [|k i]; [done|]. clear Hne.
  cbn [forallb] in Hkey. apply andb_true_iff in Hkey as [Hk Hi].
  unfold exec, idColumn.
  rewrite star_commit.
  2:{ intros a c r Hc. rewrite bind_chr. by rewrite (ws_not PIPE c). }
  cbn [app run after]. change (is_ws PIPE) with false. cbv iota.
  rewrite bind_chr. change (isc PIPE PIPE) with true. cbv iota.
  rewrite star_commit.
  2:{ intros a c r Hc. unfold plus. rewrite bind_assoc, bind_chr.
      by rewrite (key_not_ws c Hc). }
  cbn [run after]. change (is_ws SP) with true. cbv iota.
  cbn [run after]. rewrite (ws_not_key k Hk).
  unfold plus. rewrite bind_assoc, bind_chr, Hk, bind_assoc.
  rewrite star_commit.
  2:{ intros a c r Hc. rewrite bind_ret.
      rewrite star_commit.
      - rewrite bind_chr. cbn [run after]. rewrite (ws_not_key c Hc).
        by rewrite (key_not_pipe c Hc).
      - intros a' c' r' Hc'. rewrite bind_chr. by rewrite (ws_not PIPE c'). }
  rewrite (run_app is_key i SP (PIPE :: rest) Hi eq_refl).
  rewrite (after_app is_key i SP (PIPE :: rest) Hi eq_refl).
  rewrite bind_ret.
  rewrite star_commit.
  2:{ intros a' c' r' Hc'. rewrite bind_chr. by rewrite (ws_not PIPE c'). }
  cbn [run after]. change (is_ws SP) with true. cbv iota.
  cbn [run after]. change (is_ws PIPE) with false. cbv iota.
  rewrite bind_chr. change (isc PIPE PIPE) with true. cbv iota. done.
Qed.

(** No anchor is found at the end of a line that ends with a pipe. *)
Lemma caretSuffix_pipe_end (s : str) : search caretSuffix (s ++ [PIPE]) = None.
Proof.
  apply search_none. intros p t Hs.
  destruct (caretSuffix t) as [|[i r] l] eqn:E; [done|].
  assert (In (i, r) (caretSuffix t)) as Hin by (rewrite E; by left).
  destruct t as [|c t] using rev_ind; [done|]. clear IHt.
  assert (c = PIPE) as ->.
  { rewrite app_assoc in Hs. by apply app_inj_tail in Hs as [_ ->]. }
  exfalso. unfold caretSuffix in Hin.
  apply in_bind in Hin as (a1 & r1 & H1 & Hin).
  apply (stops_chr PIPE (isc CARET) eq_refl t []) in H1 as [r1' ->].
  apply in_bind in Hin as (a2 & r2 & H2 & Hin).
  assert (stops PIPE (plus is_key)) as Hplus.
  { unfold plus. apply stops_bind; [by apply stops_chr|]. intros c.
    apply stops_bind; [by apply stops_star|]. intros a. apply stops_ret. }
  apply Hplus in H2 as [r2' ->].
  apply in_bind in Hin as (a3 & r3 & H3 & Hin).
  apply (stops_star PIPE is_ws eq_refl) in H3 as [r3' ->].
  apply in_bind in Hin as (a4 & r4 & H4 & Hin).
  unfold eos in H4. by destruct r3'.
Qed.

(** A pipe row with a checkbox cell is a table-task row for the line
    walk, when nothing in front of the checkbox breaks the line. *)
Lemma tableTaskRow_checkbox (pre post : str) :
  forallb is_dot pre = true ->
  test_at tableTaskRow (PIPE :: pre ++ js "- [ ] " ++ post) = true.
Proof.
  intros Hpre. apply (In_test_at _ _ (tt, SP :: post)). unfold tableTaskRow.
  apply in_bind. exists [], (PIPE :: pre ++ js "- [ ] " ++ post). split.
  { apply (star_prefix is_ws [] _ eq_refl). }
  rewrite bind_chr. change (isc PIPE PIPE) with true. cbv iota.
  apply in_bind. exists pre, (js "- [ ] " ++ post). split.
  { by apply star_prefix. }
  cbn [js app]. rewrite bind_chr. change (isc DASH (N_of_ascii "-")) with true. cbv iota.
  apply in_bind. exists [SP], (N_of_ascii "[" :: N_of_ascii " " :: N_of_ascii "]" :: SP :: post).
  split.
  { apply (star_prefix is_ws [SP] _ eq_refl). }
  rewrite bind_chr. change (isc LBR (N_of_ascii "[")) with true. cbv iota.
  rewrite bind_chr.
  change (oneOf [SP; ch "x"; ch "X"; ch "/"; 92; DASH] (N_of_ascii " ")) with true.
  cbv iota. rewrite bind_chr. change (isc RBR (N_of_ascii "]")) with true. cbv iota.
  by left.
Qed.

End CreatedRowScan.

Section CreatedRowId.

Lemma lit_prefix {B} (w : str) (f : unit -> Re B) (s : str) :
  (lit w ≫= f) (w ++ s) = f tt s.
Proof.
  revert f. induction w as [|c w IH]; intros f; cbn [lit app].
  - apply bind_ret.
  - rewrite (bind_assoc (chr (isc c)) (fun _ => lit w) f), bind_chr.
    unfold isc at 1. rewrite N.eqb_refl. apply IH.
Qed.

Lemma upper_not_dash (c : N) : is_upper c = true -> isc DASH c = false.
Proof. intros H%upper_cases. by repeat destruct H as [-> | H]; try subst c. Qed.

Lemma upper_key (c : N) : is_upper c = true -> is_key c = true.
Proof. unfold is_key, is_word, is_alpha. by intros ->. Qed.

(** The id the row builder reads back from a task line. *)
Lemma idInTaskLine_taskLine (P D rest : str) :
  P <> [] -> forallb is_upper P = true ->
  D <> [] -> forallb is_digit D = true ->
  search idInTaskLine (js "- [ ] " ++ (P ++ DASH :: D) ++ SP :: rest)
  = Some ([], P ++ DASH :: D, SP :: rest).
Proof.
  intros HP HPu HD HDd.
  destruct P as [|k P]; [done|]. destruct D as [|d0 D]; [done|]. clear HP HD.
  cbn [forallb] in HPu, HDd.
  apply andb_true_iff in HPu as [Hk HPu]. apply andb_true_iff in HDd as [Hd0 HDd].
  assert (exec idInTaskLine (js "- [ ] " ++ ((k :: P) ++ DASH :: d0 :: D) ++ SP :: rest)
          = Some ((k :: P) ++ DASH :: d0 :: D, SP :: rest)) as E.
  { unfold exec, idInTaskLine. rewrite lit_prefix. cbv beta.
    unfold plus. rewrite bind_assoc. cbn [app]. rewrite bind_chr, Hk, bind_assoc.
    rewrite star_commit.
    2:{ intros a c r Hc. rewrite bind_ret, bind_chr. by rewrite (upper_not_dash c Hc). }
    rewrite <- app_assoc. cbn [app].
    rewrite (run_app is_upper P DASH _ HPu eq_refl).
    rewrite (after_app is_upper P DASH _ HPu eq_refl).
    rewrite bind_ret, bind_chr. change (isc DASH DASH) with true. cbv iota.
    rewrite bind_assoc, bind_chr, Hd0, bind_assoc.
    match goal with
    | |- context [(star is_digit ≫= ?f) ?s] =>
        destruct (star_first is_digit f s) as [l ->]
    end.
    rewrite (run_app is_digit D SP rest HDd eq_refl).
    rewrite (after_app is_digit D SP rest HDd eq_refl).
    rewrite bind_ret. done. }
  cbn [js app] in *. cbn [search]. by rewrite E.
Qed.

Lemma join_head (a : str) (l : list str) : exists tail, join [LF] (a :: l) = a ++ tail.
Proof.
  destruct l as [|b l]; cbn [join].
  - exists []. by rewrite app_nil_r.
  - by eexists.
Qed.

Lemma prefix_upper (ty : ItemType) :
  prefixOf ty <> [] /\ forallb is_upper (prefixOf ty) = true.
Proof. by destruct ty. Qed.

Lemma createTableRow_cells (d : ActionItemData) (ty : ItemType) (n : N) :
  let taskId := prefixOf ty ++ [DASH] ++ ofN n in
  exists parent rest,
    createTableRow d (createTaskLine d taskId) ty
    = [PIPE; SP] ++ taskId ++ [SP; PIPE] ++ (SP :: parent) ++ js "- [ ] " ++ rest ++ [PIPE]
    /\ parent = match ty with
                | Epic => []
                | Story => orElse (d_parentEpic d) (js "E-1") ++ js " | "
                | Subtask => orElse (d_parentStory d) (js "S-1") ++ js " | "
                end.
Proof.
  intros taskId. unfold createTableRow, createTaskLine.
  cbn [app].
  destruct (join_head (js "- [ ] " ++ taskId ++ SP :: d_title d)
    ((if filled (d_startDate d) then [js "  start:: " ++ d_startDate d] else []) ++
     (if filled (d_dueDate d) then [js "  due:: " ++ d_dueDate d] else []) ++
     (js "  assignee:: " ++ d_assignee d)
     :: (if filled (d_priority d) then [js "  priority:: " ++ d_priority d] else []) ++
        match dependencyText d with
        | Some t => [js "  " ++ t]
        | None => []
        end)) as [tail E].
  cbn [app] in E. rewrite E.
  destruct (prefix_upper ty) as [Hne Hup].
  replace ((js "- [ ] " ++ taskId ++ SP :: d_title d) ++ tail)
    with (js "- [ ] " ++ (prefixOf ty ++ DASH :: ofN n) ++ SP :: (d_title d ++ tail)).
  2:{ subst taskId. cbn [js app]. by rewrite <- !app_assoc. }
  rewrite (idInTaskLine_taskLine _ _ _ Hne Hup (ofN_nonempty n) (ofN_digits n)).
  cbv zeta. unfold pipeRow. subst taskId.
  destruct ty; cbn [join].
  - exists [], (d_title d ++ js " | " ++ (js "assignee:: " ++ d_assignee d) ++ js " | "
      ++ (if filled (d_priority d) then d_priority d else []) ++ js " | "
      ++ (if filled (d_startDate d) then js "start:: " ++ d_startDate d else []) ++ js " | "
      ++ (if filled (d_dueDate d) then js "due:: " ++ d_dueDate d else []) ++ js " | "
      ++ d_description d ++ [SP]).
    split; [|done]. cbn [js app]. rewrite <- !app_assoc. cbn [app].
    repeat (f_equal; try (rewrite <- !app_assoc; cbn [app])).
  - eexists _, (d_title d ++ js " | " ++ default [] (dependencyText d) ++ js " | "
      ++ (js "assignee:: " ++ d_assignee d) ++ js " | "
      ++ (if filled (d_priority d) then d_priority d else []) ++ js " | "
      ++ js "1" ++ js " | "
      ++ (if filled (d_startDate d) then js "start:: " ++ d_startDate d else []) ++ js " | "
      ++ (if filled (d_dueDate d) then js "due:: " ++ d_dueDate d else []) ++ js " | "
      ++ d_description d ++ [SP]).
    split; [|done]. cbn [js app]. rewrite <- !app_assoc. cbn [app].
    repeat (f_equal; try (rewrite <- !app_assoc; cbn [app])).
  - eexists _, (d_title d ++ js " | " ++ default [] (dependencyText d) ++ js " | "
      ++ (js "assignee:: " ++ d_assignee d) ++ js " | "
      ++ (if filled (d_priority d) then d_priority d else []) ++ js " | "
      ++ (if filled (d_startDate d) then js "start:: " ++ d_startDate d else []) ++ js " | "
      ++ (if filled (d_dueDate d) then js "due:: " ++ d_dueDate d else []) ++ js " | "
      ++ d_description d ++ [SP]).
    split; [|done]. cbn [js app]. rewrite <- !app_assoc. cbn [app].
    repeat (f_equal; try (rewrite <- !app_assoc; cbn [app])).
Qed.

End CreatedRowId.

Section CreatedRowFinal.

Lemma taskId_key (ty : ItemType) (n : N) :
  prefixOf ty ++ [DASH] ++ ofN n <> []
  /\ forallb is_key (prefixOf ty ++ [DASH] ++ ofN n) = true.
Proof.
  split; [by destruct ty|].
  rewrite !forallb_app. cbn [forallb].
  rewrite (forallb_impl is_upper is_key _ upper_key (proj2 (prefix_upper ty))).
  by rewrite (forallb_impl is_digit is_key _ digit_key (ofN_digits n)).
Qed.

Lemma key_dot (c : N) : is_key c = true -> is_dot c = true.
Proof.
  intros H. unfold is_dot.
  destruct (isc 10 c) eqn:E1; [apply isc_eq in E1; by subst c|].
  destruct (isc 13 c) eqn:E2; [apply isc_eq in E2; by subst c|].
  destruct (isc 8232 c) eqn:E3; [apply isc_eq in E3; by subst c|].
  destruct (isc 8233 c) eqn:E4; [apply isc_eq in E4; by subst c|]. done.
Qed.

(** The id and the shape of a pipe row that starts with the id cell and
    has its checkbox behind the cells [parent], as the dialog builds
    it. *)
Lemma shaped_row_id (taskId parent rest filePath : str) (idx : nat) :
  taskId <> [] -> forallb is_key taskId = true ->
  rowId filePath
        ([PIPE; SP] ++ taskId ++ [SP; PIPE] ++ (SP :: parent) ++ js "- [ ] "
         ++ rest ++ [PIPE]) idx
  = toLowerCase taskId.
Proof.
  intros Hne Hkey. unfold rowId.
  replace (search caretSuffix _) with (@None (str * str * str)).
  2:{ symmetry.
      replace ([PIPE; SP] ++ taskId ++ [SP; PIPE] ++ (SP :: parent) ++ js "- [ ] "
               ++ rest ++ [PIPE])
        with (([PIPE; SP] ++ taskId ++ [SP; PIPE] ++ (SP :: parent) ++ js "- [ ] "
               ++ rest) ++ [PIPE]) by (by rewrite <- !app_assoc).
      apply caretSuffix_pipe_end. }
  rewrite (idColumn_row taskId _ Hne Hkey).
  cbn [fmap option_fmap option_map defined fst].
  by rewrite (proj2 (str_eqb_neq taskId []) Hne).
Qed.

Lemma shaped_row_matches (taskId parent rest : str) :
  forallb is_key taskId = true -> forallb is_dot parent = true ->
  test_at tableTaskRow
          ([PIPE; SP] ++ taskId ++ [SP; PIPE] ++ (SP :: parent) ++ js "- [ ] "
           ++ rest ++ [PIPE])
  = true.
Proof.
  intros Hkey Hparent.
  replace ([PIPE; SP] ++ taskId ++ [SP; PIPE] ++ (SP :: parent) ++ js "- [ ] "
           ++ rest ++ [PIPE])
    with (PIPE :: (SP :: taskId ++ [SP; PIPE] ++ SP :: parent) ++ js "- [ ] "
          ++ (rest ++ [PIPE])).
  2:{ cbn [app]. do 2 f_equal. rewrite <- !app_assoc. cbn [app]. done. }
  apply tableTaskRow_checkbox.
  cbn [forallb]. rewrite !forallb_app. cbn [forallb].
  rewrite (forallb_impl is_key is_dot _ key_dot Hkey).
  change (is_dot SP) with true. change (is_dot PIPE) with true. cbn [andb]. done.
Qed.

End CreatedRowFinal.


(** X23. That row is a table-task row for the line walk, provided the
    parent cell in front of the checkbox holds no line break. *)
Theorem created_row_is_task_row (d : ActionItemData) (ty : ItemType) (n : N) :
  forallb is_dot
    match ty with
    | Epic => []
    | Story => orElse (d_parentEpic d) (js "E-1")
    | Subtask => orElse (d_parentStory d) (js "S-1")
    end = true ->
  test_at tableTaskRow
          (createTableRow d (createTaskLine d (prefixOf ty ++ [DASH] ++ ofN n)) ty)
  = true.
Proof.
  intros Hparent.
  destruct (createTableRow_cells d ty n) as (parent & rest & E & Hp).
  cbv zeta in E. rewrite E. clear E.
  destruct (taskId_key ty n) as [_ Hkey].
  apply shaped_row_matches; [done|].
  subst parent. destruct ty; [done| |]; by rewrite forallb_app, Hparent.
Qed.

Lemma created_row_is_task_row_witness :
  let d := {| d_title := js "Build"; d_startDate := []; d_dueDate := js "2025-08-01";
              d_description := js "api"; d_assignee := js "Ann"; d_priority := js "high";
              d_parentEpic := Some (js "E-1"); d_parentStory := None;
              d_dependency := None; d_dependencyType := None |} in
  createTableRow d (createTaskLine d (js "S-" ++ ofN 3)) Story
  = js "| S-3 | E-1 | - [ ] Build |  | assignee:: Ann | high | 1 |  | due:: 2025-08-01 | api |"
  /\ test_at tableTaskRow (createTableRow d (createTaskLine d (js "S-" ++ ofN 3)) Story)
     = true.
Proof.
  intros d. split; [vm_compute; reflexivity|].
  apply (created_row_is_task_row d Story 3). vm_compute. reflexivity.
Defined.

Section GenerateId.

Lemma digitsValue_acc (d : Decimal.uint) (acc : positive) :
  fold_left (fun n c => 10 * n + (c - 48)) (digits d) (Npos acc)
  = Npos (Pos.of_uint_acc d acc).
Proof.
  revert acc. induction d; intros acc; cbn [digits fold_left Pos.of_uint_acc]; [done|..];
    rewrite <- IHd; f_equal; lia.
Qed.

Lemma digitsValue_digits (d : Decimal.uint) : digitsValue (digits d) = N.of_uint d.
Proof.
  unfold digitsValue, N.of_uint.
  induction d; cbn [digits fold_left Pos.of_uint]; [done|exact IHd|..];
    apply (digitsValue_acc d 1) || idtac.
  all: match goal with
       | |- fold_left _ _ ?k = N.pos (Pos.of_uint_acc _ ?p) =>
           change k with (N.pos p); apply digitsValue_acc
       end.
Qed.

Lemma digitsValue_ofN (n : N) : digitsValue (ofN n) = n.
Proof. unfold ofN. rewrite digitsValue_digits. apply DecimalN.Unsigned.of_to. Qed.

Lemma digit_not_upper (c : N) : is_digit c = true -> is_upper c = false.
Proof.
  unfold is_digit, is_upper, between. intros [H1%N.leb_le H2%N.leb_le]%andb_true_iff.
  apply andb_false_iff. left. apply N.leb_gt. lia.
Qed.

Lemma lower_digits (w : str) : forallb is_digit w = true -> toLowerCase w = w.
Proof.
  unfold toLowerCase. induction w as [|c w IH]; cbn [forallb map]; [done|].
  intros [Hc Hw]%andb_true_iff. unfold lower at 1. rewrite (digit_not_upper c Hc).
  by rewrite IH.
Qed.

Lemma lower_taskId (ty : ItemType) (n : N) :
  toLowerCase (prefixOf ty ++ [DASH] ++ ofN n)
  = toLowerCase (prefixOf ty) ++ DASH :: ofN n.
Proof.
  unfold toLowerCase. rewrite !map_app. cbn [map app]. f_equal. f_equal.
  apply lower_digits, ofN_digits.
Qed.

Lemma litCi_prefix {B} (w : str) (f : str -> Re B) (s : str) :
  (litCi w ≫= f) (w ++ s) = f w s.
Proof.
  revert f. induction w as [|c w IH]; intros f; cbn [litCi fold_right app].
  - apply bind_ret.
  - fold (litCi w). rewrite bind_assoc, bind_chr, N.eqb_refl, bind_assoc, IH.
    apply bind_ret.
Qed.

Lemma startsWith_app (p s : str) : startsWith p (p ++ s) = true.
Proof. unfold startsWith. rewrite take_app_length. apply str_eqb_refl. Qed.

Lemma numbered_taskId (ty : ItemType) (n : N) :
  exec (numbered (prefixOf ty)) (toLowerCase (prefixOf ty) ++ DASH :: ofN n)
  = Some (ofN n, []).
Proof.
  unfold exec, numbered. rewrite litCi_prefix, bind_chr.
  change (isc DASH DASH) with true. cbv iota.
  pose proof (ofN_nonempty n) as Hne. pose proof (ofN_digits n) as Hd.
  destruct (ofN n) as [|d0 D]; [done|]. cbn [forallb] in Hd.
  apply andb_true_iff in Hd as [Hd0 HD].
  unfold plus. rewrite bind_chr, Hd0.
  destruct (star_first is_digit (fun a => mret (d0 :: a)) D) as [l ->].
  by rewrite (run_all _ _ HD), (after_all _ _ HD).
Qed.

(** The matchers of [numbered] only consume: what is left is not
    longer than the input, and the group is a run of digits inside
    it. *)
Lemma star_In (p : N -> bool) (s a r : str) :
  In (a, r) (star p s) -> s = a ++ r /\ forallb p a = true.
Proof.
  unfold star. revert a r. induction s as [|c s IH]; intros a r; cbn [star_from].
  - by intros [[= <- <-]|[]].
  - destruct (p c) eqn:Hc.
    + rewrite in_app_iff, in_map_iff.
      intros [([a' r'] & [= <- <-] & [-> Ha]%IH)|[[= <- <-]|[]]]; [|done].
      cbn [forallb app]. by rewrite Hc, Ha.
    + by intros [[= <- <-]|[]].
Qed.

Lemma plus_In (p : N -> bool) (s a r : str) :
  In (a, r) (plus p s) -> s = a ++ r /\ forallb p a = true.
Proof.
  unfold plus. rewrite bind_chr. destruct s as [|c s]; [done|].
  destruct (p c) eqn:Hc; [|done].
  intros (a' & r' & [-> Ha]%star_In & [[= <- <-]|[]])%in_bind.
  cbn [forallb app]. by rewrite Hc, Ha.
Qed.

Lemma litCi_In (w s a r : str) :
  In (a, r) (litCi w s) -> s = a ++ r /\ toLowerCase a = toLowerCase w.
Proof.
  revert s a r. induction w as [|c w IH]; intros s a r; cbn [litCi fold_right].
  - by intros [[= <- <-]|[]].
  - fold (litCi w). rewrite bind_chr. destruct s as [|x s]; [done|].
    destruct (lower x =? lower c) eqn:E; [|done]. apply N.eqb_eq in E.
    intros (a' & r' & [-> Ha]%IH & [[= <- <-]|[]])%in_bind.
    split; [done|]. unfold toLowerCase in *. cbn [map]. by rewrite E, Ha.
Qed.

Lemma numbered_group (prefix x ds r : str) :
  exec (numbered prefix) (toLowerCase x) = Some (ds, r) ->
  toLowerCase x = toLowerCase prefix ++ DASH :: ds ++ r
  /\ forallb is_digit ds = true.
Proof.
  intros H%exec_In. unfold numbered in H.
  apply in_bind in H as (a1 & r1 & [Hs Ha]%litCi_In & H).
  rewrite bind_chr in H. destruct r1 as [|c r1]; [done|].
  destruct (isc DASH c) eqn:Ec; [|done]. apply isc_eq in Ec as ->.
  apply plus_In in H as [-> Hd]. split; [|done].
  rewrite toLowerCase_idem in Ha.
  assert (toLowerCase a1 = a1) as Hfix.
  { pose proof (toLowerCase_idem x) as Hx. rewrite Hs in Hx.
    unfold toLowerCase in Hx. rewrite map_app in Hx.
    apply app_inj_1 in Hx as [Hx _]; [done|by rewrite length_map]. }
  rewrite Hs. f_equal. by rewrite <- Hfix.
Qed.

Lemma digitsValue_bound (ds : str) (acc : N) :
  forallb is_digit ds = true ->
  fold_left (fun n c => 10 * n + (c - 48)) ds acc < (acc + 1) * 10 ^ N.of_nat (length ds).
Proof.
  revert acc. induction ds as [|c ds IH]; intros acc; cbn [forallb fold_left length].
  - intros _. cbn. lia.
  - intros [Hc Hds]%andb_true_iff.
    unfold is_digit, between in Hc. apply andb_true_iff in Hc as [H1%N.leb_le H2%N.leb_le].
    eapply N.lt_le_trans; [by apply IH|].
    rewrite Nat2N.inj_succ, N.pow_succ_r'.
    assert (10 * acc + (c - 48) + 1 <= 10 * (acc + 1)) as Hle by lia.
    apply (N.mul_le_mono_r _ _ (10 ^ N.of_nat (length ds))) in Hle. lia.
Qed.

Lemma parseInt_short (ds : str) :
  forallb is_digit ds = true -> (length ds <= 15)%nat ->
  parseInt ds = Some (digitsValue ds).
Proof.
  intros Hd Hlen. unfold parseInt.
  pose proof (digitsValue_bound ds 0 Hd) as H. fold (digitsValue ds) in H.
  assert (10 ^ N.of_nat (length ds) <= 10 ^ 15) as Hpow.
  { apply N.pow_le_mono_r; lia. }
  rewrite (proj2 (N.leb_le _ _)); [done|].
  unfold MAX_SAFE_INTEGER. change (10 ^ 15) with 1000000000000000 in Hpow. lia.
Qed.

Lemma idFold_none (prefix : str) (ts : list TaskItem) :
  fold_left (idStep prefix) ts None = None.
Proof. induction ts as [|t ts IH]; [done|]. exact IH. Qed.

Lemma idFold_ge (prefix : str) (ts : list TaskItem) (a b : N) :
  fold_left (idStep prefix) ts (Some a) = Some b -> a <= b.
Proof.
  revert a. induction ts as [|t ts IH]; intros a; cbn [fold_left].
  - intros [= ->]. lia.
  - destruct (idStep prefix (Some a) t) as [a'|] eqn:E.
    + intros H%IH. cbn [idStep] in E.
      destruct (startsWith _ _); [|injection E as <-; lia].
      destruct (exec _ _) as [[ds r]|]; [|injection E as <-; lia].
      destruct (parseInt ds) as [num|]; [|done]. injection E as <-.
      destruct (a <=? num) eqn:C; [apply N.leb_le in C|]; lia.
    + by rewrite idFold_none.
Qed.

Lemma idFold_total (ty : ItemType) (ts : list TaskItem) (a : N) :
  (forall t ds r, In t ts ->
     toLowerCase (t_id t) = toLowerCase (prefixOf ty) ++ DASH :: ds ++ r ->
     forallb is_digit ds = true -> (length ds <= 15)%nat) ->
  exists b, fold_left (idStep (prefixOf ty)) ts (Some a) = Some b.
Proof.
  revert a. induction ts as [|t ts IH]; intros a Hlen; cbn [fold_left]; [by exists a|].
  assert (exists a', idStep (prefixOf ty) (Some a) t = Some a') as [a' ->].
  { cbn [idStep]. destruct (startsWith _ _); [|by eexists].
    destruct (exec _ _) as [[ds r]|] eqn:E; [|by eexists].
    apply numbered_group in E as [Hid Hd].
    rewrite parseInt_short; [by eexists|done|].
    by apply (Hlen t ds r (or_introl eq_refl)). }
  apply IH. intros t' ds r Ht'. apply Hlen. by right.
Qed.

Lemma idFold_above (ty : ItemType) (ts : list TaskItem) (a b m : N) (t : TaskItem) :
  In t ts ->
  toLowerCase (t_id t) = toLowerCase (prefixOf ty) ++ DASH :: ofN m ->
  fold_left (idStep (prefixOf ty)) ts (Some a) = Some b ->
  m < b.
Proof.
  revert a. induction ts as [|t0 ts IH]; intros a; [done|]. cbn [fold_left].
  intros [->|Hin] Hid.
  - cbn [idStep]. rewrite Hid, startsWith_app, numbered_taskId.
    unfold parseInt. rewrite digitsValue_ofN.
    destruct (m <=? MAX_SAFE_INTEGER); [|by rewrite idFold_none].
    intros H%idFold_ge. destruct (a <=? m) eqn:C; [lia|]. apply N.leb_gt in C. lia.
  - destruct (idStep (prefixOf ty) (Some a) t0) as [a'|]; [|by rewrite idFold_none].
    by apply IH.
Qed.

End GenerateId.

(** X24. As long as no id of the project continues the prefix of the
    type and a dash with more than 15 digits, [generateTaskId] returns
    that prefix with a number of at least 1, and no task of the
    project has the returned id, in whatever case. *)
Theorem generated_id_is_fresh (c : ProjectCache) (projectPath : str) (ty : ItemType) :
  (forall t ds r, In t (getProjectTasks c projectPath) ->
     toLowerCase (t_id t) = toLowerCase (prefixOf ty) ++ DASH :: ds ++ r ->
     forallb is_digit ds = true -> (length ds <= 15)%nat) ->
  exists n,
    1 <= n
    /\ generateTaskId c projectPath ty = Some (prefixOf ty ++ [DASH] ++ ofN n)
    /\ forall t, In t (getProjectTasks c projectPath) ->
                 toLowerCase (t_id t) <> toLowerCase (prefixOf ty ++ [DASH] ++ ofN n).
Proof.
  intros Hlen. unfold generateTaskId.
  destruct (idFold_total ty _ 1 Hlen) as [n E]. rewrite E.
  exists n. split; [by apply idFold_ge in E|]. split; [done|].
  intros t Ht Hid. rewrite lower_taskId in Hid.
  pose proof (idFold_above ty _ 1 n n t Ht Hid E). lia.
Qed.

Lemma generated_id_is_fresh_witness :
  let c := reindex (Sample.cacheOf [Sample.twoRows]) in
  generateTaskId c (js "Plan.md") Story = Some (js "S-3")
  /\ exists n, generateTaskId c (js "Plan.md") Story = Some (js "S" ++ [DASH] ++ ofN n)
               /\ forall t, In t (getProjectTasks c (js "Plan.md")) ->
                            toLowerCase (t_id t) <> toLowerCase (js "S" ++ [DASH] ++ ofN n).
Proof.
  intros c. split; [vm_compute; reflexivity|].
  destruct (generated_id_is_fresh c (js "Plan.md") Story) as (n & _ & E & H).
  - intros t ds r Ht Hid _.
    assert (getProjectTasks c (js "Plan.md")
            = [rowTask (js "Plan.md") (js "| S-1 | E-1 | - [ ] Design |") 0;
               rowTask (js "Plan.md") (js "| S-2 | E-1 | - [ ] Build |") 1]) as Ets
      by (vm_compute; reflexivity).
    rewrite Ets in Ht.
    destruct Ht as [<-|[<-|[]]]; vm_compute in Hid; injection Hid as Hid;
      apply (f_equal (@length N)) in Hid; rewrite length_app in Hid;
      cbn [length] in Hid; lia.
  - exists n. split; [exact E|exact H].
Defined.

Section ProjectOrder.

Lemma set_fresh (m : list (str * ProjectEntry)) (k : str) (v : ProjectEntry) :
  ~ In k (map fst m) -> JsMap.set k v m = m ++ [(k, v)].
Proof.
  induction m as [|[k0 v0] m IH]; cbn [JsMap.set map fst app]; [done|].
  intros H. destruct (str_eqb k0 k) eqn:E.
  - apply str_eqb_eq in E. destruct H. by left.
  - f_equal. apply IH. intros Hin. apply H. by right.
Qed.

Lemma scan_projects_fresh (fs : list TFile) (c0 : ProjectCache) :
  NoDup (map fst (projects c0) ++ map path fs) ->
  projects (fold_left (fun acc f => scanFile f acc) fs c0)
  = projects c0 ++ map (fun f => (path f, entryOf (settings c0) f)) fs.
Proof.
  revert c0. induction fs as [|f fs IH]; intros c0 Hnd; cbn [fold_left map].
  - by rewrite app_nil_r.
  - assert (~ In (path f) (map fst (projects c0))) as Hfresh.
    { intros Hin%list_elem_of_In. apply NoDup_app in Hnd as (_ & Hdis & _).
      apply (Hdis _ Hin). cbn [map]. by left. }
    rewrite IH.
    + rewrite scanFile_entry, (set_fresh _ _ _ Hfresh), <- app_assoc. done.
    + rewrite scanFile_entry, (set_fresh _ _ _ Hfresh), map_app. cbn [map fst].
      rewrite <- app_assoc. cbn [app]. done.
Qed.

End ProjectOrder.

(** X25. When the flagged notes of the vault have distinct paths, the
    project collection after a scan holds one entry per flagged note,
    in the order of the vault, each under the path of its note, and
    [getProjectFiles] lists those notes in that order. *)
Theorem projects_in_vault_order (c : ProjectCache) :
  NoDup (map path (flagged c)) ->
  projects (reindex c)
  = map (fun f => (path f, entryOf (settings c) f)) (flagged c)
  /\ getProjectFiles (reindex c) = map path (flagged c).
Proof.
  intros Hnd.
  assert (projects (reindex c)
          = map (fun f => (path f, entryOf (settings c) f)) (flagged c)) as E.
  { unfold reindex. rewrite scan_flagged. by rewrite scan_projects_fresh. }
  split; [done|]. unfold getProjectFiles. rewrite E, map_map. done.
Qed.

Lemma projects_in_vault_order_witness :
  let c := Sample.cacheOf [Sample.twoRows; Sample.buildApi None] in
  getProjectFiles (reindex c) = [js "Plan.md"; js "Roadmap.md"].
Proof.
  intros c.
  assert (NoDup (map path (flagged c))) as H.
  { assert (map path (flagged c) = [js "Plan.md"; js "Roadmap.md"]) as ->
      by (vm_compute; reflexivity).
    apply NoDup_cons. split; [|apply NoDup_singleton].
    intros [E|[]]%list_elem_of_In. vm_compute in E. discriminate E. }
  exact (proj2 (projects_in_vault_order c H)).
Defined.

(** ** From the dialog to the index *)

Section CreatedItem.

Lemma insert_row_shape (d : ActionItemData) (lines : list str) (taskLine : str)
      (ty : ItemType) (h : nat) :
  firstIndex (includesStr (heading ty)) 0 lines = Some h ->
  exists i, (i <= length lines)%nat
            /\ insertTaskIntoTable d lines taskLine ty
               = take i lines ++ createTableRow d taskLine ty :: drop i lines.
Proof.
  intros Hh. unfold insertTaskIntoTable. rewrite Hh. cbv zeta.
  match goal with
  | |- context [spliceIn ?z ?x ?a] => destruct (spliceIn_shape z x a) as (i & Hi & -> & _)
  end.
  by exists i.
Qed.

Lemma dot_not_LF (s : str) : forallb is_dot s = true -> ~ In LF s.
Proof.
  intros H Hin. rewrite forallb_forall in H. specialize (H LF Hin). done.
Qed.

Lemma split_join_lines (ls : list str) :
  ls <> [] -> Forall (fun l => ~ In LF l) ls -> split LF (join [LF] ls) = ls.
Proof.
  intros Hne Hls. destruct ls as [|x ls] using rev_ind; [done|]. clear IHls Hne.
  apply Forall_app in Hls as [Hls Hx]. apply Forall_cons in Hx as [Hx _].
  rewrite split_join_prefix by done. f_equal. cbn [join].
  clear Hls. induction x as [|c x IH]; [done|]. cbn [split].
  destruct (c =? LF) eqn:E.
  - apply N.eqb_eq in E. destruct Hx. by left.
  - rewrite IH; [done|]. intros H. apply Hx. by right.
Qed.

End CreatedItem.

(** X26. A story, epic or sub-task created by the dialog is found by
    the next scan: when the note has the heading of the table for the
    type and the new row holds no line break, the scan of the
    rewritten note yields a task with the generated id in lower case
    for it, provided the host reports no list item at a table-task
    row. *)
Theorem created_item_is_scanned (d : ActionItemData) (ty : ItemType) (n : N)
        (lines : list str) (h : nat) (f : TFile) :
  firstIndex (includesStr (heading ty)) 0 lines = Some h ->
  Forall (fun l => ~ In LF l) lines ->
  forallb is_dot
          (createTableRow d (createTaskLine d (prefixOf ty ++ [DASH] ++ ofN n)) ty)
  = true ->
  content f
  = join [LF] (insertTaskIntoTable d lines
                 (createTaskLine d (prefixOf ty ++ [DASH] ++ ofN n)) ty) ->
  (forall item l, In item (default [] (listItems f)) ->
                  split LF (content f) !! startLine item = Some l ->
                  test_at tableTaskRow l = false) ->
  exists t, In t (noteTasks f)
            /\ t_id t = toLowerCase (prefixOf ty ++ [DASH] ++ ofN n)
            /\ t_file t = path f.
Proof.
  intros Hh Hlines Hrow Hcontent Hitems.
  destruct (insert_row_shape d lines
              (createTaskLine d (prefixOf ty ++ [DASH] ++ ofN n)) ty h Hh)
    as (i & Hi & Hins).
  destruct (createTableRow_cells d ty n) as (parent & rest & Ecells & Hparent).
  cbv zeta in Ecells.
  destruct (taskId_key ty n) as [Hne Hkey].
  set (taskId := prefixOf ty ++ [DASH] ++ ofN n) in *.
  set (row := createTableRow d (createTaskLine d taskId) ty) in *.
  assert (split LF (content f) = take i lines ++ row :: drop i lines) as Hsplit.
  { rewrite Hcontent, Hins. apply split_join_lines; [by destruct (take i lines)|].
    apply Forall_app. split; [by apply Forall_take|].
    apply Forall_cons. split; [by apply dot_not_LF|by apply Forall_drop]. }
  assert (split LF (content f) !! i = Some row) as Hat.
  { rewrite Hsplit, lookup_app_r by (rewrite length_take; lia).
    rewrite length_take. by replace (i - i `min` length lines)%nat with 0%nat by lia. }
  assert (test_at tableTaskRow row = true) as Hmatch.
  { rewrite Ecells. apply shaped_row_matches; [done|].
    rewrite Ecells in Hrow. rewrite !forallb_app in Hrow.
    apply andb_true_iff in Hrow as [_ Hrow]. apply andb_true_iff in Hrow as [_ Hrow].
    apply andb_true_iff in Hrow as [_ Hrow]. apply andb_true_iff in Hrow as [Hrow _].
    cbn [forallb] in Hrow. by apply andb_true_iff in Hrow as [_ Hrow]. }
  exists (rowTask (path f) row i). split; [|split; [|done]].
  - unfold noteTasks. apply in_app_iff. right. unfold rowTasks.
    apply in_map_iff. exists (i, row). split; [done|]. apply filter_In. split.
    + unfold indexed. apply list_elem_of_In, elem_of_lookup_imap. by exists i, row.
    + unfold openRow. cbn [fst snd]. rewrite Hmatch. cbn [andb].
      apply negb_true_iff.
      destruct (existsb _ _) eqn:Ex; [|done].
      apply existsb_exists in Ex as (t & Ht & Hline). apply Nat.eqb_eq in Hline.
      apply in_itemTasks in Ht as (item & Hitem & Ht). unfold itemTask in Ht.
      destruct (_ && _); [done|]. injection Ht as <-. cbn [t_line] in Hline.
      rewrite <- Hline in Hat. by rewrite (Hitems item row Hitem Hat) in Hmatch.
  - cbn [rowTask t_id]. subst row. rewrite Ecells. by apply shaped_row_id.
Qed.

Lemma created_item_is_scanned_witness :
  let d := {| d_title := js "Build"; d_startDate := []; d_dueDate := [];
              d_description := js "api"; d_assignee := js "Ann"; d_priority := [];
              d_parentEpic := None; d_parentStory := None;
              d_dependency := None; d_dependencyType := None |} in
  let lines := [js "## " ++ [55357; 56770; 65039] ++ js " Epics";
                js "| ID | Title |"; js "| --- | --- |"; js "| E-1 | - [ ] Plan |";
                []; js "## Notes"] in
  let f := {| path := js "Plan.md";
              frontmatter := Some {[ js "project" := true ]};
              listItems := None;
              content := join [LF] (insertTaskIntoTable d lines
                                      (createTaskLine d (js "E-" ++ ofN 2)) Epic) |} in
  exists t, In t (noteTasks f) /\ t_id t = js "e-2".
Proof.
  intros d lines f.
  destruct (created_item_is_scanned d Epic 2 lines 0 f) as (t & Ht & Hid & _).
  - vm_compute. reflexivity.
  - repeat (apply List.Forall_cons; [apply dot_not_LF; vm_compute; reflexivity|]).
    apply List.Forall_nil.
  - vm_compute. reflexivity.
  - reflexivity.
  - intros item l [].
  - exists t. split; [exact Ht|]. rewrite Hid. vm_compute. reflexivity.
Defined.
